(** * cparsec: a parser-combinator engine and its JSON grammar

    A shallow embedding of [cparsec.hpp], [jsonp.hpp] and the [main]
    of [main.cc].

    - A [Parser<T>] is a [std::function] from [ParseState] to
      [ParseResult<T>].  Such a call may also not return a result: the
      call [s.s->at(s.pos)] raises [std::out_of_range], the copy
      constructor of [ParseResult] assigns to a member of its union that
      was never constructed, and the recursive lambdas ([manyP], the
      lazily tied JSON grammar) may recurse without end.  These are kept
      apart from the two [ParseResult] variants in the type [outcome].
    - Every recursive lambda takes a bound [fuel] on the depth of its
      unfolding; [OutOfFuel] is the answer of a call that reached the bound.
    - [unsigned long long] positions are [N] with the wrap-around of the
      one addition the code performs on them; [int] is [Z] wrapped to 32
      bits; [double] is the kernel's binary64 [float]. *)

From Stdlib Require Import String Ascii List ZArith NArith Bool Lia.
From Stdlib Require Import PrimFloat Uint63.
From Stdlib Require Import OrdersEx Sorted Permutation RelationClasses.
Import ListNotations.

Open Scope string_scope.
Open Scope N_scope.

(** ** Outcomes of a call *)

(** [Returns a]: the call returns [a].  [Fault]: it ends without a
    result ([std::out_of_range], the read of a union member that is not
    the active one, or the assignment of a [std::string] or a [std::list]
    to a union member that was never constructed).  [OutOfFuel]: it
    reached the recursion bound. *)
Inductive outcome (A : Type) : Type :=
| Returns (a : A)
| Fault
| OutOfFuel.

Arguments Returns {A} a.
Arguments Fault {A}.
Arguments OutOfFuel {A}.

Definition bind {A B : Type} (m : outcome A) (k : A -> outcome B) : outcome B :=
  match m with
  | Returns a => k a
  | Fault => Fault
  | OutOfFuel => OutOfFuel
  end.

Notation "x <- m ;; k" := (bind m (fun x => k))
  (at level 61, m at next level, right associativity).

(** ** ParseState, ParseResult, Parser *)

Record ParseState : Type := mkState { pos : N; input : string }.

(** [explicit ParseState(const std::string &s)]: position 0. *)
Definition initial (str : string) : ParseState := mkState 0 str.

Inductive ParseResult (T : Type) : Type :=
| Success (result : T) (state : ParseState)
| Failure (state : ParseState) (error : list string).

Arguments Success {T} result state.
Arguments Failure {T} state error.

Definition state_of {T : Type} (r : ParseResult T) : ParseState :=
  match r with
  | Success _ st => st
  | Failure st _ => st
  end.

Definition success {T : Type} (s : ParseState) (r : T) : ParseResult T :=
  Success r s.

Definition Parser (T : Type) : Type := ParseState -> outcome (ParseResult T).

Definition parse {T : Type} (p : Parser T) (str : string) : outcome (ParseResult T) :=
  p (initial str).

(** ** Copying a result *)

(** [ParseResult(const ParseResult &r)] initialises [state] and [success]
    and then assigns to [result] or to [error]: to a member of the union
    that no constructor has run for.  For a [char], a [bool], an [int] or
    a [double] the assignment stores the value, and [JsonValue::operator=]
    only writes to its object.  The assignment of a [std::string], a
    [std::list] or a [std::map] works on the object it assigns to, and
    there is none.  [rawAssign T] tells the result types of the first
    kind from the others. *)
Class RawAssignable (T : Type) : Type := rawAssign : bool.

Arguments rawAssign T {_}.

#[export] Instance assign_char : RawAssignable ascii := true.
#[export] Instance assign_bool : RawAssignable bool := true.
#[export] Instance assign_int : RawAssignable Z := true.
#[export] Instance assign_double : RawAssignable float := true.
#[export] Instance assign_string : RawAssignable string := false.
#[export] Instance assign_list (A : Type) : RawAssignable (list A) := false.
#[export] Instance assign_pair (A B : Type) {CA : RawAssignable A}
  {CB : RawAssignable B} : RawAssignable (A * B) := rawAssign A && rawAssign B.

(** The copy of a result.  [error] is a [std::list]: a failed result is
    never copied with a defined effect. *)
Definition copy {T : Type} {C : RawAssignable T} (r : ParseResult T)
  : outcome (ParseResult T) :=
  match r with
  | Success _ _ => if rawAssign T then Returns r else Fault
  | Failure _ _ => Fault
  end.

(** ** Machine integers *)

(** [unsigned long long] arithmetic wraps at [2^64]. *)
Definition u64 (n : N) : N := n mod 2 ^ 64.

(** [int]: where C++ leaves the overflow of a signed operation
    undefined, the model takes the two's complement result in 32 bits. *)
Definition int32 (z : Z) : Z := ((z + 2 ^ 31) mod 2 ^ 32 - 2 ^ 31)%Z.

(** [std::string::size] and [std::string::at]. *)
Definition size (str : string) : N := N.of_nat (String.length str).

Definition at_ (str : string) (i : N) : option ascii := String.get (N.to_nat i) str.

(** ** Combinators *)

Definition mapP {A B : Type} (p : Parser A) (f : A -> B) : Parser B :=
  fun s =>
    r <- p s ;;
    match r with
    | Failure st e => Returns (Failure st e)
    | Success v st => Returns (success st (f v))
    end.

(** The variadic [orP(p, ps...)]: [orP p []] is the one-argument overload.
    [return r;] copies the local [r]. *)
Fixpoint orP {T : Type} {C : RawAssignable T} (p : Parser T) (ps : list (Parser T))
  : Parser T :=
  match ps with
  | [] => p
  | q :: qs =>
      fun s =>
        r <- p s ;;
        match r with
        | Failure _ _ => orP q qs s
        | Success _ _ => copy r
        end
  end.

Definition pureP {T : Type} (x : T) : Parser T :=
  fun s => Returns (success s x).

Definition andP {A B C : Type} (pa : Parser A) (pb : Parser B) (f : A -> B -> C)
  : Parser C :=
  fun s =>
    ra <- pa s ;;
    match ra with
    | Failure st e => Returns (Failure st e)
    | Success a sa =>
        rb <- pb sa ;;
        match rb with
        | Failure st e => Returns (Failure st e)
        | Success b sb => Returns (success sb (f a b))
        end
    end.

Definition leftP {A B : Type} (pa : Parser A) (pb : Parser B) : Parser A :=
  andP pa pb (fun a _ => a).

Definition rightP {A B : Type} (pa : Parser A) (pb : Parser B) : Parser B :=
  andP pa pb (fun _ b => b).

(** [manyP]: the recursive call's [rs.result] is read without a test of
    [rs.success]; on a failure that would read the inactive member of the
    union, which is a [Fault]. *)
Fixpoint manyP {T : Type} (fuel : nat) (p : Parser T) (s : ParseState)
  : outcome (ParseResult (list T)) :=
  match fuel with
  | O => OutOfFuel
  | S n =>
      r <- p s ;;
      match r with
      | Failure _ _ => Returns (success s [])
      | Success v st =>
          rs <- manyP n p st ;;
          match rs with
          | Success vs st' => Returns (success st' (v :: vs))
          | Failure _ _ => Fault
          end
      end
  end.

Definition someP {T : Type} (fuel : nat) (p : Parser T) : Parser (list T) :=
  andP p (manyP fuel p) (fun r rs => r :: rs).

(** ** Primitives *)

Definition idP : Parser ascii :=
  fun s =>
    if pos s =? size (input s) then Returns (Failure s ["end of file"])
    else match at_ (input s) (pos s) with
         | Some c => Returns (success (mkState (u64 (pos s + 1)) (input s)) c)
         | None => Fault
         end.

Definition eofP : Parser bool :=
  fun s =>
    if pos s =? size (input s) then Returns (success s true)
    else Returns (Failure s ["expect end of file"]).

(** [return r;] copies the local [r], a successful [ParseResult<char>]. *)
Definition predP (f : ascii -> bool) : Parser ascii :=
  fun s =>
    r <- idP s ;;
    match r with
    | Failure st e => Returns (Failure st e)
    | Success c st =>
        if negb (f c) then Returns (Failure st ["unexpect " ++ String c ""])
        else copy r
    end.

Definition charP (c : ascii) : Parser ascii :=
  predP (fun x => Ascii.eqb c x).

Definition oneOfP (str : string) : Parser ascii :=
  predP (fun c =>
    fold_left (fun t x => t || Ascii.eqb c x) (list_ascii_of_string str) false).

(** [if (!rs.success) return rs;] copies the failed local [rs]. *)
Fixpoint stringP (str : string) : Parser string :=
  fun s =>
    match str with
    | EmptyString => Returns (success s "")
    | String c rest =>
        r <- charP c s ;;
        match r with
        | Failure st e => Returns (Failure st e)
        | Success _ st =>
            rs <- stringP rest st ;;
            match rs with
            | Failure _ _ => copy rs
            | Success _ st' => Returns (success st' str)
            end
        end
    end.

(** ** Numeric parsers *)

(** [" \n\t"] *)
Definition space : Parser ascii :=
  oneOfP (String " " (String "010" (String "009" ""))).

Definition spaces (fuel : nat) : Parser (list ascii) := manyP fuel space.

Definition isDigit (c : ascii) : bool :=
  (N_of_ascii "0" <=? N_of_ascii c) && (N_of_ascii c <=? N_of_ascii "9").

Definition digitValue (c : ascii) : Z :=
  int32 (Z.of_N (N_of_ascii c) - Z.of_N (N_of_ascii "0")).

Definition digitP : Parser Z := mapP (predP isDigit) digitValue.

(** [int n = 0; for (int i : ns) n = n * 10 + i;] *)
Definition natOf (ns : list Z) : Z :=
  fold_left (fun n i => int32 (n * 10 + i)) ns 0%Z.

Definition natP (fuel : nat) : Parser Z := mapP (someP fuel digitP) natOf.

Definition negate (x : Z) : Z := int32 (- x).

Definition intP (fuel : nat) : Parser Z :=
  orP (mapP (rightP (charP "-") (natP fuel)) negate) [natP fuel].

(** The conversion of an [int] to [double] is exact. *)
Definition double_of_int (x : Z) : float :=
  if (x <? 0)%Z then PrimFloat.opp (PrimFloat.of_uint63 (Uint63.of_Z (- x)))
  else PrimFloat.of_uint63 (Uint63.of_Z x).

(** The binary64 value of the literal [0.1]. *)
Definition tenth : float := 0x1.999999999999ap-4%float.

(** [double ans = 0, base = 0.1;
     for (int i : ns) { ans += i * base; base /= 10; }] *)
Definition fractionStep (acc : float * float) (i : Z) : float * float :=
  (PrimFloat.add (fst acc) (PrimFloat.mul (double_of_int i) (snd acc)),
   PrimFloat.div (snd acc) 10%float).

Definition fractionOf (ns : list Z) : float :=
  fst (fold_left fractionStep ns (0%float, tenth)).

Definition doubleP (fuel : nat) : Parser float :=
  orP (andP (intP fuel)
            (rightP (charP ".") (mapP (someP fuel digitP) fractionOf))
            (fun x y => PrimFloat.add (double_of_int x) y))
      [mapP (intP fuel) double_of_int].

Definition betweenP {A B C : Type} (lp : Parser A) (rp : Parser B) (p : Parser C)
  : Parser C :=
  rightP lp (leftP p rp).

Definition trimP {T : Type} (fuel : nat) (p : Parser T) : Parser T :=
  rightP (spaces fuel) (leftP p (spaces fuel)).

Definition lazyP {T : Type} (f : unit -> Parser T) : Parser T :=
  fun s => f tt s.

(** ** JSON values *)

(** [std::map<std::string, V>]: the entries in increasing key order. *)
Definition smap (V : Type) : Type := list (string * V).

(** [m[k] = v] *)
Fixpoint assign {V : Type} (k : string) (v : V) (m : smap V) : smap V :=
  match m with
  | [] => [(k, v)]
  | (k', v') :: m' =>
      match String_as_OT.compare k k' with
      | Lt => (k, v) :: m
      | Eq => (k', v) :: m'
      | Gt => (k', v') :: assign k v m'
      end
  end.

Fixpoint find {V : Type} (k : string) (m : smap V) : option V :=
  match m with
  | [] => None
  | (k', v') :: m' => if String.eqb k k' then Some v' else find k m'
  end.

#[local] Set Warnings "-register-all".

Inductive JsonValue : Type :=
| JSON_NULL
| JSON_BOOL (boolValue : bool)
| JSON_NUM (numValue : float)
| JSON_STRING (strValue : string)
| JSON_ARRAY (arrayValue : list JsonValue)
| JSON_OBJECT (objectValue : smap JsonValue).

(** [JsonValue::operator=] sets [type] and constructs the member in place;
    it reads nothing of the object it is called on. *)
#[export] Instance assign_json : RawAssignable JsonValue := true.

(** [JsonValue::operator==] *)
Fixpoint json_eqb (a b : JsonValue) : bool :=
  match a, b with
  | JSON_NULL, JSON_NULL => true
  | JSON_BOOL x, JSON_BOOL y => Bool.eqb x y
  | JSON_NUM x, JSON_NUM y => PrimFloat.eqb x y
  | JSON_STRING x, JSON_STRING y => String.eqb x y
  | JSON_ARRAY xs, JSON_ARRAY ys =>
      (fix all2 (xs ys : list JsonValue) : bool :=
         match xs, ys with
         | [], [] => true
         | x :: xs', y :: ys' => json_eqb x y && all2 xs' ys'
         | _, _ => false
         end) xs ys
  | JSON_OBJECT xs, JSON_OBJECT ys =>
      (fix all2 (xs ys : smap JsonValue) : bool :=
         match xs, ys with
         | [], [] => true
         | (k, x) :: xs', (k', y) :: ys' =>
             String.eqb k k' && json_eqb x y && all2 xs' ys'
         | _, _ => false
         end) xs ys
  | _, _ => false
  end.

(** ** The JSON grammar *)

Definition nullP (fuel : nat) : Parser JsonValue :=
  trimP fuel (mapP (stringP "null") (fun _ => JSON_NULL)).

Definition boolP (fuel : nat) : Parser JsonValue :=
  trimP fuel (orP (mapP (stringP "true") (fun _ => JSON_BOOL true))
                  [mapP (stringP "false") (fun _ => JSON_BOOL false)]).

Definition numP (fuel : nat) : Parser JsonValue :=
  trimP fuel (mapP (doubleP fuel) JSON_NUM).

Definition escapeChar (c : ascii) : ascii :=
  if Ascii.eqb c "0" then "000"
  else if Ascii.eqb c "b" then "008"
  else if Ascii.eqb c "t" then "009"
  else if Ascii.eqb c "n" then "010"
  else if Ascii.eqb c "v" then "011"
  else if Ascii.eqb c "f" then "012"
  else if Ascii.eqb c "r" then "013"
  else c.

Definition escapeP : Parser ascii := mapP idP escapeChar.

Definition quote : ascii := "034".

Definition escapeStrP (fuel : nat) : Parser string :=
  trimP fuel (betweenP (charP quote) (charP quote)
    (mapP (manyP fuel (orP (rightP (charP "\") escapeP)
                           [predP (fun c => negb (Ascii.eqb c quote))]))
          string_of_list_ascii)).

Definition strP (fuel : nat) : Parser JsonValue :=
  mapP (escapeStrP fuel) JSON_STRING.

Definition consArray (x : JsonValue) (xs : list JsonValue) : JsonValue :=
  JSON_ARRAY (x :: xs).

(** [for (kv i : xs) m[i.first] = i.second;] *)
Definition mapOf (xs : list (string * JsonValue)) : smap JsonValue :=
  fold_left (fun m i => assign (fst i) (snd i) m) xs [].

Definition consObject (x : string * JsonValue) (xs : list (string * JsonValue))
  : JsonValue :=
  JSON_OBJECT (mapOf (x :: xs)).

(** [jsonP], [arrayP] and [objectP] refer to each other through [lazyP]:
    forcing a deferred reference unfolds the grammar once more. *)
Fixpoint jsonP (fuel : nat) : Parser JsonValue :=
  match fuel with
  | O => fun _ => OutOfFuel
  | S n =>
      orP (nullP n)
          [boolP n; numP n; strP n;
           lazyP (fun _ => arrayP n); lazyP (fun _ => objectP n)]
  end
with arrayP (fuel : nat) : Parser JsonValue :=
  match fuel with
  | O => fun _ => OutOfFuel
  | S n =>
      let p := orP (andP (lazyP (fun _ => jsonP n))
                         (manyP n (rightP (charP ",") (lazyP (fun _ => jsonP n))))
                         consArray)
                   [pureP (JSON_ARRAY [])] in
      trimP n (betweenP (charP "[") (charP "]") p)
  end
with objectP (fuel : nat) : Parser JsonValue :=
  match fuel with
  | O => fun _ => OutOfFuel
  | S n =>
      let itemP := andP (escapeStrP n)
                        (rightP (charP ":") (lazyP (fun _ => jsonP n)))
                        pair in
      let p := orP (andP itemP (manyP n (rightP (charP ",") itemP)) consObject)
                   [pureP (JSON_OBJECT [])] in
      trimP n (betweenP (charP "{") (charP "}") p)
  end.

(** ** Comparing results, and main *)

(** [operator==] of [std::list]. *)
Fixpoint list_eqb {A : Type} (eqb : A -> A -> bool) (xs ys : list A) : bool :=
  match xs, ys with
  | [], [] => true
  | x :: xs', y :: ys' => eqb x y && list_eqb eqb xs' ys'
  | _, _ => false
  end.

(** [ParseResult::operator==]: the two results agree on [success] and on
    the member that is active; [state] takes no part. *)
Definition result_eqb {T : Type} (eqb : T -> T -> bool) (a b : ParseResult T) : bool :=
  match a, b with
  | Success x _, Success y _ => eqb x y
  | Failure _ e, Failure _ e' => list_eqb String.eqb e e'
  | _, _ => false
  end.

(** [r.result]: a failed result holds no [result]; reading it reads the
    member of the union that is not the active one. *)
Definition resultOf {T : Type} (r : ParseResult T) : outcome T :=
  match r with
  | Success v _ => Returns v
  | Failure _ _ => Fault
  end.

(** [assert(parse(p, str).result == x)]: a failed assertion ends the
    program without a result. *)
Definition assertParse {T : Type} (eqb : T -> T -> bool) (p : Parser T)
  (str : string) (x : T) : outcome unit :=
  r <- parse p str ;;
  v <- resultOf r ;;
  if eqb v x then Returns tt else Fault.

(** [main]: the eight assertions, then the [return 0] that the end of
    [main] stands for.  The last text is [{"xyz": 2, "abc": 1}]. *)
Definition main (fuel : nat) : outcome Z :=
  a1 <- assertParse Ascii.eqb idP "a" "a"%char ;;
  a2 <- assertParse (list_eqb Ascii.eqb) (someP fuel (oneOfP "a")) "aaa"
          ["a"; "a"; "a"]%char ;;
  a3 <- assertParse Z.eqb (intP fuel) "-25" (-25)%Z ;;
  a4 <- assertParse PrimFloat.eqb (doubleP fuel) "12.25" 12.25%float ;;
  a5 <- assertParse json_eqb (jsonP fuel) "null" JSON_NULL ;;
  a6 <- assertParse json_eqb (jsonP fuel) "true" (JSON_BOOL true) ;;
  a7 <- assertParse json_eqb (jsonP fuel) "[1, 2]"
          (JSON_ARRAY [JSON_NUM 1; JSON_NUM 2]) ;;
  a8 <- assertParse json_eqb (jsonP fuel)
          (String "{" (String quote ("xyz" ++ String quote (": 2, "
             ++ String quote ("abc" ++ String quote ": 1}")))))
          (JSON_OBJECT [("abc", JSON_NUM 1); ("xyz", JSON_NUM 2)]) ;;
  Returns 0%Z.

(** * Vocabulary of the statements *)

(** The state [idP] hands on after it has read one character. *)
Definition advance (s : ParseState) : ParseState :=
  mkState (u64 (pos s + 1)) (input s).

Definition fails_at {T : Type} (p : Parser T) (s : ParseState) : Prop :=
  exists st e, p s = Returns (Failure st e).

Definition succeeds_at {T : Type} (p : Parser T) (s : ParseState) : Prop :=
  exists v st, p s = Returns (Success v st).

(** [Chain p s vs s']: from [s], [p] succeeds with the values [vs] one
    after the other, each time from the state the last success left, and
    then fails at [s']. *)
Inductive Chain {T : Type} (p : Parser T)
  : ParseState -> list T -> ParseState -> Prop :=
| Chain_stop (s st : ParseState) (e : list string) :
    p s = Returns (Failure st e) -> Chain p s [] s
| Chain_step (s s1 s' : ParseState) (v : T) (vs : list T) :
    p s = Returns (Success v s1) -> Chain p s1 vs s' -> Chain p s (v :: vs) s'.

(** A state whose position lies inside its input. *)
Definition inBounds (s : ParseState) : Prop := pos s <= size (input s).

(** A state as the program can build one: the position lies inside the
    input, and the input, a [std::string], is shorter than [2^64]. *)
Definition wellFormed (s : ParseState) : Prop :=
  inBounds s /\ size (input s) < 2 ^ 64.

Definition remaining (s : ParseState) : nat :=
  N.to_nat (size (input s) - pos s).

(** [keepsBounds p]: from a state inside its input, every result of [p]
    carries a state inside the same input. *)
Definition keepsBounds {T : Type} (p : Parser T) : Prop :=
  forall s r, inBounds s -> p s = Returns r ->
  inBounds (state_of r) /\ input (state_of r) = input s.

(** The parsers built from the engine's primitives and combinators.
    [E_cut] is a recursion that reached its bound: a call with no result. *)
Inductive Engine : forall T : Type, Parser T -> Prop :=
| E_idP : Engine ascii idP
| E_eofP : Engine bool eofP
| E_predP (f : ascii -> bool) : Engine ascii (predP f)
| E_stringP (str : string) : Engine string (stringP str)
| E_pureP (T : Type) (x : T) : Engine T (pureP x)
| E_mapP (A B : Type) (p : Parser A) (f : A -> B) :
    Engine A p -> Engine B (mapP p f)
| E_orP (T : Type) (C : RawAssignable T) (p q : Parser T) (qs : list (Parser T)) :
    Engine T p -> Engine T (orP q qs) -> Engine T (orP p (q :: qs))
| E_andP (A B C : Type) (pa : Parser A) (pb : Parser B) (f : A -> B -> C) :
    Engine A pa -> Engine B pb -> Engine C (andP pa pb f)
| E_manyP (T : Type) (fuel : nat) (p : Parser T) :
    Engine T p -> Engine (list T) (manyP fuel p)
| E_lazyP (T : Type) (f : unit -> Parser T) :
    Engine T (f tt) -> Engine T (lazyP f)
| E_cut (T : Type) : Engine T (fun _ => OutOfFuel).

(** The parsers of the engine in which no call copies a result that a
    copy breaks: [stringP] on a literal of at most one character, which
    has no failed inner call to hand on, and [orP] at a result type that
    a copy leaves intact. *)
Inductive CopyFree : forall T : Type, Parser T -> Prop :=
| F_idP : CopyFree ascii idP
| F_eofP : CopyFree bool eofP
| F_predP (f : ascii -> bool) : CopyFree ascii (predP f)
| F_stringP0 : CopyFree string (stringP "")
| F_stringP1 (c : ascii) : CopyFree string (stringP (String c ""))
| F_pureP (T : Type) (x : T) : CopyFree T (pureP x)
| F_mapP (A B : Type) (p : Parser A) (f : A -> B) :
    CopyFree A p -> CopyFree B (mapP p f)
| F_orP (T : Type) (C : RawAssignable T) (p q : Parser T) (qs : list (Parser T)) :
    rawAssign T = true ->
    CopyFree T p -> CopyFree T (orP q qs) -> CopyFree T (orP p (q :: qs))
| F_andP (A B C : Type) (pa : Parser A) (pb : Parser B) (f : A -> B -> C) :
    CopyFree A pa -> CopyFree B pb -> CopyFree C (andP pa pb f)
| F_manyP (T : Type) (fuel : nat) (p : Parser T) :
    CopyFree T p -> CopyFree (list T) (manyP fuel p)
| F_lazyP (T : Type) (f : unit -> Parser T) :
    CopyFree T (f tt) -> CopyFree T (lazyP f)
| F_cut (T : Type) : CopyFree T (fun _ => OutOfFuel).

Ltac step_in H :=
  match type of H with
  | context [bind ?m _] =>
      let E := fresh "E" in
      destruct m as [[? ?|? ?]| |] eqn:E; simpl in H; try discriminate
  end.

(** In [H], a copy that has returned: the result type is one that a
    copy leaves intact. *)
Ltac copied H :=
  unfold copy in H;
  match type of H with
  | context [if rawAssign ?T then _ else _] =>
      let A := fresh "Hcopy" in
      destruct (rawAssign T) eqn:A; [|discriminate H]
  | _ => idtac
  end.

(** [splits s pre rest]: the input of [s] is [pre ++ rest] and [s] stands
    between the two. *)
Definition splits (s : ParseState) (pre rest : string) : Prop :=
  input s = pre ++ rest /\ pos s = size pre.

Definition allDigits (ds : string) : Prop :=
  Forall (fun c => isDigit c = true) (list_ascii_of_string ds).

(** What ends a run of digits: the end of the input or another character. *)
Definition noDigitAhead (rest : string) : Prop :=
  match rest with
  | EmptyString => True
  | String c _ => isDigit c = false
  end.

Definition digitsOf (ds : string) : list Z :=
  map digitValue (list_ascii_of_string ds).

(** [refines p q]: whatever [p] returns, [q] returns too. *)
Definition refines {T : Type} (p q : Parser T) : Prop :=
  forall s r, p s = Returns r -> q s = Returns r.

Definition keyLt {V : Type} (a b : string * V) : Prop :=
  String_as_OT.lt (fst a) (fst b).

(** The entries stand in strictly increasing key order. *)
Definition sortedMap {V : Type} (m : smap V) : Prop := Sorted keyLt m.

(** [itemP], the local parser of [objectP] for one ["key" : value] pair. *)
Definition itemP (n : nat) : Parser (string * JsonValue) :=
  andP (escapeStrP n) (rightP (charP ":") (lazyP (fun _ => jsonP n))) pair.

(** The pairs [objectP] has read between the braces, in input order. *)
Definition readsItems (n : nat) (s1 s2 : ParseState)
  (items : list (string * JsonValue)) : Prop :=
  (items = [] /\ s2 = s1)
  \/ exists x xs sx,
       items = x :: xs /\ itemP n s1 = Returns (Success x sx)
       /\ Chain (rightP (charP ",") (itemP n)) sx xs s2.

(** [str] between two double quotes. *)
Definition quoted (str : string) : string :=
  String quote (str ++ String quote "").

(** The predicate [oneOfP] builds for [space]. *)
Definition isSpace (c : ascii) : bool :=
  fold_left (fun t x => t || Ascii.eqb c x)
            (list_ascii_of_string (String " " (String "010" (String "009" ""))))
            false.

Definition ahead (s : ParseState) (c : ascii) : Prop :=
  at_ (input s) (pos s) = Some c.

Definition allOf (f : ascii -> bool) (cs : string) : Prop :=
  Forall (fun c => f c = true) (list_ascii_of_string cs).

(** What ends a run of [f]-characters. *)
Definition noneAhead (f : ascii -> bool) (rest : string) : Prop :=
  match rest with
  | EmptyString => True
  | String c _ => f c = false
  end.

Definition unexpect (c : ascii) : list string := ["unexpect " ++ String c ""].

(** The characters a JSON value can start with, white space apart. *)
Definition startsValue (c : ascii) : bool :=
  Ascii.eqb "n" c || Ascii.eqb "t" c || Ascii.eqb "f" c || Ascii.eqb "-" c
  || isDigit c || Ascii.eqb quote c || Ascii.eqb "[" c || Ascii.eqb "{" c.

(** [Steps p s vs s']: from [s], [p] succeeds with the values [vs] one
    after the other and leaves the state [s']. *)
Inductive Steps {T : Type} (p : Parser T)
  : ParseState -> list T -> ParseState -> Prop :=
| Steps_nil (s : ParseState) : Steps p s [] s
| Steps_cons (s s1 s' : ParseState) (v : T) (vs : list T) :
    p s = Returns (Success v s1) -> Steps p s1 vs s' -> Steps p s (v :: vs) s'.

(** The state [s] over the input with [x] appended. *)
Definition ext (x : string) (s : ParseState) : ParseState :=
  mkState (pos s) (input s ++ x).

Definition extR {T : Type} (x : string) (r : ParseResult T) : ParseResult T :=
  match r with
  | Success v st => Success v (ext x st)
  | Failure st e => Failure (ext x st) e
  end.

Definition extO {T : Type} (x : string) (o : outcome (ParseResult T))
  : outcome (ParseResult T) :=
  match o with
  | Returns r => Returns (extR x r)
  | Fault => Fault
  | OutOfFuel => OutOfFuel
  end.

(** [Stable p s]: the run of [p] from [s] is the same whatever text is
    appended to the input. *)
Definition Stable {T : Type} (p : Parser T) (s : ParseState) : Prop :=
  forall x, p (ext x s) = extO x (p s).

Definition notAtEnd (s : ParseState) : Prop := exists c, ahead s c.

(** A parser that reads one character when it succeeds and looks at
    nothing else. *)
Definition oneChar {T : Type} (p : Parser T) : Prop :=
  (forall s c, ahead s c -> Stable p s)
  /\ (forall s v s',
        p s = Returns (Success v s') -> s' = advance s /\ notAtEnd s).

(** [accepts F s]: at some recursion bound, [F] succeeds from [s]. *)
Definition accepts {T : Type} (F : nat -> Parser T) (s : ParseState) : Prop :=
  exists n v s', F n s = Returns (Success v s').

Definition fractionP (n : nat) : Parser float :=
  rightP (charP ".") (mapP (someP n digitP) fractionOf).

Definition nullCore : Parser JsonValue :=
  mapP (stringP "null") (fun _ => JSON_NULL).

Definition boolCore : Parser JsonValue :=
  orP (mapP (stringP "true") (fun _ => JSON_BOOL true))
      [mapP (stringP "false") (fun _ => JSON_BOOL false)].

Definition notQuote (c : ascii) : bool := negb (Ascii.eqb c quote).

(** One character of a string literal, escaped or not. *)
Definition strItem : Parser ascii :=
  orP (rightP (charP "\") escapeP) [predP notQuote].

Definition strCore (n : nat) : Parser string :=
  betweenP (charP quote) (charP quote)
           (mapP (manyP n strItem) string_of_list_ascii).

Definition numCore (n : nat) : Parser JsonValue := mapP (doubleP n) JSON_NUM.

(** What [arrayP] and [objectP] put between the white space. *)
Definition arrCore (n : nat) : Parser JsonValue :=
  betweenP (charP "[") (charP "]")
    (orP (andP (lazyP (fun _ => jsonP n))
               (manyP n (rightP (charP ",") (lazyP (fun _ => jsonP n))))
               consArray)
         [pureP (JSON_ARRAY [])]).

Definition objCore (n : nat) : Parser JsonValue :=
  betweenP (charP "{") (charP "}")
    (orP (andP (itemP n) (manyP n (rightP (charP ",") (itemP n))) consObject)
         [pureP (JSON_OBJECT [])]).

(** A parser that rejects the character [c] on sight. *)
Definition rejectsChar {T : Type} (p : Parser T) (c : ascii) : Prop :=
  forall s, ahead s c -> p s = Returns (Failure (advance s) (unexpect c)).

(** The alternative a first character selects. *)
Definition kindOf (c : ascii) : nat :=
  if Ascii.eqb "n" c then 0
  else if Ascii.eqb "t" c || Ascii.eqb "f" c then 1
  else if Ascii.eqb "-" c || isDigit c then 2
  else if Ascii.eqb quote c then 3
  else if Ascii.eqb "[" c then 4
  else if Ascii.eqb "{" c then 5
  else 6.

(** The [i]-th alternative of [jsonP (S n)], and the bound its white
    space is read with. *)
Definition branchP (i n : nat) : Parser JsonValue :=
  match i with
  | 0%nat => nullP n
  | 1%nat => boolP n
  | 2%nat => numP n
  | 3%nat => strP n
  | 4%nat => lazyP (fun _ => arrayP n)
  | _ => lazyP (fun _ => objectP n)
  end.

Definition spFuel (i n : nat) : nat :=
  if (i <? 4)%nat then n else Nat.pred n.

(** [jsonP n] is stable whenever it stops in front of a character other
    than ['.']. *)
Definition JStable (n : nat) : Prop :=
  forall s v s' d,
    jsonP n s = Returns (Success v s') -> ahead s' d -> Ascii.eqb "." d = false ->
    Stable (jsonP n) s.

(** ** Vocabulary of the further properties *)

(** [forward p]: from a well-formed state, whatever [p] returns carries a
    well-formed state that is not before the one [p] started from. *)
Definition forward {T : Type} (p : Parser T) : Prop :=
  forall s r, wellFormed s -> p s = Returns r ->
  wellFormed (state_of r) /\ pos s <= pos (state_of r).

(** The three failures of the primitives: [idP] at the end of the input,
    [eofP] before the end, [predP] after a character it has read. *)
Definition failureShape (st : ParseState) (e : list string) : Prop :=
  (e = ["end of file"] /\ pos st = size (input st))
  \/ (e = ["expect end of file"] /\ pos st <> size (input st))
  \/ (exists s0 c, e = unexpect c /\ ahead s0 c /\ st = advance s0).

(** [explains p]: every failure of [p] is one of these three. *)
Definition explains {T : Type} (p : Parser T) : Prop :=
  forall s st e, p s = Returns (Failure st e) -> failureShape st e.

(** The number a run of decimal digits denotes. *)
Definition decimal (ds : string) : Z :=
  fold_left (fun n c => (n * 10 + (Z.of_N (N_of_ascii c) - 48))%Z)
            (list_ascii_of_string ds) 0%Z.

(** [reads p pre body rest v]: over the text [pre ++ body ++ rest], from
    the end of [pre], [p] succeeds with [v] and stops at the end of [body]. *)
Definition reads {T : Type} (p : Parser T) (pre body rest : string) (v : T) : Prop :=
  p (mkState (size pre) (pre ++ body ++ rest))
  = Returns (Success v (mkState (size (pre ++ body)) (pre ++ body ++ rest))).

(** The text a string literal denotes: a backslash and the character
    after it stand for [escapeChar] of that character. *)
Fixpoint unescape (body : string) : string :=
  match body with
  | EmptyString => EmptyString
  | String c rest =>
      if Ascii.eqb c "\" then
        match rest with
        | String d rest' => String (escapeChar d) (unescape rest')
        | EmptyString => String c EmptyString
        end
      else String c (unescape rest)
  end.

(** A text that can stand between the quotes: every double quote in it
    follows a backslash that escapes it, and no escape is left open. *)
Fixpoint closedBody (body : string) : bool :=
  match body with
  | EmptyString => true
  | String c rest =>
      if Ascii.eqb c "\" then
        match rest with
        | String _ rest' => closedBody rest'
        | EmptyString => false
        end
      else negb (Ascii.eqb c quote) && closedBody rest
  end.

(** The shape [arrayP] and [objectP] share: between [o] and [cl], either
    one [q] and any number of further [q], each after a comma, or nothing. *)
Definition bracketed {T R : Type} {C : RawAssignable R} (q : Parser T) (o cl : ascii)
  (f : T -> list T -> R) (e : R) (m : nat) : Parser R :=
  betweenP (charP o) (charP cl)
    (orP (andP q (manyP m (rightP (charP ",") q)) f) [pureP e]).

(** The [type] field of a value, as the number of its [JsonType]. *)
Definition typeOf (v : JsonValue) : nat :=
  match v with
  | JSON_NULL => 0
  | JSON_BOOL _ => 1
  | JSON_NUM _ => 2
  | JSON_STRING _ => 3
  | JSON_ARRAY _ => 4
  | JSON_OBJECT _ => 5
  end.

(** The values [arrayP] has read between the brackets, in input order. *)
Definition readsElements (n : nat) (s1 s2 : ParseState) (items : list JsonValue)
  : Prop :=
  (items = [] /\ s2 = s1)
  \/ exists x xs sx,
       items = x :: xs /\ jsonP n s1 = Returns (Success x sx)
       /\ Chain (rightP (charP ",") (lazyP (fun _ => jsonP n))) sx xs s2.

(** A parser that answers the end of the input with ["end of file"]. *)
Definition rejectsEnd {T : Type} (p : Parser T) : Prop :=
  forall s, pos s = size (input s) -> p s = Returns (Failure s ["end of file"]).

(** A value that holds no number, at any depth. *)
Fixpoint numberFree (v : JsonValue) : bool :=
  match v with
  | JSON_NUM _ => false
  | JSON_ARRAY xs => forallb numberFree xs
  | JSON_OBJECT m => forallb (fun kv => numberFree (snd kv)) m
  | _ => true
  end.

(** What ends a number: the end of the input, or a character that is
    neither a digit nor the decimal point. *)
Definition endsNumber (rest : string) : Prop :=
  match rest with
  | EmptyString => True
  | String c _ => isDigit c = false /\ Ascii.eqb "." c = false
  end.

(** [faultFree p]: from a well-formed state, a call of [p] does not end
    in a [Fault]. *)
Definition faultFree {T : Type} (p : Parser T) : Prop :=
  forall s, wellFormed s -> p s <> Fault.



(** ** The texts of the JSON grammar *)

(** The grammar of the specification, rule by rule, as a relation
    between a text and the value it denotes.  [NumberText] is [decimal]:
    an [integer], a run of digits with or without a minus sign, and
    optionally a point and a second run of digits. *)
Inductive NumberText : string -> float -> Prop :=
| N_natural (d : ascii) (ds : string) :
    allDigits (String d ds) ->
    NumberText (String d ds) (double_of_int (natOf (digitsOf (String d ds))))
| N_negative (d : ascii) (ds : string) :
    allDigits (String d ds) ->
    NumberText (String "-" (String d ds))
               (double_of_int (negate (natOf (digitsOf (String d ds)))))
| N_fraction (d1 : ascii) (ds1 : string) (d2 : ascii) (ds2 : string) :
    allDigits (String d1 ds1) -> allDigits (String d2 ds2) ->
    NumberText (String d1 ds1 ++ String "." (String d2 ds2))
               (PrimFloat.add (double_of_int (natOf (digitsOf (String d1 ds1))))
                              (fractionOf (digitsOf (String d2 ds2))))
| N_negative_fraction (d1 : ascii) (ds1 : string) (d2 : ascii) (ds2 : string) :
    allDigits (String d1 ds1) -> allDigits (String d2 ds2) ->
    NumberText (String "-" (String d1 ds1 ++ String "." (String d2 ds2)))
               (PrimFloat.add
                  (double_of_int (negate (natOf (digitsOf (String d1 ds1)))))
                  (fractionOf (digitsOf (String d2 ds2)))).

(** [JsonText] is [json-value]: one of the six rules, between two runs
    of white space.  [CoreText] is what stands between them: a keyword, a
    number, a string literal, or the brackets of an array or an object
    with nothing between them or with values, or pairs, that commas
    separate.  A pair is a string literal between white space, a colon
    and a value. *)
Inductive JsonText : string -> JsonValue -> Prop :=
| J_trim (ws1 core ws2 : string) (v : JsonValue) :
    allOf isSpace ws1 -> allOf isSpace ws2 -> CoreText core v ->
    JsonText (ws1 ++ core ++ ws2) v
with CoreText : string -> JsonValue -> Prop :=
| C_null : CoreText "null" JSON_NULL
| C_true : CoreText "true" (JSON_BOOL true)
| C_false : CoreText "false" (JSON_BOOL false)
| C_number (w : string) (x : float) :
    NumberText w x -> CoreText w (JSON_NUM x)
| C_string (body : string) :
    closedBody body = true -> CoreText (quoted body) (JSON_STRING (unescape body))
| C_array_empty : CoreText "[]" (JSON_ARRAY [])
| C_array (w : string) (vs : list JsonValue) :
    ElemsText w vs -> CoreText (String "[" (w ++ "]")) (JSON_ARRAY vs)
| C_object_empty : CoreText "{}" (JSON_OBJECT [])
| C_object (w : string) (kvs : list (string * JsonValue)) :
    PairsText w kvs -> CoreText (String "{" (w ++ "}")) (JSON_OBJECT (mapOf kvs))
with ElemsText : string -> list JsonValue -> Prop :=
| L_last (w : string) (v : JsonValue) :
    JsonText w v -> ElemsText w [v]
| L_more (w ws : string) (v : JsonValue) (vs : list JsonValue) :
    JsonText w v -> ElemsText ws vs -> ElemsText (w ++ String "," ws) (v :: vs)
with PairsText : string -> list (string * JsonValue) -> Prop :=
| P_last (ws1 body ws2 w : string) (v : JsonValue) :
    allOf isSpace ws1 -> allOf isSpace ws2 -> closedBody body = true ->
    JsonText w v ->
    PairsText ((ws1 ++ quoted body ++ ws2) ++ String ":" w) [(unescape body, v)]
| P_more (ws1 body ws2 w ps : string) (v : JsonValue)
    (kvs : list (string * JsonValue)) :
    allOf isSpace ws1 -> allOf isSpace ws2 -> closedBody body = true ->
    JsonText w v -> PairsText ps kvs ->
    PairsText ((ws1 ++ quoted body ++ ws2) ++ String ":" (w ++ String "," ps))
              ((unescape body, v) :: kvs).

Scheme JsonText_mut := Minimality for JsonText Sort Prop
  with CoreText_mut := Minimality for CoreText Sort Prop
  with ElemsText_mut := Minimality for ElemsText Sort Prop
  with PairsText_mut := Minimality for PairsText Sort Prop.

Combined Scheme JsonText_mutual
  from JsonText_mut, CoreText_mut, ElemsText_mut, PairsText_mut.

(** [ReadsItem q w v]: where the text [w] is followed by the end of the
    input or by a character that is no white space, no digit and no
    point, [q] reads [w] as [v], at every recursion bound from some bound
    on. *)
Definition ReadsItem {T : Type} (q : nat -> Parser T) (w : string) (v : T) : Prop :=
  forall pre rest,
    noneAhead isSpace rest -> endsNumber rest -> size (pre ++ w ++ rest) < 2 ^ 64 ->
    exists N, forall n, (N <= n)%nat -> reads (q n) pre w rest v.

(** [ReadsList q cl w vs]: in front of the closing bracket [cl], [q]
    reads from the text [w] the values [vs], one and then the others,
    each after a comma, and stops at the bracket. *)
Definition ReadsList {T : Type} (q : nat -> Parser T) (cl : ascii) (w : string)
  (vs : list T) : Prop :=
  forall pre rest,
    size (pre ++ w ++ String cl rest) < 2 ^ 64 ->
    exists N, forall n, (N <= n)%nat ->
    forall s, splits s pre (w ++ String cl rest) ->
    exists x xs sx s2,
      vs = x :: xs /\ (List.length xs < N)%nat
      /\ q n s = Returns (Success x sx)
      /\ Chain (rightP (charP ",") (q n)) sx xs s2
      /\ splits s2 (pre ++ w) (String cl rest) /\ input s2 = input s.

(** The same for what stands between the white space around a value. *)
Definition ReadsCore (core : string) (v : JsonValue) : Prop :=
  forall pre ws1 ws2 rest,
    allOf isSpace ws1 -> allOf isSpace ws2 ->
    noneAhead isSpace rest -> endsNumber rest ->
    size (pre ++ (ws1 ++ core ++ ws2) ++ rest) < 2 ^ 64 ->
    exists N, forall n, (N <= n)%nat ->
    reads (jsonP n) pre (ws1 ++ core ++ ws2) rest v.

(** * Properties *)

(** ** Strings and positions *)

Lemma get_some (str : string) (n : nat) :
  (n < String.length str)%nat -> exists c, String.get n str = Some c.
Proof.
  revert n. induction str as [|a str IH]; intros n Hn; simpl in *.
  - lia.
  - destruct n as [|n]; [now exists a|]. apply IH. lia.
Qed.

Lemma get_none (str : string) (n : nat) :
  (String.length str <= n)%nat -> String.get n str = None.
Proof.
  revert n. induction str as [|a str IH]; intros n Hn; simpl in *.
  - reflexivity.
  - destruct n as [|n]; [lia|]. apply IH. lia.
Qed.

Lemma at_some (str : string) (i : N) :
  i < size str -> exists c, at_ str i = Some c.
Proof.
  intros Hi. apply get_some. unfold size in Hi. lia.
Qed.

Lemma at_inside (str : string) (i : N) (c : ascii) :
  at_ str i = Some c -> i < size str.
Proof.
  unfold at_, size. intros H.
  destruct (Nat.lt_ge_cases (N.to_nat i) (String.length str)) as [Hlt|Hge]; [lia|].
  rewrite (get_none _ _ Hge) in H. discriminate.
Qed.

Lemma u64_le (n : N) : u64 n <= n.
Proof. unfold u64. apply N.Div0.mod_le. Qed.

Lemma u64_small (n : N) : n < 2 ^ 64 -> u64 n = n.
Proof. intros H. unfold u64. now apply N.mod_small. Qed.

(** ** idP and predP *)

Lemma idP_read (s : ParseState) (c : ascii) :
  at_ (input s) (pos s) = Some c ->
  idP s = Returns (Success c (advance s)).
Proof.
  intros Hc. unfold idP. pose proof (at_inside _ _ _ Hc) as Hlt.
  destruct (N.eqb_spec (pos s) (size (input s))) as [E|_]; [lia|].
  now rewrite Hc.
Qed.

Lemma idP_eof (s : ParseState) :
  pos s = size (input s) -> idP s = Returns (Failure s ["end of file"]).
Proof. intros E. unfold idP. now rewrite E, N.eqb_refl. Qed.

Lemma idP_fault (s : ParseState) :
  size (input s) < pos s -> idP s = Fault.
Proof.
  intros H. unfold idP.
  destruct (N.eqb_spec (pos s) (size (input s))) as [E|_]; [lia|].
  unfold at_. rewrite get_none; [reflexivity|]. unfold size in H. lia.
Qed.

Lemma predP_accept (f : ascii -> bool) (s : ParseState) (c : ascii) :
  at_ (input s) (pos s) = Some c -> f c = true ->
  predP f s = Returns (Success c (advance s)).
Proof.
  intros Hc Hf. unfold predP. rewrite (idP_read _ _ Hc). simpl. now rewrite Hf.
Qed.

Lemma predP_reject (f : ascii -> bool) (s : ParseState) (c : ascii) :
  at_ (input s) (pos s) = Some c -> f c = false ->
  predP f s = Returns (Failure (advance s) ["unexpect " ++ String c ""]).
Proof.
  intros Hc Hf. unfold predP. rewrite (idP_read _ _ Hc). simpl. now rewrite Hf.
Qed.

Lemma predP_eof (f : ascii -> bool) (s : ParseState) :
  pos s = size (input s) -> predP f s = Returns (Failure s ["end of file"]).
Proof. intros E. unfold predP. now rewrite (idP_eof _ E). Qed.

(** C1, as the claim states it, does not hold: [predP] hands back the
    state of [idP]'s result, which lies behind the rejected character. *)
Lemma predP_failure_state_not_rewound :
  ~ (forall (s : ParseState) (f : ascii -> bool) (c : ascii),
        pos s < size (input s) -> at_ (input s) (pos s) = Some c -> f c = false ->
        exists e, predP f s = Returns (Failure s e)).
Proof.
  intros H.
  destruct (H (initial "x") isDigit "x"%char) as [e He];
    [reflexivity | reflexivity | reflexivity |].
  vm_compute in He. discriminate.
Qed.

(** C1 (amended): for every state [s] with [pos s < size (input s)] and
    every predicate [f] that the character at [s] fails, [predP f] returns
    a Failure whose state is the one after the character was read: the
    same input at position [pos s + 1] (computed in 64 bits, which is
    [pos s + 1] itself for every input shorter than [2^64]). *)
Theorem predP_failure_state (s : ParseState) (f : ascii -> bool) (c : ascii)
  (Hpos : pos s < size (input s))
  (Hc : at_ (input s) (pos s) = Some c)
  (Hf : f c = false) :
  (exists e, predP f s = Returns (Failure (advance s) e))
  /\ input (advance s) = input s
  /\ pos (advance s) = u64 (pos s + 1)
  /\ (size (input s) < 2 ^ 64 -> pos (advance s) = pos s + 1).
Proof.
  split; [eexists; exact (predP_reject f s c Hc Hf)|].
  repeat split. intros Hsz. simpl. apply u64_small. lia.
Qed.

Lemma predP_failure_state_witness :
  (exists e, predP isDigit (initial "x") = Returns (Failure (advance (initial "x")) e))
  /\ input (advance (initial "x")) = "x"
  /\ pos (advance (initial "x")) = u64 1
  /\ (size "x" < 2 ^ 64 -> pos (advance (initial "x")) = 1).
Proof.
  apply (predP_failure_state (initial "x") isDigit "x"%char);
    reflexivity.
Defined.

(** C7, as the claim states it, does not hold: the label starts with
    the word [unexpect]. *)
Lemma predP_label_not_unexpected :
  ~ (forall (s : ParseState) (f : ascii -> bool) (c : ascii),
        at_ (input s) (pos s) = Some c -> f c = false ->
        exists st, predP f s = Returns (Failure st ["unexpected " ++ String c ""])).
Proof.
  intros H.
  destruct (H (initial "x") isDigit "x"%char) as [st Hst];
    [reflexivity | reflexivity |].
  vm_compute in Hst. discriminate.
Qed.

(** C7 (amended): for every state [s] and predicate [f], when the
    character [c] at [s] fails [f], the Failure returned by [predP f]
    carries exactly one expectation label, the word [unexpect], a space
    and the offending character. *)
Theorem predP_failure_label (s : ParseState) (f : ascii -> bool) (c : ascii)
  (Hc : at_ (input s) (pos s) = Some c)
  (Hf : f c = false) :
  exists st, predP f s = Returns (Failure st ["unexpect " ++ String c ""]).
Proof. eexists. exact (predP_reject f s c Hc Hf). Qed.

Lemma predP_failure_label_witness :
  exists st, predP isDigit (initial "x") = Returns (Failure st ["unexpect x"]).
Proof.
  apply (predP_failure_label (initial "x") isDigit "x"%char); reflexivity.
Defined.

(** ** orP *)

Lemma copy_success {T : Type} {C : RawAssignable T} (v : T) (st : ParseState) :
  rawAssign T = true -> copy (Success v st) = Returns (Success v st).
Proof. intros H. unfold copy. now rewrite H. Qed.

Lemma copy_returns {T : Type} {C : RawAssignable T} (r r' : ParseResult T) :
  copy r = Returns r' ->
  r' = r /\ rawAssign T = true /\ exists v st, r = Success v st.
Proof.
  destruct r as [v st|st e]; [|discriminate]. unfold copy.
  destruct (rawAssign T); [|discriminate]. intros [= <-].
  repeat split. now exists v, st.
Qed.

Lemma orP_cons_failure {T : Type} {C : RawAssignable T} (p q : Parser T)
  (qs : list (Parser T)) (s : ParseState) :
  fails_at p s -> orP p (q :: qs) s = orP q qs s.
Proof. intros (st & e & H). simpl. now rewrite H. Qed.

Lemma orP_cons_copy {T : Type} {C : RawAssignable T} (p q : Parser T)
  (qs : list (Parser T)) (s st : ParseState) (v : T) :
  p s = Returns (Success v st) -> orP p (q :: qs) s = copy (Success v st).
Proof. intros H. simpl. now rewrite H. Qed.

Lemma orP_cons_success {T : Type} {C : RawAssignable T} (p : Parser T)
  (ps : list (Parser T)) (s : ParseState) :
  rawAssign T = true -> succeeds_at p s -> orP p ps s = p s.
Proof.
  intros HC (v & st & H). destruct ps as [|q qs]; [reflexivity|].
  rewrite (orP_cons_copy p q qs s st v H), H. now apply copy_success.
Qed.

(** The branch [orP] stops at, and what becomes of its result: the last
    branch hands its result on, a branch before the last has its
    successful result copied. *)
Lemma orP_choice {T : Type} {C : RawAssignable T} (ps : list (Parser T)) :
  forall (p : Parser T) (s : ParseState) (i : nat) (q : Parser T),
  nth_error (p :: ps) i = Some q ->
  (forall j b, (j < i)%nat -> nth_error (p :: ps) j = Some b -> fails_at b s) ->
  succeeds_at q s \/ i = List.length ps ->
  orP p ps s = if (i =? List.length ps)%nat || rawAssign T then q s else Fault.
Proof.
  induction ps as [|p' ps IH]; intros p s i q Hq Hbefore Hstop.
  - destruct i as [|i]; simpl in Hq.
    + now injection Hq as <-.
    + destruct i; discriminate.
  - destruct i as [|i].
    + injection Hq as <-. destruct Hstop as [(v & st & Hs)|Hl]; [|discriminate].
      rewrite (orP_cons_copy p p' ps s st v Hs), Hs. cbn [Nat.eqb orb length].
      reflexivity.
    + rewrite orP_cons_failure by (apply (Hbefore O); [lia|reflexivity]).
      rewrite (IH p' s i q); [reflexivity|exact Hq| |].
      * intros j b Hj Hb. apply (Hbefore (S j)); [lia|exact Hb].
      * destruct Hstop as [Hs|Hl]; [now left|right]. simpl in Hl. lia.
Qed.

(** C2: [orP p ps] runs its branches from left to right, each on the
    state [s] it was given, and stops at the first that succeeds; when
    all fail, its result is the failure of the last.  What the claim says
    of the result holds for the last branch, whose result is handed on,
    and for the result types that a copy leaves intact.  A branch before
    the last has its successful result copied: with [std::string]
    results, [orP(stringP("a"), stringP("b"))] on ["a"], whose first
    branch succeeds, ends without a result. *)
Theorem orP_ordered_choice :
  stringP "a" (initial "a") = Returns (Success "a" (mkState 1 "a"))
  /\ orP (stringP "a") [stringP "b"] (initial "a") = Fault
  /\ (forall (T : Type) (C : RawAssignable T) (p : Parser T) (ps : list (Parser T))
             (s : ParseState) (i : nat) (q : Parser T),
         nth_error (p :: ps) i = Some q ->
         (forall j b, (j < i)%nat -> nth_error (p :: ps) j = Some b -> fails_at b s) ->
         succeeds_at q s \/ i = List.length ps ->
         orP p ps s
         = if (i =? List.length ps)%nat || rawAssign T then q s else Fault)
  /\ orP (charP "a") [pureP "b"%char; fun _ => Fault] (initial "x")
     = Returns (Success "b"%char (initial "x")).
Proof.
  split; [reflexivity|]. split; [reflexivity|]. split; [|reflexivity].
  intros T C p ps s i q. apply orP_choice.
Qed.

(** ** manyP *)

Lemma manyP_of_chain {T : Type} (p : Parser T) (s s' : ParseState) (vs : list T) :
  Chain p s vs s' ->
  forall fuel, (List.length vs < fuel)%nat ->
  manyP fuel p s = Returns (Success vs s').
Proof.
  induction 1 as [s st e H | s s1 s' v vs H _ IH]; intros fuel Hfuel;
    (destruct fuel as [|fuel]; [simpl in Hfuel; lia|]); simpl; rewrite H; simpl.
  - reflexivity.
  - rewrite IH by (simpl in Hfuel; lia). reflexivity.
Qed.

Lemma manyP_returns_chain {T : Type} (p : Parser T) (fuel : nat) :
  forall s r, manyP fuel p s = Returns r ->
  exists vs s', r = Success vs s' /\ Chain p s vs s'.
Proof.
  induction fuel as [|fuel IH]; intros s r H; simpl in H; [discriminate|].
  destruct (p s) as [[v s1|st e]| |] eqn:Hp; simpl in H; try discriminate.
  - destruct (manyP fuel p s1) as [[vs s'|st e]| |] eqn:Hm; simpl in H;
      try discriminate.
    injection H as <-. destruct (IH _ _ Hm) as (vs' & s'' & E & Hc).
    injection E as <- <-. exists (v :: vs), s'. split; [reflexivity|].
    eapply Chain_step; eassumption.
  - injection H as <-. exists [], s. split; [reflexivity|].
    eapply Chain_stop; eassumption.
Qed.

Lemma Chain_deterministic {T : Type} (p : Parser T) (s s1 s2 : ParseState)
  (vs1 vs2 : list T) :
  Chain p s vs1 s1 -> Chain p s vs2 s2 -> vs1 = vs2 /\ s1 = s2.
Proof.
  intros H1. revert vs2 s2.
  induction H1 as [s st e H | s sa s' v vs H _ IH]; intros vs2 s2 H2.
  - inversion H2 as [? ? ? _ | ? ? ? ? ? H' _]; subst; [now split|congruence].
  - inversion H2 as [? ? ? H' | ? sb ? w ws H' Hc']; subst; [congruence|].
    assert (E : Success v sa = Success w sb) by congruence.
    injection E as <- <-. destruct (IH _ _ Hc') as [<- <-]. now split.
Qed.

Section Productive.
Context {T : Type} (p : Parser T).
Hypothesis returns : forall st, wellFormed st -> exists r, p st = Returns r.
Hypothesis consumes : forall st v st',
  wellFormed st -> p st = Returns (Success v st') ->
  wellFormed st' /\ (remaining st' < remaining st)%nat.

Lemma Chain_exists (n : nat) :
  forall s, wellFormed s -> (remaining s < n)%nat ->
  exists vs s', Chain p s vs s' /\ (List.length vs <= remaining s)%nat.
Proof.
  induction n as [|n IH]; intros s Hwf Hn; [lia|].
  destruct (returns s Hwf) as [[v s1|st e] Hr].
  - destruct (consumes _ _ _ Hwf Hr) as [Hwf1 Hlt].
    destruct (IH s1 Hwf1 ltac:(lia)) as (vs & s' & Hc & Hlen).
    exists (v :: vs), s'. split; [eapply Chain_step; eassumption|].
    simpl. lia.
  - exists [], s. split; [eapply Chain_stop; eassumption|]. simpl. lia.
Qed.
End Productive.

(** C3, as the claim states it, does not hold: on a parser that succeeds
    without reading anything the recursion of [manyP] never ends. *)
Lemma manyP_pureP_no_fuel (fuel : nat) (s : ParseState) :
  manyP fuel (pureP 0%Z) s = OutOfFuel.
Proof.
  revert s. induction fuel as [|fuel IH]; intros s; [reflexivity|].
  simpl. now rewrite IH.
Qed.

Lemma manyP_not_total :
  ~ (forall (p : Parser Z) (s : ParseState),
        exists fuel vs s', manyP fuel p s = Returns (Success vs s')).
Proof.
  intros H. destruct (H (pureP 0%Z) (initial "")) as (fuel & vs & s' & E).
  rewrite manyP_pureP_no_fuel in E. discriminate.
Qed.

(** C3 (amended): for every parser [p] that returns on every well-formed
    state and whose successes leave a well-formed state with less input
    remaining, and every well-formed state [s], [manyP p] returns
    Success (at every recursion bound above the remaining input, and
    never anything else): its value lists in order the values of the
    successive successful applications of [p], its state is the one at
    which [p] first fails, and when [p] fails at [s] itself the result is
    the empty list with the state [s]. *)
Theorem manyP_collects {T : Type} (p : Parser T) (s : ParseState)
  (Hret : forall st, wellFormed st -> exists r, p st = Returns r)
  (Hadv : forall st v st',
      wellFormed st -> p st = Returns (Success v st') ->
      wellFormed st' /\ (remaining st' < remaining st)%nat)
  (Hs : wellFormed s) :
  exists vs s',
    Chain p s vs s'
    /\ (forall fuel, (remaining s < fuel)%nat ->
          manyP fuel p s = Returns (Success vs s'))
    /\ (forall fuel r, manyP fuel p s = Returns r -> r = Success vs s')
    /\ (fails_at p s -> vs = [] /\ s' = s).
Proof.
  destruct (Chain_exists p Hret Hadv (S (remaining s)) s Hs ltac:(lia))
    as (vs & s' & Hc & Hlen).
  exists vs, s'. split; [exact Hc|]. split; [|split].
  - intros fuel Hfuel. apply manyP_of_chain; [exact Hc|lia].
  - intros fuel r Hr. destruct (manyP_returns_chain _ _ _ _ Hr) as (vs2 & s2 & -> & Hc2).
    destruct (Chain_deterministic _ _ _ _ _ _ Hc Hc2) as [<- <-]. reflexivity.
  - intros (st & e & Hf).
    apply (Chain_deterministic p s s' s vs []); [exact Hc|].
    eapply Chain_stop; eassumption.
Qed.

Lemma predP_success_inv (f : ascii -> bool) (s st : ParseState) (c : ascii) :
  predP f s = Returns (Success c st) ->
  at_ (input s) (pos s) = Some c /\ f c = true /\ st = advance s.
Proof.
  unfold predP, idP. destruct (pos s =? size (input s)); [discriminate|].
  destruct (at_ (input s) (pos s)) as [c'|]; [|discriminate]. simpl.
  destruct (f c') eqn:Hf; simpl; [|discriminate].
  intros H. injection H as <- <-. now repeat split.
Qed.

Lemma predP_returns (f : ascii -> bool) (s : ParseState) :
  inBounds s -> exists r, predP f s = Returns r.
Proof.
  intros Hs. unfold inBounds in Hs.
  destruct (N.eq_dec (pos s) (size (input s))) as [E|NE].
  - rewrite (predP_eof f s E). now eexists.
  - destruct (at_some (input s) (pos s)) as [c Hc]; [lia|].
    destruct (f c) eqn:Hf.
    + rewrite (predP_accept f s c Hc Hf). now eexists.
    + rewrite (predP_reject f s c Hc Hf). now eexists.
Qed.

Lemma advance_inBounds (s : ParseState) :
  pos s < size (input s) -> inBounds (advance s).
Proof.
  unfold inBounds, advance. simpl. intros H.
  pose proof (u64_le (pos s + 1)). lia.
Qed.

Lemma advance_remaining (s : ParseState) :
  pos s < size (input s) -> size (input s) < 2 ^ 64 ->
  (remaining (advance s) < remaining s)%nat.
Proof.
  unfold remaining, advance. simpl. intros H Hsz.
  rewrite u64_small by lia. lia.
Qed.

Lemma predP_consumes (f : ascii -> bool) (s st : ParseState) (c : ascii) :
  wellFormed s -> predP f s = Returns (Success c st) ->
  wellFormed st /\ (remaining st < remaining s)%nat.
Proof.
  intros [Hb Hsz] H. apply predP_success_inv in H as (Hc & _ & ->).
  apply at_inside in Hc. split; [split|].
  - now apply advance_inBounds.
  - exact Hsz.
  - now apply advance_remaining.
Qed.

Lemma manyP_collects_witness :
  exists vs s',
    Chain (charP "a") (initial "aab") vs s'
    /\ (forall fuel, (remaining (initial "aab") < fuel)%nat ->
          manyP fuel (charP "a") (initial "aab") = Returns (Success vs s'))
    /\ (forall fuel r, manyP fuel (charP "a") (initial "aab") = Returns r ->
          r = Success vs s')
    /\ (fails_at (charP "a") (initial "aab") -> vs = [] /\ s' = initial "aab").
Proof.
  apply (manyP_collects (charP "a") (initial "aab")).
  - intros st [Hb _]. now apply predP_returns.
  - intros st v st'. apply predP_consumes.
  - split; [unfold inBounds; simpl; lia | reflexivity].
Defined.

(** ** Positions stay inside the input *)

Lemma keeps_idP : keepsBounds idP.
Proof.
  intros s r Hs H. unfold idP in H.
  destruct (N.eqb_spec (pos s) (size (input s))) as [E|NE].
  - injection H as <-. now split.
  - destruct (at_ (input s) (pos s)) as [c|] eqn:Hc; [|discriminate].
    injection H as <-. split; [|reflexivity].
    apply advance_inBounds. now apply at_inside in Hc.
Qed.

Lemma keeps_eofP : keepsBounds eofP.
Proof.
  intros s r Hs H. unfold eofP in H.
  destruct (pos s =? size (input s)); injection H as <-; now split.
Qed.

Lemma keeps_predP (f : ascii -> bool) : keepsBounds (predP f).
Proof.
  intros s r Hs H. unfold predP in H. step_in H.
  - destruct (keeps_idP s _ Hs E) as [Hb Hi]. simpl in Hb, Hi.
    destruct (negb (f result)); injection H as <-; now split.
  - destruct (keeps_idP s _ Hs E) as [Hb Hi]. injection H as <-. now split.
Qed.

Lemma keeps_pureP {T : Type} (x : T) : keepsBounds (pureP x).
Proof. intros s r Hs H. injection H as <-. now split. Qed.

Lemma keeps_mapP {A B : Type} (p : Parser A) (f : A -> B) :
  keepsBounds p -> keepsBounds (mapP p f).
Proof.
  intros Hp s r Hs H. unfold mapP in H. step_in H;
    destruct (Hp s _ Hs E) as [Hb Hi]; injection H as <-; now split.
Qed.

Lemma keeps_orP {T : Type} {C : RawAssignable T} (p q : Parser T)
  (qs : list (Parser T)) :
  keepsBounds p -> keepsBounds (orP q qs) -> keepsBounds (orP p (q :: qs)).
Proof.
  intros Hp Hq s r Hs H. cbn [orP] in H. step_in H.
  - copied H. injection H as <-. exact (Hp s _ Hs E).
  - exact (Hq s r Hs H).
Qed.

Lemma keeps_andP {A B C : Type} (pa : Parser A) (pb : Parser B) (f : A -> B -> C) :
  keepsBounds pa -> keepsBounds pb -> keepsBounds (andP pa pb f).
Proof.
  intros Ha Hb s r Hs H. unfold andP in H. step_in H.
  - destruct (Ha s _ Hs E) as [Hb1 Hi1]. simpl in Hb1, Hi1. step_in H.
    + destruct (Hb _ _ Hb1 E0) as [Hb2 Hi2]. injection H as <-.
      simpl in *. split; congruence.
    + destruct (Hb _ _ Hb1 E0) as [Hb2 Hi2]. injection H as <-.
      simpl in *. split; congruence.
  - destruct (Ha s _ Hs E) as [Hb1 Hi1]. injection H as <-. now split.
Qed.

Lemma keeps_manyP {T : Type} (fuel : nat) (p : Parser T) :
  keepsBounds p -> keepsBounds (manyP fuel p).
Proof.
  intros Hp. induction fuel as [|fuel IH]; intros s r Hs H; simpl in H;
    [discriminate|].
  step_in H.
  - destruct (Hp s _ Hs E) as [Hb1 Hi1]. simpl in Hb1, Hi1. step_in H.
    destruct (IH _ _ Hb1 E0) as [Hb2 Hi2]. injection H as <-.
    simpl in *. split; congruence.
  - injection H as <-. now split.
Qed.

Lemma keeps_stringP (str : string) : keepsBounds (stringP str).
Proof.
  induction str as [|c str IH]; intros s r Hs H; simpl in H.
  - injection H as <-. now split.
  - step_in H.
    + destruct (keeps_predP _ s _ Hs E) as [Hb1 Hi1]. simpl in Hb1, Hi1.
      step_in H.
      destruct (IH _ _ Hb1 E0) as [Hb2 Hi2]. injection H as <-.
      simpl in *. split; congruence.
    + destruct (keeps_predP _ s _ Hs E) as [Hb1 Hi1]. injection H as <-.
      now split.
Qed.

Lemma Engine_keepsBounds (T : Type) (p : Parser T) :
  Engine T p -> keepsBounds p.
Proof.
  induction 1.
  - exact keeps_idP.
  - exact keeps_eofP.
  - apply keeps_predP.
  - apply keeps_stringP.
  - apply keeps_pureP.
  - now apply keeps_mapP.
  - now apply keeps_orP.
  - now apply keeps_andP.
  - now apply keeps_manyP.
  - assumption.
  - intros s r _ H. discriminate.
Qed.

(** The derived combinators and the grammars are built from the engine. *)
Lemma Engine_charP (c : ascii) : Engine ascii (charP c).
Proof. apply E_predP. Qed.

Lemma Engine_oneOfP (str : string) : Engine ascii (oneOfP str).
Proof. apply E_predP. Qed.

Lemma Engine_orP1 (T : Type) (C : RawAssignable T) (p : Parser T) :
  Engine T p -> Engine T (orP p []).
Proof. intros H. exact H. Qed.

Lemma Engine_leftP (A B : Type) (pa : Parser A) (pb : Parser B) :
  Engine A pa -> Engine B pb -> Engine A (leftP pa pb).
Proof. intros. now apply E_andP. Qed.

Lemma Engine_rightP (A B : Type) (pa : Parser A) (pb : Parser B) :
  Engine A pa -> Engine B pb -> Engine B (rightP pa pb).
Proof. intros. now apply E_andP. Qed.

Lemma Engine_someP (T : Type) (fuel : nat) (p : Parser T) :
  Engine T p -> Engine (list T) (someP fuel p).
Proof. intros. apply E_andP; [assumption|now apply E_manyP]. Qed.

Lemma Engine_betweenP (A B C : Type) (lp : Parser A) (rp : Parser B) (p : Parser C) :
  Engine A lp -> Engine B rp -> Engine C p -> Engine C (betweenP lp rp p).
Proof. intros. apply Engine_rightP; [assumption|now apply Engine_leftP]. Qed.

Lemma Engine_spaces (fuel : nat) : Engine (list ascii) (spaces fuel).
Proof. apply E_manyP, Engine_oneOfP. Qed.

Lemma Engine_trimP (T : Type) (fuel : nat) (p : Parser T) :
  Engine T p -> Engine T (trimP fuel p).
Proof.
  intros. apply Engine_rightP; [apply Engine_spaces|].
  apply Engine_leftP; [assumption|apply Engine_spaces].
Qed.

Lemma Engine_digitP : Engine Z digitP.
Proof. apply E_mapP, E_predP. Qed.

Lemma Engine_natP (fuel : nat) : Engine Z (natP fuel).
Proof. apply E_mapP, Engine_someP, Engine_digitP. Qed.

Lemma Engine_intP (fuel : nat) : Engine Z (intP fuel).
Proof.
  apply E_orP; [|apply Engine_natP].
  apply E_mapP, Engine_rightP; [apply Engine_charP|apply Engine_natP].
Qed.

Lemma Engine_doubleP (fuel : nat) : Engine float (doubleP fuel).
Proof.
  apply E_orP; [|apply E_mapP, Engine_intP].
  apply E_andP; [apply Engine_intP|].
  apply Engine_rightP; [apply Engine_charP|].
  apply E_mapP, Engine_someP, Engine_digitP.
Qed.

Lemma Engine_escapeStrP (fuel : nat) : Engine string (escapeStrP fuel).
Proof.
  apply Engine_trimP, Engine_betweenP; try apply Engine_charP.
  apply E_mapP, E_manyP, E_orP; [|apply E_predP].
  apply Engine_rightP; [apply Engine_charP|apply E_mapP, E_idP].
Qed.

Lemma Engine_json (fuel : nat) :
  Engine JsonValue (jsonP fuel) /\ Engine JsonValue (arrayP fuel)
  /\ Engine JsonValue (objectP fuel).
Proof.
  induction fuel as [|n (IHj & IHa & IHo)].
  - repeat split; apply E_cut.
  - assert (Hlazy : Engine JsonValue (lazyP (fun _ => jsonP n)))
      by now apply E_lazyP.
    repeat split.
    + change (jsonP (S n)) with
        (orP (nullP n) [boolP n; numP n; strP n;
                        lazyP (fun _ => arrayP n); lazyP (fun _ => objectP n)]).
      apply E_orP; [apply Engine_trimP, E_mapP, E_stringP|].
      apply E_orP.
      { apply Engine_trimP, E_orP; apply E_mapP, E_stringP. }
      apply E_orP; [apply Engine_trimP, E_mapP, Engine_doubleP|].
      apply E_orP; [apply E_mapP, Engine_escapeStrP|].
      apply E_orP; now apply E_lazyP.
    + apply Engine_trimP, Engine_betweenP; try apply Engine_charP.
      apply E_orP; [|apply E_pureP].
      apply E_andP; [exact Hlazy|].
      apply E_manyP, Engine_rightP; [apply Engine_charP|exact Hlazy].
    + apply Engine_trimP, Engine_betweenP; try apply Engine_charP.
      assert (Hitem : Engine (string * JsonValue)
                (andP (escapeStrP n)
                      (rightP (charP ":") (lazyP (fun _ => jsonP n))) pair)).
      { apply E_andP; [apply Engine_escapeStrP|].
        apply Engine_rightP; [apply Engine_charP|exact Hlazy]. }
      apply E_orP; [|apply E_pureP].
      apply E_andP; [exact Hitem|].
      apply E_manyP, Engine_rightP; [apply Engine_charP|exact Hitem].
Qed.

(** C8: for every input and every parser built from the engine's
    primitives and combinators, run from the start of the input or from
    any state inside it, the state of every ParseResult (Success or
    Failure) is a position of the same input between [0] and its length. *)
Theorem engine_position_in_bounds (T : Type) (p : Parser T) (s : ParseState)
  (r : ParseResult T)
  (Hp : Engine T p) (Hs : inBounds s) (Hr : p s = Returns r) :
  0 <= pos (state_of r) <= size (input s) /\ input (state_of r) = input s.
Proof.
  destruct (Engine_keepsBounds T p Hp s r Hs Hr) as [Hb Hi].
  unfold inBounds in Hb. rewrite Hi in Hb. split; [lia|exact Hi].
Qed.

Lemma engine_position_in_bounds_witness :
  0 <= pos (mkState 1 "[1,]") <= size (input (initial "[1,]"))
  /\ input (mkState 1 "[1,]") = input (initial "[1,]").
Proof.
  apply (engine_position_in_bounds JsonValue (jsonP 10) (initial "[1,]")
           (Failure (mkState 1 "[1,]") ["unexpect ["])).
  - apply Engine_json.
  - unfold inBounds. simpl. lia.
  - vm_compute. reflexivity.
Defined.

(** ** Reading a known text *)

Lemma length_append (a b : string) :
  String.length (a ++ b) = (String.length a + String.length b)%nat.
Proof. induction a as [|c a IH]; simpl; [reflexivity|now rewrite IH]. Qed.

Lemma append_assoc (a b c : string) : (a ++ b) ++ c = a ++ (b ++ c).
Proof. induction a as [|x a IH]; simpl; [reflexivity|now rewrite IH]. Qed.

Lemma append_empty_r (a : string) : a ++ "" = a.
Proof. induction a as [|x a IH]; simpl; [reflexivity|now rewrite IH]. Qed.

Lemma get_append_head (pre rest : string) (c : ascii) :
  String.get (String.length pre) (pre ++ String c rest) = Some c.
Proof. induction pre as [|x pre IH]; simpl; [reflexivity|exact IH]. Qed.

Lemma splits_initial (str : string) : splits (initial str) "" str.
Proof. now split. Qed.

Lemma splits_at (s : ParseState) (pre rest : string) (c : ascii) :
  splits s pre (String c rest) -> at_ (input s) (pos s) = Some c.
Proof.
  intros [Hi Hp]. unfold at_, size in *. rewrite Hi, Hp, Nat2N.id.
  apply get_append_head.
Qed.

Lemma splits_eof (s : ParseState) (pre : string) :
  splits s pre "" -> pos s = size (input s).
Proof. intros [Hi Hp]. now rewrite Hi, Hp, append_empty_r. Qed.

Lemma splits_advance (s : ParseState) (pre rest : string) (c : ascii) :
  size (input s) < 2 ^ 64 ->
  splits s pre (String c rest) -> splits (advance s) (pre ++ String c "") rest.
Proof.
  intros Hsz [Hi Hp]. split; simpl.
  - now rewrite Hi, append_assoc.
  - assert (Hlt : pos s < size (input s)).
    { apply (at_inside _ _ c). now apply (splits_at s pre rest). }
    rewrite u64_small by lia. rewrite Hp. unfold size.
    rewrite length_append. simpl. lia.
Qed.

Lemma splits_inBounds (s : ParseState) (pre rest : string) :
  splits s pre rest -> inBounds s.
Proof.
  intros [Hi Hp]. unfold inBounds, size in *. rewrite Hi, Hp, length_append. lia.
Qed.

(** ** Digits *)

Lemma digitP_accept (s : ParseState) (c : ascii) :
  at_ (input s) (pos s) = Some c -> isDigit c = true ->
  digitP s = Returns (Success (digitValue c) (advance s)).
Proof.
  intros Hc Hd. unfold digitP, mapP. now rewrite (predP_accept _ _ _ Hc Hd).
Qed.

Lemma digitP_stop (s : ParseState) (pre rest : string) :
  splits s pre rest -> noDigitAhead rest -> fails_at digitP s.
Proof.
  intros Hs Hn. unfold digitP, mapP, fails_at. destruct rest as [|c rest].
  - rewrite (predP_eof _ _ (splits_eof _ _ Hs)). simpl. now do 2 eexists.
  - rewrite (predP_reject _ _ _ (splits_at _ _ _ _ Hs) Hn). simpl.
    now do 2 eexists.
Qed.

Lemma manyP_digits (ds : string) :
  forall (s : ParseState) (pre rest : string) (fuel : nat),
  size (input s) < 2 ^ 64 ->
  splits s pre (ds ++ rest) -> allDigits ds -> noDigitAhead rest ->
  (String.length ds < fuel)%nat ->
  exists s', manyP fuel digitP s = Returns (Success (digitsOf ds) s')
             /\ splits s' (pre ++ ds) rest /\ input s' = input s.
Proof.
  induction ds as [|d ds IH]; intros s pre rest fuel Hsz Hs Hall Hstop Hfuel;
    (destruct fuel as [|fuel]; [simpl in Hfuel; lia|]); simpl.
  - destruct (digitP_stop s pre rest Hs Hstop) as (st & e & ->). simpl.
    exists s. rewrite append_empty_r.
    split; [reflexivity|split; [exact Hs|reflexivity]].
  - inversion Hall as [|? ? Hd Hall']; subst.
    rewrite (digitP_accept s d (splits_at _ _ _ _ Hs) Hd). simpl.
    destruct (IH (advance s) (pre ++ String d "") rest fuel) as (s' & -> & Hs' & Hi');
      [exact Hsz | now apply splits_advance | exact Hall' | exact Hstop
      | simpl in Hfuel; lia |].
    simpl. exists s'. split; [reflexivity|].
    rewrite append_assoc in Hs'. split; [exact Hs'|exact Hi'].
Qed.

Lemma natP_digits (d : ascii) (ds : string) (s : ParseState) (pre rest : string)
  (fuel : nat) :
  size (input s) < 2 ^ 64 ->
  splits s pre (String d ds ++ rest) -> allDigits (String d ds) ->
  noDigitAhead rest -> (String.length ds < fuel)%nat ->
  exists s', natP fuel s = Returns (Success (natOf (digitsOf (String d ds))) s')
             /\ splits s' (pre ++ String d ds) rest /\ input s' = input s.
Proof.
  intros Hsz Hs Hall Hstop Hfuel. inversion Hall as [|? ? Hd Hall']; subst.
  unfold natP, mapP, someP, andP.
  rewrite (digitP_accept s d (splits_at _ _ _ _ Hs) Hd). simpl.
  destruct (manyP_digits ds (advance s) (pre ++ String d "") rest fuel)
    as (s' & -> & Hs' & Hi'); try assumption; [now apply splits_advance|].
  simpl. exists s'. split; [reflexivity|].
  rewrite append_assoc in Hs'. split; [exact Hs'|exact Hi'].
Qed.

Lemma digit_not_minus (d : ascii) : isDigit d = true -> Ascii.eqb "-" d = false.
Proof.
  intros Hd. destruct (Ascii.eqb_spec "-" d) as [<-|]; [|reflexivity].
  vm_compute in Hd. discriminate.
Qed.

Lemma digit_not_dot (d : ascii) : isDigit d = true -> Ascii.eqb "." d = false.
Proof.
  intros Hd. destruct (Ascii.eqb_spec "." d) as [<-|]; [|reflexivity].
  vm_compute in Hd. discriminate.
Qed.

Lemma charP_accept (c : ascii) (s : ParseState) (pre rest : string) :
  splits s pre (String c rest) -> charP c s = Returns (Success c (advance s)).
Proof.
  intros Hs. apply predP_accept; [now apply (splits_at s pre rest)|].
  apply Ascii.eqb_refl.
Qed.

Lemma charP_reject (c x : ascii) (s : ParseState) (pre rest : string) :
  splits s pre (String x rest) -> Ascii.eqb c x = false ->
  charP c s = Returns (Failure (advance s) ["unexpect " ++ String x ""]).
Proof. intros Hs Hx. apply predP_reject; [now apply (splits_at s pre rest)|exact Hx]. Qed.

Lemma intP_plain (d : ascii) (ds : string) (s : ParseState) (pre rest : string)
  (fuel : nat) :
  size (input s) < 2 ^ 64 ->
  splits s pre (String d ds ++ rest) -> allDigits (String d ds) ->
  noDigitAhead rest -> (String.length ds < fuel)%nat ->
  exists s', intP fuel s = Returns (Success (natOf (digitsOf (String d ds))) s')
             /\ splits s' (pre ++ String d ds) rest /\ input s' = input s.
Proof.
  intros Hsz Hs Hall Hstop Hfuel.
  destruct (natP_digits d ds s pre rest fuel Hsz Hs Hall Hstop Hfuel)
    as (s' & Hn & Hs' & Hi').
  exists s'. split; [|now split].
  inversion Hall as [|? ? Hd _]; subst.
  unfold intP. simpl. unfold mapP at 1, rightP, andP.
  rewrite (charP_reject "-" d s pre (ds ++ rest) Hs (digit_not_minus d Hd)).
  simpl. exact Hn.
Qed.

Lemma intP_negative (d : ascii) (ds : string) (s : ParseState) (pre rest : string)
  (fuel : nat) :
  size (input s) < 2 ^ 64 ->
  splits s pre (String "-" (String d ds ++ rest)) -> allDigits (String d ds) ->
  noDigitAhead rest -> (String.length ds < fuel)%nat ->
  exists s',
    intP fuel s = Returns (Success (negate (natOf (digitsOf (String d ds)))) s')
    /\ splits s' (pre ++ String "-" (String d ds)) rest /\ input s' = input s.
Proof.
  intros Hsz Hs Hall Hstop Hfuel.
  destruct (natP_digits d ds (advance s) (pre ++ "-") rest fuel)
    as (s' & Hn & Hs' & Hi'); try assumption; [now apply splits_advance|].
  exists s'. rewrite append_assoc in Hs'. split; [|split; [exact Hs'|exact Hi']].
  unfold intP. simpl. unfold mapP at 1, rightP, andP.
  rewrite (charP_accept "-" s pre _ Hs). simpl. rewrite Hn. reflexivity.
Qed.

Lemma someP_digits (d : ascii) (ds : string) (s : ParseState) (pre rest : string)
  (fuel : nat) :
  size (input s) < 2 ^ 64 ->
  splits s pre (String d ds ++ rest) -> allDigits (String d ds) ->
  noDigitAhead rest -> (String.length ds < fuel)%nat ->
  exists s', someP fuel digitP s = Returns (Success (digitsOf (String d ds)) s')
             /\ splits s' (pre ++ String d ds) rest /\ input s' = input s.
Proof.
  intros Hsz Hs Hall Hstop Hfuel. inversion Hall as [|? ? Hd Hall']; subst.
  unfold someP, andP.
  rewrite (digitP_accept s d (splits_at _ _ _ _ Hs) Hd). simpl.
  destruct (manyP_digits ds (advance s) (pre ++ String d "") rest fuel)
    as (s' & -> & Hs' & Hi'); try assumption; [now apply splits_advance|].
  simpl. exists s'. split; [reflexivity|].
  rewrite append_assoc in Hs'. split; [exact Hs'|exact Hi'].
Qed.

(** [doubleP] once [intP] has read the integer part and a fraction follows. *)
Lemma doubleP_fraction (x : Z) (d : ascii) (ds : string) (s s1 : ParseState)
  (pre rest : string) (fuel : nat) :
  size (input s1) < 2 ^ 64 ->
  intP fuel s = Returns (Success x s1) ->
  splits s1 pre (String "." (String d ds ++ rest)) -> allDigits (String d ds) ->
  noDigitAhead rest -> (String.length ds < fuel)%nat ->
  exists s',
    doubleP fuel s
    = Returns (Success (PrimFloat.add (double_of_int x)
                                      (fractionOf (digitsOf (String d ds)))) s')
    /\ splits s' (pre ++ String "." (String d ds)) rest /\ input s' = input s1.
Proof.
  intros Hsz Hx Hs Hall Hstop Hfuel.
  destruct (someP_digits d ds (advance s1) (pre ++ ".") rest fuel)
    as (s' & Hn & Hs' & Hi'); try assumption; [now apply splits_advance|].
  exists s'. rewrite append_assoc in Hs'. split; [|split; [exact Hs'|exact Hi']].
  unfold doubleP. simpl. unfold andP at 1. rewrite Hx. simpl.
  unfold rightP, andP. rewrite (charP_accept "." s1 pre _ Hs). simpl.
  unfold mapP. rewrite Hn. reflexivity.
Qed.

Lemma doubleP_reads_negative (d1 : ascii) (ds1 : string) (d2 : ascii)
  (ds2 rest : string) (fuel : nat) :
  allDigits (String d1 ds1) -> allDigits (String d2 ds2) -> noDigitAhead rest ->
  size (String "-" (String d1 ds1 ++ String "." (String d2 ds2 ++ rest))) < 2 ^ 64 ->
  (String.length ds1 < fuel)%nat -> (String.length ds2 < fuel)%nat ->
  exists s',
    parse (doubleP fuel)
          (String "-" (String d1 ds1 ++ String "." (String d2 ds2 ++ rest)))
    = Returns (Success
        (PrimFloat.add (double_of_int (negate (natOf (digitsOf (String d1 ds1)))))
                       (fractionOf (digitsOf (String d2 ds2)))) s')
    /\ splits s' (String "-" (String d1 ds1 ++ String "." (String d2 ds2))) rest.
Proof.
  intros Hint Hfrac Hstop Hsz Hf1 Hf2.
  set (text := String "-" (String d1 ds1 ++ String "." (String d2 ds2 ++ rest))) in *.
  destruct (intP_negative d1 ds1 (initial text) "" (String "." (String d2 ds2 ++ rest)) fuel)
    as (s1 & Hx & Hs1 & Hi1); try assumption; [apply splits_initial|reflexivity|].
  destruct (doubleP_fraction _ d2 ds2 (initial text) s1 _ rest fuel
              ltac:(rewrite Hi1; exact Hsz) Hx Hs1 Hfrac Hstop Hf2)
    as (s' & Hd & Hs' & Hi').
  exists s'. split; [exact Hd|exact Hs'].
Qed.

Lemma doubleP_reads_plain (d1 : ascii) (ds1 : string) (d2 : ascii)
  (ds2 rest : string) (fuel : nat) :
  allDigits (String d1 ds1) -> allDigits (String d2 ds2) -> noDigitAhead rest ->
  size (String d1 ds1 ++ String "." (String d2 ds2 ++ rest)) < 2 ^ 64 ->
  (String.length ds1 < fuel)%nat -> (String.length ds2 < fuel)%nat ->
  exists s',
    parse (doubleP fuel) (String d1 ds1 ++ String "." (String d2 ds2 ++ rest))
    = Returns (Success
        (PrimFloat.add (double_of_int (natOf (digitsOf (String d1 ds1))))
                       (fractionOf (digitsOf (String d2 ds2)))) s')
    /\ splits s' (String d1 ds1 ++ String "." (String d2 ds2)) rest.
Proof.
  intros Hint Hfrac Hstop Hsz Hf1 Hf2.
  set (text := String d1 ds1 ++ String "." (String d2 ds2 ++ rest)) in *.
  destruct (intP_plain d1 ds1 (initial text) "" (String "." (String d2 ds2 ++ rest)) fuel)
    as (s1 & Hx & Hs1 & Hi1); try assumption; [apply splits_initial|reflexivity|].
  destruct (doubleP_fraction _ d2 ds2 (initial text) s1 _ rest fuel
              ltac:(rewrite Hi1; exact Hsz) Hx Hs1 Hfrac Hstop Hf2)
    as (s' & Hd & Hs' & Hi').
  exists s'. split; [exact Hd|exact Hs'].
Qed.

(** C10: for every input that is a ['-'], a run of digits, a ['.'] and a
    second run of digits (followed by the end of the input or by anything
    that is no digit), [doubleP] returns the negated integer part plus
    the fraction, the very fraction it adds to the integer part when the
    sign is absent; the whole magnitude is not negated. *)
Theorem doubleP_negative_fraction (d1 : ascii) (ds1 : string) (d2 : ascii)
  (ds2 rest : string) (fuel : nat)
  (Hint : allDigits (String d1 ds1))
  (Hfrac : allDigits (String d2 ds2))
  (Hstop : noDigitAhead rest)
  (Hsz : size (String "-" (String d1 ds1 ++ String "." (String d2 ds2 ++ rest))) < 2 ^ 64)
  (Hfuel : (String.length ds1 < fuel)%nat /\ (String.length ds2 < fuel)%nat) :
  (exists s',
     parse (doubleP fuel)
           (String "-" (String d1 ds1 ++ String "." (String d2 ds2 ++ rest)))
     = Returns (Success
         (PrimFloat.add (double_of_int (negate (natOf (digitsOf (String d1 ds1)))))
                        (fractionOf (digitsOf (String d2 ds2)))) s')
     /\ splits s' (String "-" (String d1 ds1 ++ String "." (String d2 ds2))) rest)
  /\ (exists s',
     parse (doubleP fuel) (String d1 ds1 ++ String "." (String d2 ds2 ++ rest))
     = Returns (Success
         (PrimFloat.add (double_of_int (natOf (digitsOf (String d1 ds1))))
                        (fractionOf (digitsOf (String d2 ds2)))) s')
     /\ splits s' (String d1 ds1 ++ String "." (String d2 ds2)) rest).
Proof.
  destruct Hfuel as [Hf1 Hf2]. split.
  - now apply doubleP_reads_negative.
  - apply doubleP_reads_plain; try assumption.
    unfold size in *. simpl in Hsz. simpl. lia.
Qed.

Lemma doubleP_negative_fraction_witness :
  (exists s', parse (doubleP 2) "-12.25" = Returns (Success (-11.75)%float s')
              /\ splits s' "-12.25" "")
  /\ (exists s', parse (doubleP 2) "12.25" = Returns (Success 12.25%float s')
              /\ splits s' "12.25" "").
Proof.
  apply (doubleP_negative_fraction "1" "2" "2" "5" "" 2).
  - repeat constructor.
  - repeat constructor.
  - exact I.
  - reflexivity.
  - split; simpl; lia.
Defined.

Lemma splits_state (s : ParseState) (pre rest : string) :
  splits s pre rest -> s = mkState (size pre) (pre ++ rest).
Proof. destruct s as [p i]. intros [Hi Hp]. simpl in *. now subst. Qed.

Lemma intP_minus (fuel : nat) (s s1 : ParseState) (pre rest : string) (n : Z) :
  splits s pre (String "-" rest) ->
  natP fuel (advance s) = Returns (Success n s1) ->
  intP fuel s = Returns (Success (negate n) s1).
Proof.
  intros Hs Hn. unfold intP. simpl. unfold mapP at 1, rightP, andP.
  rewrite (charP_accept "-" s pre _ Hs). simpl. rewrite Hn. reflexivity.
Qed.

Lemma doubleP_adds (fuel : nat) (s s1 s2 : ParseState) (pre rest : string)
  (x : Z) (ns : list Z) :
  intP fuel s = Returns (Success x s1) ->
  splits s1 pre (String "." rest) ->
  someP fuel digitP (advance s1) = Returns (Success ns s2) ->
  doubleP fuel s
  = Returns (Success (PrimFloat.add (double_of_int x) (fractionOf ns)) s2).
Proof.
  intros Hx Hs Hn. unfold doubleP. simpl. unfold andP at 1. rewrite Hx. simpl.
  unfold rightP, andP. rewrite (charP_accept "." s1 pre _ Hs). simpl.
  unfold mapP. rewrite Hn. reflexivity.
Qed.

(** C6: [parse(intP, "-25")] succeeds with [-25] and
    [parse(doubleP, "12.25")] succeeds with [12.25] (the binary64 value
    itself), at every recursion bound from 2 on; [intP] negates the
    natural that follows a leading ['-'], and [doubleP] adds to the
    integer part the fold [fractionOf] of the digits after the ['.']. *)
Theorem numeric_round_trip :
  (forall fuel,
      parse (intP (2 + fuel)) "-25" = Returns (Success (-25)%Z (mkState 3 "-25")))
  /\ (forall fuel,
      parse (doubleP (2 + fuel)) "12.25"
      = Returns (Success 12.25%float (mkState 5 "12.25")))
  /\ (forall fuel s s1 pre rest n,
      splits s pre (String "-" rest) ->
      natP fuel (advance s) = Returns (Success n s1) ->
      intP fuel s = Returns (Success (negate n) s1))
  /\ (forall fuel s s1 s2 pre rest x ns,
      intP fuel s = Returns (Success x s1) ->
      splits s1 pre (String "." rest) ->
      someP fuel digitP (advance s1) = Returns (Success ns s2) ->
      doubleP fuel s
      = Returns (Success (PrimFloat.add (double_of_int x) (fractionOf ns)) s2))
  /\ fractionOf [2; 5]%Z = 0.25%float.
Proof.
  split; [|split; [|split; [|split]]].
  - intros fuel.
    destruct (intP_negative "2" "5" (initial "-25") "" "" (2 + fuel))
      as (s' & Hx & Hs' & _);
      [reflexivity | apply splits_initial | repeat constructor | exact I
      | simpl; lia |].
    apply splits_state in Hs'. subst s'. exact Hx.
  - intros fuel.
    destruct (doubleP_reads_plain "1" "2" "2" "5" "" (2 + fuel))
      as (s' & Hd & Hs');
      [repeat constructor | repeat constructor | exact I | reflexivity
      | simpl; lia | simpl; lia |].
    apply splits_state in Hs'. subst s'. exact Hd.
  - intros fuel s s1 pre rest n. apply intP_minus.
  - intros fuel s s1 s2 pre rest x ns. apply doubleP_adds.
  - reflexivity.
Qed.

(** ** A larger recursion bound changes no result *)

Create HintDb mono.

Lemma refines_refl {T : Type} (p : Parser T) : refines p p.
Proof. intros s r H. exact H. Qed.

Lemma refines_trans {T : Type} (p q u : Parser T) :
  refines p q -> refines q u -> refines p u.
Proof. intros H1 H2 s r H. now apply H2, H1. Qed.

Lemma cut_refines {T : Type} (q : Parser T) : refines (fun _ => OutOfFuel) q.
Proof. intros s r H. discriminate. Qed.

Lemma mapP_refines {A B : Type} (p q : Parser A) (f : A -> B) :
  refines p q -> refines (mapP p f) (mapP q f).
Proof.
  intros Hp s r H. unfold mapP in *. step_in H; rewrite (Hp _ _ E); exact H.
Qed.

Lemma andP_refines {A B C : Type} (pa qa : Parser A) (pb qb : Parser B)
  (f : A -> B -> C) :
  refines pa qa -> refines pb qb -> refines (andP pa pb f) (andP qa qb f).
Proof.
  intros Ha Hb s r H. unfold andP in *. step_in H; rewrite (Ha _ _ E); simpl.
  - step_in H; rewrite (Hb _ _ E0); exact H.
  - exact H.
Qed.

Lemma orP_refines {T : Type} {C : RawAssignable T} (ps qs : list (Parser T)) :
  Forall2 refines ps qs ->
  forall p q, refines p q -> refines (orP p ps) (orP q qs).
Proof.
  induction 1 as [|p' q' ps qs Hpq _ IH]; intros p q Hp; [exact Hp|].
  intros s r H. simpl in *. step_in H; rewrite (Hp _ _ E); simpl.
  - exact H.
  - now apply (IH p' q' Hpq).
Qed.

Lemma manyP_refines {T : Type} (p q : Parser T) :
  refines p q ->
  forall n m, (n <= m)%nat -> refines (manyP n p) (manyP m q).
Proof.
  intros Hp. induction n as [|n IH]; intros m Hm s r H; simpl in H;
    [discriminate|].
  destruct m as [|m]; [lia|]. simpl.
  step_in H; rewrite (Hp _ _ E); simpl.
  - step_in H. rewrite (IH m ltac:(lia) _ _ E0). exact H.
  - exact H.
Qed.

Lemma lazyP_refines {T : Type} (f g : unit -> Parser T) :
  refines (f tt) (g tt) -> refines (lazyP f) (lazyP g).
Proof. intros H. exact H. Qed.

#[local] Hint Resolve refines_refl cut_refines mapP_refines andP_refines
  manyP_refines lazyP_refines : mono.

Lemma leftP_refines {A B : Type} (pa qa : Parser A) (pb qb : Parser B) :
  refines pa qa -> refines pb qb -> refines (leftP pa pb) (leftP qa qb).
Proof. unfold leftP. auto with mono. Qed.

Lemma rightP_refines {A B : Type} (pa qa : Parser A) (pb qb : Parser B) :
  refines pa qa -> refines pb qb -> refines (rightP pa pb) (rightP qa qb).
Proof. unfold rightP. auto with mono. Qed.

#[local] Hint Resolve leftP_refines rightP_refines : mono.

Lemma someP_refines {T : Type} (p q : Parser T) (n m : nat) :
  refines p q -> (n <= m)%nat -> refines (someP n p) (someP m q).
Proof. unfold someP. auto with mono. Qed.

Lemma betweenP_refines {A B C : Type} (lp lq : Parser A) (rp rq : Parser B)
  (p q : Parser C) :
  refines lp lq -> refines rp rq -> refines p q ->
  refines (betweenP lp rp p) (betweenP lq rq q).
Proof. unfold betweenP. auto with mono. Qed.

Lemma spaces_refines (n m : nat) : (n <= m)%nat -> refines (spaces n) (spaces m).
Proof. unfold spaces. auto with mono. Qed.

#[local] Hint Resolve someP_refines betweenP_refines spaces_refines : mono.

Lemma trimP_refines {T : Type} (p q : Parser T) (n m : nat) :
  refines p q -> (n <= m)%nat -> refines (trimP n p) (trimP m q).
Proof. unfold trimP. auto with mono. Qed.

#[local] Hint Resolve trimP_refines : mono.

Lemma natP_refines (n m : nat) : (n <= m)%nat -> refines (natP n) (natP m).
Proof. unfold natP. auto with mono. Qed.

#[local] Hint Resolve natP_refines : mono.

Lemma intP_refines (n m : nat) : (n <= m)%nat -> refines (intP n) (intP m).
Proof.
  intros H. unfold intP. apply orP_refines; [|auto with mono].
  constructor; [auto with mono|constructor].
Qed.

#[local] Hint Resolve intP_refines : mono.

Lemma doubleP_refines (n m : nat) : (n <= m)%nat -> refines (doubleP n) (doubleP m).
Proof.
  intros H. unfold doubleP. apply orP_refines; [|auto 6 with mono].
  constructor; [auto with mono|constructor].
Qed.

Lemma escapeStrP_refines (n m : nat) :
  (n <= m)%nat -> refines (escapeStrP n) (escapeStrP m).
Proof. intros H. unfold escapeStrP. auto 8 with mono. Qed.

#[local] Hint Resolve doubleP_refines escapeStrP_refines : mono.

Lemma nullP_refines (n m : nat) : (n <= m)%nat -> refines (nullP n) (nullP m).
Proof. unfold nullP. auto with mono. Qed.

Lemma boolP_refines (n m : nat) : (n <= m)%nat -> refines (boolP n) (boolP m).
Proof. unfold boolP. auto with mono. Qed.

Lemma numP_refines (n m : nat) : (n <= m)%nat -> refines (numP n) (numP m).
Proof. unfold numP. auto with mono. Qed.

Lemma strP_refines (n m : nat) : (n <= m)%nat -> refines (strP n) (strP m).
Proof. unfold strP. auto with mono. Qed.

#[local] Hint Resolve nullP_refines boolP_refines numP_refines strP_refines : mono.

Lemma json_refines_step (n : nat) :
  refines (jsonP n) (jsonP (S n)) /\ refines (arrayP n) (arrayP (S n))
  /\ refines (objectP n) (objectP (S n)).
Proof.
  induction n as [|n (IHj & IHa & IHo)]; [repeat split; apply cut_refines|].
  assert (Hn : (n <= S n)%nat) by lia.
  assert (Hlazy : refines (lazyP (fun _ => jsonP n)) (lazyP (fun _ => jsonP (S n))))
    by exact IHj.
  repeat split.
  - change (jsonP (S n)) with
      (orP (nullP n) [boolP n; numP n; strP n;
                      lazyP (fun _ => arrayP n); lazyP (fun _ => objectP n)]).
    change (jsonP (S (S n))) with
      (orP (nullP (S n)) [boolP (S n); numP (S n); strP (S n);
                          lazyP (fun _ => arrayP (S n));
                          lazyP (fun _ => objectP (S n))]).
    apply orP_refines; [|auto with mono].
    repeat constructor; auto with mono.
  - cbn [arrayP]. apply trimP_refines; [|exact Hn].
    apply betweenP_refines; auto with mono.
    apply orP_refines; [repeat constructor; auto with mono|].
    auto 6 with mono.
  - cbn [objectP]. apply trimP_refines; [|exact Hn].
    apply betweenP_refines; auto with mono.
    apply orP_refines; [repeat constructor; auto with mono|].
    auto 8 with mono.
Qed.

Lemma jsonP_refines (n m : nat) : (n <= m)%nat -> refines (jsonP n) (jsonP m).
Proof.
  induction 1 as [|m _ IH]; [apply refines_refl|].
  eapply refines_trans; [exact IH|apply json_refines_step].
Qed.

Lemma arrayP_refines (n m : nat) : (n <= m)%nat -> refines (arrayP n) (arrayP m).
Proof.
  induction 1 as [|m _ IH]; [apply refines_refl|].
  eapply refines_trans; [exact IH|apply json_refines_step].
Qed.

Lemma objectP_refines (n m : nat) : (n <= m)%nat -> refines (objectP n) (objectP m).
Proof.
  induction 1 as [|m _ IH]; [apply refines_refl|].
  eapply refines_trans; [exact IH|apply json_refines_step].
Qed.

(** ** The key-sorted map *)

Lemma keyLt_trans {V : Type} : Transitive (@keyLt V).
Proof.
  intros a b c. unfold keyLt.
  apply (@StrictOrder_Transitive _ _ String_as_OT.lt_strorder).
Qed.

Lemma lt_not_eqb (a b : string) : String_as_OT.lt a b -> String.eqb a b = false.
Proof.
  intros H. apply String.eqb_neq. intros ->.
  exact (@StrictOrder_Irreflexive _ _ String_as_OT.lt_strorder b H).
Qed.

Lemma compare_Gt_lt (a b : string) :
  String_as_OT.compare a b = Gt -> String_as_OT.lt b a.
Proof.
  intros H. destruct (String_as_OT.compare_spec a b) as [E|L|G];
    try discriminate. exact G.
Qed.

Lemma compare_Eq_eq (a b : string) : String_as_OT.compare a b = Eq -> a = b.
Proof.
  intros H. destruct (String_as_OT.compare_spec a b) as [E|L|G];
    try discriminate. exact E.
Qed.

Lemma assign_HdRel {V : Type} (a : string * V) (k : string) (v : V) (m : smap V) :
  HdRel keyLt a m -> String_as_OT.lt (fst a) k -> HdRel keyLt a (assign k v m).
Proof.
  intros Hm Hk. destruct m as [|[k' v'] m]; simpl.
  - now constructor.
  - inversion Hm as [|? ? Hlt]; subst.
    destruct (String_as_OT.compare k k'); constructor; assumption.
Qed.

Lemma assign_sorted {V : Type} (k : string) (v : V) (m : smap V) :
  sortedMap m -> sortedMap (assign k v m).
Proof.
  unfold sortedMap. induction m as [|[k' v'] m IH]; intros Hm; simpl.
  - repeat constructor.
  - inversion Hm as [|? ? Hs Hh]; subst.
    destruct (String_as_OT.compare k k') eqn:Hc.
    + apply compare_Eq_eq in Hc. subst k'. constructor; [exact Hs|].
      destruct m as [|b m]; constructor. inversion Hh; subst. assumption.
    + constructor; [exact Hm|]. constructor. exact Hc.
    + constructor; [now apply IH|].
      apply assign_HdRel; [exact Hh|]. now apply compare_Gt_lt.
Qed.

Lemma find_assign {V : Type} (k k' : string) (v : V) (m : smap V) :
  find k' (assign k v m) = if String.eqb k' k then Some v else find k' m.
Proof.
  induction m as [|[k0 v0] m IH]; simpl; [reflexivity|].
  destruct (String_as_OT.compare k k0) eqn:Hc; simpl.
  - apply compare_Eq_eq in Hc. subst k0. now destruct (String.eqb k' k).
  - reflexivity.
  - rewrite IH. destruct (String.eqb_spec k' k0) as [->|]; [|reflexivity].
    apply compare_Gt_lt, lt_not_eqb in Hc. now rewrite Hc.
Qed.

Lemma find_app {V : Type} (k : string) (l1 l2 : smap V) :
  find k (l1 ++ l2)%list = match find k l1 with Some v => Some v | None => find k l2 end.
Proof.
  induction l1 as [|[k0 v0] l1 IH]; simpl; [reflexivity|].
  now destruct (String.eqb k k0).
Qed.

Lemma fold_assign_sorted (xs : list (string * JsonValue)) :
  forall m, sortedMap m ->
  sortedMap (fold_left (fun m i => assign (fst i) (snd i) m) xs m).
Proof.
  induction xs as [|x xs IH]; intros m Hm; simpl; [exact Hm|].
  now apply IH, assign_sorted.
Qed.

Lemma fold_assign_find (k : string) (xs : list (string * JsonValue)) :
  forall m,
  find k (fold_left (fun m i => assign (fst i) (snd i) m) xs m)
  = match find k (rev xs) with Some v => Some v | None => find k m end.
Proof.
  induction xs as [|[k0 v0] xs IH]; intros m; simpl; [reflexivity|].
  rewrite IH, find_app, find_assign. simpl.
  destruct (find k (rev xs)); [reflexivity|].
  now destruct (String.eqb k k0).
Qed.

Lemma mapOf_sorted (xs : list (string * JsonValue)) : sortedMap (mapOf xs).
Proof. apply fold_assign_sorted. constructor. Qed.

(** Last write wins: the value under [k] is the one of the last entry
    of [xs] with the key [k]. *)
Lemma mapOf_find (k : string) (xs : list (string * JsonValue)) :
  find k (mapOf xs) = find k (rev xs).
Proof.
  unfold mapOf. rewrite fold_assign_find. now destruct (find k (rev xs)).
Qed.

Lemma find_below {V : Type} (k : string) (a : string * V) (m : smap V) :
  sortedMap (a :: m) -> String_as_OT.lt k (fst a) \/ k = fst a ->
  find k m = None.
Proof.
  intros Hs Hk. apply Sorted_StronglySorted in Hs; [|exact keyLt_trans].
  inversion Hs as [|? ? _ Hall]; subst. clear Hs.
  induction m as [|[k0 v0] m IH]; simpl; [reflexivity|].
  inversion Hall as [|? ? Hlt Hall']; subst. unfold keyLt in Hlt. simpl in Hlt.
  assert (Hk0 : String_as_OT.lt k k0).
  { destruct Hk as [Hk | ->]; [|exact Hlt].
    exact (@StrictOrder_Transitive _ _ String_as_OT.lt_strorder _ _ _ Hk Hlt). }
  rewrite (lt_not_eqb _ _ Hk0). now apply IH.
Qed.

(** Two key-sorted maps with the same lookups are the same list. *)
Lemma sortedMap_ext {V : Type} (m1 : smap V) :
  forall m2, sortedMap m1 -> sortedMap m2 ->
  (forall k, find k m1 = find k m2) -> m1 = m2.
Proof.
  induction m1 as [|[k1 v1] m1 IH]; intros m2 H1 H2 Hf;
    destruct m2 as [|[k2 v2] m2].
  - reflexivity.
  - specialize (Hf k2). simpl in Hf. rewrite String.eqb_refl in Hf. discriminate.
  - specialize (Hf k1). simpl in Hf. rewrite String.eqb_refl in Hf. discriminate.
  - assert (Hk : k1 = k2).
    { destruct (String_as_OT.compare_spec k1 k2) as [E|L|G]; [exact E| |].
      - pose proof (Hf k1) as Hf1. simpl in Hf1.
        rewrite String.eqb_refl, (lt_not_eqb _ _ L) in Hf1.
        rewrite (find_below k1 (k2, v2) m2 H2 (or_introl L)) in Hf1. discriminate.
      - pose proof (Hf k2) as Hf2. simpl in Hf2.
        rewrite String.eqb_refl, (lt_not_eqb _ _ G) in Hf2.
        rewrite (find_below k2 (k1, v1) m1 H1 (or_introl G)) in Hf2. discriminate. }
    subst k2.
    assert (Hv : v1 = v2).
    { specialize (Hf k1). simpl in Hf. rewrite String.eqb_refl in Hf. congruence. }
    subst v2. f_equal. apply IH.
    + now inversion H1.
    + now inversion H2.
    + intros k. destruct (String.eqb_spec k k1) as [->|Hne].
      * rewrite (find_below k1 (k1, v1) m1 H1 (or_intror eq_refl)).
        rewrite (find_below k1 (k1, v1) m2 H2 (or_intror eq_refl)). reflexivity.
      * specialize (Hf k). simpl in Hf.
        apply String.eqb_neq in Hne. now rewrite Hne in Hf.
Qed.

Lemma mapOf_ext (xs ys : list (string * JsonValue)) :
  (forall k, find k (rev xs) = find k (rev ys)) -> mapOf xs = mapOf ys.
Proof.
  intros H. apply sortedMap_ext; try apply mapOf_sorted.
  intros k. now rewrite !mapOf_find.
Qed.

Lemma find_In {V : Type} (k : string) (v : V) (l : smap V) :
  find k l = Some v -> In (k, v) l.
Proof.
  induction l as [|[k0 v0] l IH]; simpl; [discriminate|].
  destruct (String.eqb_spec k k0) as [->|_].
  - intros H. injection H as ->. now left.
  - intros H. right. now apply IH.
Qed.

Lemma In_find {V : Type} (k : string) (v : V) (l : smap V) :
  NoDup (map fst l) -> In (k, v) l -> find k l = Some v.
Proof.
  induction l as [|[k0 v0] l IH]; simpl; intros Hnd Hin; [contradiction|].
  inversion Hnd as [|? ? Hnot Hnd']; subst.
  destruct Hin as [E|Hin].
  - injection E as -> ->. now rewrite String.eqb_refl.
  - destruct (String.eqb_spec k k0) as [->|_]; [|now apply IH].
    exfalso. apply Hnot. change k0 with (fst (k0, v)). now apply in_map.
Qed.

Lemma find_permutation {V : Type} (k : string) (l1 l2 : smap V) :
  Permutation l1 l2 -> NoDup (map fst l1) -> find k l1 = find k l2.
Proof.
  intros Hp Hnd.
  assert (Hnd2 : NoDup (map fst l2)).
  { eapply Permutation_NoDup; [|exact Hnd]. now apply Permutation_map. }
  destruct (find k l1) as [v|] eqn:H1.
  - symmetry. apply In_find; [exact Hnd2|].
    eapply Permutation_in; [exact Hp|]. now apply find_In.
  - destruct (find k l2) as [v|] eqn:H2; [|reflexivity].
    apply find_In in H2. apply (Permutation_in _ (Permutation_sym Hp)) in H2.
    apply (In_find _ _ _ Hnd) in H2. congruence.
Qed.

(** With distinct keys the order of the entries does not matter. *)
Lemma mapOf_permutation (xs ys : list (string * JsonValue)) :
  Permutation xs ys -> NoDup (map fst xs) -> mapOf xs = mapOf ys.
Proof.
  intros Hp Hnd. apply mapOf_ext. intros k.
  apply find_permutation.
  - rewrite <- !Permutation_rev. exact Hp.
  - eapply Permutation_NoDup; [|exact Hnd].
    apply Permutation_map, Permutation_rev.
Qed.

(** ** What a success of a combinator is made of *)

Lemma mapP_success {A B : Type} (p : Parser A) (f : A -> B) (s s' : ParseState)
  (v : B) :
  mapP p f s = Returns (Success v s') ->
  exists a, p s = Returns (Success a s') /\ v = f a.
Proof.
  unfold mapP. intros H. step_in H. injection H as <- <-.
  eexists. split; reflexivity.
Qed.

Lemma andP_success {A B C : Type} (pa : Parser A) (pb : Parser B) (f : A -> B -> C)
  (s s' : ParseState) (v : C) :
  andP pa pb f s = Returns (Success v s') ->
  exists a sa b,
    pa s = Returns (Success a sa) /\ pb sa = Returns (Success b s') /\ v = f a b.
Proof.
  unfold andP. intros H. step_in H. step_in H. injection H as <- <-.
  do 3 eexists. split; [reflexivity|split; [exact E0|reflexivity]].
Qed.

Lemma orP_success {T : Type} {C : RawAssignable T} (p q : Parser T)
  (qs : list (Parser T)) (s s' : ParseState) (v : T) :
  orP p (q :: qs) s = Returns (Success v s') ->
  p s = Returns (Success v s')
  \/ (fails_at p s /\ orP q qs s = Returns (Success v s')).
Proof.
  simpl. intros H. step_in H.
  - copied H. left. exact H.
  - right. split; [do 2 eexists; exact E|exact H].
Qed.

Lemma betweenP_success {A B C : Type} (lp : Parser A) (rp : Parser B)
  (p : Parser C) (s s' : ParseState) (v : C) :
  betweenP lp rp p s = Returns (Success v s') ->
  exists a s0 s1 b,
    lp s = Returns (Success a s0) /\ p s0 = Returns (Success v s1)
    /\ rp s1 = Returns (Success b s').
Proof.
  unfold betweenP, rightP, leftP. intros H.
  apply andP_success in H as (a & s0 & v' & Ha & H & ->).
  apply andP_success in H as (c & s1 & b & Hp & Hb & ->).
  now exists a, s0, s1, b.
Qed.

Lemma trimP_success {T : Type} (n : nat) (p : Parser T) (s s' : ParseState) (v : T) :
  trimP n p s = Returns (Success v s') ->
  exists ws s0 s1 ws',
    spaces n s = Returns (Success ws s0) /\ p s0 = Returns (Success v s1)
    /\ spaces n s1 = Returns (Success ws' s').
Proof. apply betweenP_success. Qed.

Lemma objectP_value (n : nat) (s s' : ParseState) (v : JsonValue) :
  objectP (S n) s = Returns (Success v s') ->
  exists items, v = JSON_OBJECT (mapOf items).
Proof.
  intros H. cbn [objectP] in H.
  apply trimP_success in H as (ws & s0 & s3 & ws' & _ & H & _).
  apply betweenP_success in H as (a & s1 & s2 & b & _ & H & _).
  apply orP_success in H as [H|[_ H]].
  - apply andP_success in H as (x & sx & xs & Hx & Hxs & ->).
    now exists (x :: xs).
  - injection H as <- <-. now exists [].
Qed.

(** ** White space and the first character of a value *)

Lemma manyP_predP_run (f : ascii -> bool) (cs : string) :
  forall (s : ParseState) (pre rest : string) (n : nat),
  size (input s) < 2 ^ 64 ->
  splits s pre (cs ++ rest) -> allOf f cs -> noneAhead f rest ->
  (String.length cs < n)%nat ->
  exists s', manyP n (predP f) s = Returns (Success (list_ascii_of_string cs) s')
             /\ splits s' (pre ++ cs) rest /\ input s' = input s.
Proof.
  induction cs as [|c cs IH]; intros s pre rest n Hsz Hs Hall Hstop Hn;
    (destruct n as [|n]; [simpl in Hn; lia|]); simpl.
  - exists s. rewrite append_empty_r. split; [|split; [exact Hs|reflexivity]].
    destruct rest as [|c rest].
    + now rewrite (predP_eof _ _ (splits_eof _ _ Hs)).
    + now rewrite (predP_reject _ _ _ (splits_at _ _ _ _ Hs) Hstop).
  - inversion Hall as [|? ? Hc Hall']; subst.
    rewrite (predP_accept f s c (splits_at _ _ _ _ Hs) Hc). simpl.
    destruct (IH (advance s) (pre ++ String c "") rest n) as (s' & -> & Hs' & Hi');
      [exact Hsz | now apply splits_advance | exact Hall' | exact Hstop
      | simpl in Hn; lia |].
    simpl. exists s'. split; [reflexivity|].
    rewrite append_assoc in Hs'. split; [exact Hs'|exact Hi'].
Qed.

Lemma spaces_run (ws : string) (s : ParseState) (pre rest : string) (n : nat) :
  size (input s) < 2 ^ 64 ->
  splits s pre (ws ++ rest) -> allOf isSpace ws -> noneAhead isSpace rest ->
  (String.length ws < n)%nat ->
  exists s', spaces n s = Returns (Success (list_ascii_of_string ws) s')
             /\ splits s' (pre ++ ws) rest /\ input s' = input s.
Proof. apply manyP_predP_run. Qed.

(** No white space at [s]: [spaces] stays where it is. *)
Lemma spaces_none (s : ParseState) (c : ascii) (n : nat) :
  ahead s c -> isSpace c = false -> spaces (S n) s = Returns (Success [] s).
Proof.
  intros Hc Hf. unfold spaces. cbn [manyP].
  change (space s) with (predP isSpace s).
  now rewrite (predP_reject _ _ _ Hc Hf).
Qed.

Lemma trimP_failure {T : Type} (n : nat) (p : Parser T) (s s0 st : ParseState)
  (ws : list ascii) (e : list string) :
  spaces n s = Returns (Success ws s0) -> p s0 = Returns (Failure st e) ->
  trimP n p s = Returns (Failure st e).
Proof.
  intros Hs Hp. unfold trimP, rightP, leftP, andP. rewrite Hs. simpl.
  now rewrite Hp.
Qed.

Lemma charP_mismatch (c x : ascii) (s : ParseState) :
  ahead s x -> Ascii.eqb c x = false ->
  charP c s = Returns (Failure (advance s) (unexpect x)).
Proof. intros Hx Hne. now apply predP_reject. Qed.

Lemma stringP_mismatch (c x : ascii) (str : string) (s : ParseState) :
  ahead s x -> Ascii.eqb c x = false ->
  stringP (String c str) s = Returns (Failure (advance s) (unexpect x)).
Proof. intros Hx Hne. simpl. now rewrite (charP_mismatch c x s Hx Hne). Qed.

Lemma nullP_mismatch (n : nat) (s s0 : ParseState) (ws : list ascii) (c : ascii) :
  spaces n s = Returns (Success ws s0) -> ahead s0 c ->
  Ascii.eqb "n" c = false ->
  nullP n s = Returns (Failure (advance s0) (unexpect c)).
Proof.
  intros Hs Hc Hne. apply (trimP_failure _ _ _ _ _ _ _ Hs).
  unfold mapP. now rewrite (stringP_mismatch _ _ _ _ Hc Hne).
Qed.

Lemma boolP_mismatch (n : nat) (s s0 : ParseState) (ws : list ascii) (c : ascii) :
  spaces n s = Returns (Success ws s0) -> ahead s0 c ->
  Ascii.eqb "t" c = false -> Ascii.eqb "f" c = false ->
  boolP n s = Returns (Failure (advance s0) (unexpect c)).
Proof.
  intros Hs Hc Ht Hf. apply (trimP_failure _ _ _ _ _ _ _ Hs).
  cbn [orP]. unfold mapP.
  rewrite (stringP_mismatch _ _ _ _ Hc Ht). cbn [bind].
  now rewrite (stringP_mismatch _ _ _ _ Hc Hf).
Qed.

Lemma intP_mismatch (n : nat) (s : ParseState) (c : ascii) :
  ahead s c -> Ascii.eqb "-" c = false -> isDigit c = false ->
  intP n s = Returns (Failure (advance s) (unexpect c)).
Proof.
  intros Hc Hm Hd. unfold intP. cbn [orP]. unfold mapP at 1, rightP, andP.
  rewrite (charP_mismatch _ _ _ Hc Hm). cbn [bind].
  unfold natP, mapP, someP, andP, digitP, mapP.
  now rewrite (predP_reject _ _ _ Hc Hd).
Qed.

Lemma doubleP_mismatch (n : nat) (s : ParseState) (c : ascii) :
  ahead s c -> Ascii.eqb "-" c = false -> isDigit c = false ->
  doubleP n s = Returns (Failure (advance s) (unexpect c)).
Proof.
  intros Hc Hm Hd. unfold doubleP. cbn [orP]. unfold andP at 1, mapP.
  now rewrite (intP_mismatch n s c Hc Hm Hd).
Qed.

Lemma numP_mismatch (n : nat) (s s0 : ParseState) (ws : list ascii) (c : ascii) :
  spaces n s = Returns (Success ws s0) -> ahead s0 c ->
  Ascii.eqb "-" c = false -> isDigit c = false ->
  numP n s = Returns (Failure (advance s0) (unexpect c)).
Proof.
  intros Hs Hc Hm Hd. apply (trimP_failure _ _ _ _ _ _ _ Hs).
  unfold mapP. now rewrite (doubleP_mismatch n s0 c Hc Hm Hd).
Qed.

Lemma betweenP_mismatch {A : Type} (n : nat) (o cl : ascii) (p : Parser A)
  (s s0 : ParseState) (ws : list ascii) (c : ascii) :
  spaces n s = Returns (Success ws s0) -> ahead s0 c ->
  Ascii.eqb o c = false ->
  trimP n (betweenP (charP o) (charP cl) p) s
  = Returns (Failure (advance s0) (unexpect c)).
Proof.
  intros Hs Hc Hne. apply (trimP_failure _ _ _ _ _ _ _ Hs).
  unfold betweenP, rightP, andP. now rewrite (charP_mismatch _ _ _ Hc Hne).
Qed.

Lemma escapeStrP_mismatch (n : nat) (s s0 : ParseState) (ws : list ascii)
  (c : ascii) :
  spaces n s = Returns (Success ws s0) -> ahead s0 c ->
  Ascii.eqb quote c = false ->
  escapeStrP n s = Returns (Failure (advance s0) (unexpect c)).
Proof. apply betweenP_mismatch. Qed.

Lemma strP_mismatch (n : nat) (s s0 : ParseState) (ws : list ascii) (c : ascii) :
  spaces n s = Returns (Success ws s0) -> ahead s0 c ->
  Ascii.eqb quote c = false ->
  strP n s = Returns (Failure (advance s0) (unexpect c)).
Proof.
  intros Hs Hc Hne. unfold strP, mapP.
  now rewrite (escapeStrP_mismatch n s s0 ws c Hs Hc Hne).
Qed.

Lemma arrayP_mismatch (n : nat) (s s0 : ParseState) (ws : list ascii) (c : ascii) :
  spaces n s = Returns (Success ws s0) -> ahead s0 c ->
  Ascii.eqb "[" c = false ->
  arrayP (S n) s = Returns (Failure (advance s0) (unexpect c)).
Proof. cbn [arrayP]. apply betweenP_mismatch. Qed.

Lemma objectP_mismatch (n : nat) (s s0 : ParseState) (ws : list ascii) (c : ascii) :
  spaces n s = Returns (Success ws s0) -> ahead s0 c ->
  Ascii.eqb "{" c = false ->
  objectP (S n) s = Returns (Failure (advance s0) (unexpect c)).
Proof. cbn [objectP]. apply betweenP_mismatch. Qed.

Lemma jsonP_mismatch (n : nat) (s s0 : ParseState) (ws : list ascii) (c : ascii) :
  spaces n s = Returns (Success ws s0) -> ahead s0 c ->
  startsValue c = false ->
  jsonP (S (S n)) s = Returns (Failure (advance s0) (unexpect c)).
Proof.
  intros Hs Hc Hst. unfold startsValue in Hst.
  repeat (apply orb_false_iff in Hst as [Hst ?]).
  pose proof (spaces_refines n (S n) ltac:(lia) _ _ Hs) as Hs'.
  change (jsonP (S (S n))) with
    (orP (nullP (S n)) [boolP (S n); numP (S n); strP (S n);
                        lazyP (fun _ => arrayP (S n));
                        lazyP (fun _ => objectP (S n))]).
  rewrite orP_cons_failure
    by (do 2 eexists; now apply (nullP_mismatch _ _ _ _ _ Hs' Hc)).
  rewrite orP_cons_failure
    by (do 2 eexists; now apply (boolP_mismatch _ _ _ _ _ Hs' Hc)).
  rewrite orP_cons_failure
    by (do 2 eexists; now apply (numP_mismatch _ _ _ _ _ Hs' Hc)).
  rewrite orP_cons_failure
    by (do 2 eexists; now apply (strP_mismatch _ _ _ _ _ Hs' Hc)).
  rewrite orP_cons_failure
    by (do 2 eexists; unfold lazyP; now apply (arrayP_mismatch _ _ _ _ _ Hs Hc)).
  simpl. unfold lazyP. now apply (objectP_mismatch _ _ _ _ _ Hs Hc).
Qed.

(** ** arrayP and the trailing comma *)

Lemma Steps_chain {T : Type} (p : Parser T) (s s' : ParseState) (vs : list T) :
  Steps p s vs s' -> fails_at p s' -> Chain p s vs s'.
Proof.
  intros H (st & e & Hf). induction H as [s | s s1 s' v vs Hp _ IH].
  - eapply Chain_stop; eassumption.
  - eapply Chain_step; [exact Hp|now apply IH].
Qed.

(** After a comma that only white space separates from a [']'],
    no value can be read. *)
Lemma element_after_comma_fails (k : nat) (s : ParseState) (pre gap rest : string) :
  size (input s) < 2 ^ 64 ->
  splits s pre (String "," (gap ++ String "]" rest)) -> allOf isSpace gap ->
  (String.length gap < k)%nat ->
  fails_at (rightP (charP ",") (lazyP (fun _ => jsonP (S (S k))))) s.
Proof.
  intros Hsz Hs Hgap Hk.
  destruct (spaces_run gap (advance s) (pre ++ ",") (String "]" rest) k)
    as (s3 & Hsp & Hs3 & _);
    [exact Hsz | now apply splits_advance | exact Hgap | reflexivity | exact Hk |].
  unfold fails_at, rightP, andP, lazyP.
  rewrite (charP_accept "," s pre _ Hs). cbn [bind].
  rewrite (jsonP_mismatch k (advance s) s3 _ "]" Hsp);
    [now do 2 eexists | exact (splits_at s3 _ rest "]" Hs3) | reflexivity].
Qed.

(** C5: let [arrayP] skip the leading white space and read the ['['],
    a first value and any number of further values, each after a comma;
    if the text then goes on with a comma, white space or nothing, and
    the [']'], [arrayP] returns a Failure: the comma is not followed by
    a value, and the [']'] is looked for at the comma. *)
Theorem arrayP_trailing_comma (k : nat) (s s0 s1 s2 : ParseState) (ws : list ascii)
  (pre0 rest0 pre2 gap rest : string) (v : JsonValue) (vs : list JsonValue)
  (Hsp : spaces (S (S k)) s = Returns (Success ws s0))
  (Hopen : splits s0 pre0 (String "[" rest0))
  (Hfirst : jsonP (S (S k)) (advance s0) = Returns (Success v s1))
  (Hmore : Steps (rightP (charP ",") (lazyP (fun _ => jsonP (S (S k))))) s1 vs s2)
  (Htrail : splits s2 pre2 (String "," (gap ++ String "]" rest)))
  (Hgap : allOf isSpace gap)
  (Hsz : size (input s2) < 2 ^ 64)
  (Hk : (String.length gap < k)%nat /\ (List.length vs < S (S k))%nat) :
  arrayP (S (S (S k))) s = Returns (Failure (advance s2) (unexpect ",")).
Proof.
  destruct Hk as [Hk Hlen].
  pose proof (element_after_comma_fails k s2 pre2 gap rest Hsz Htrail Hgap Hk)
    as Hstop.
  pose proof (manyP_of_chain _ _ _ _ (Steps_chain _ _ _ _ Hmore Hstop)
                (S (S k)) Hlen) as Hmany.
  cbn [arrayP]. apply (trimP_failure _ _ _ _ _ _ _ Hsp).
  unfold betweenP, rightP, leftP. unfold andP at 1.
  rewrite (charP_accept "[" s0 pre0 rest0 Hopen). cbn [bind].
  unfold andP at 1. cbn [orP]. unfold andP at 1, lazyP at 1.
  rewrite Hfirst. cbn [bind]. unfold rightP in Hmany. rewrite Hmany.
  cbn [bind]. unfold success. rewrite copy_success by reflexivity. cbn [bind].
  rewrite (charP_mismatch "]" "," s2); [reflexivity| |reflexivity].
  exact (splits_at s2 pre2 (gap ++ String "]" rest) "," Htrail).
Qed.

Lemma arrayP_trailing_comma_witness :
  arrayP 4 (initial "[1,]") = Returns (Failure (mkState 3 "[1,]") (unexpect ",")).
Proof.
  apply (arrayP_trailing_comma 1 (initial "[1,]") (initial "[1,]")
           (mkState 2 "[1,]") (mkState 2 "[1,]") [] "" "1,]" "[1" "" ""
           (JSON_NUM 1%float) []).
  - reflexivity.
  - apply splits_initial.
  - vm_compute. reflexivity.
  - apply Steps_nil.
  - split; reflexivity.
  - constructor.
  - reflexivity.
  - split; simpl; lia.
Defined.

(** ** Text appended to the input *)

Lemma get_append_inside (a b : string) (n : nat) (c : ascii) :
  String.get n a = Some c -> String.get n (a ++ b) = Some c.
Proof.
  revert n. induction a as [|h a IH]; intros n H; simpl in *; [discriminate|].
  destruct n as [|n]; [exact H|now apply IH].
Qed.

Lemma ahead_ext (x : string) (s : ParseState) (c : ascii) :
  ahead s c -> ahead (ext x s) c.
Proof. unfold ahead, at_. simpl. apply get_append_inside. Qed.

Lemma advance_ext (x : string) (s : ParseState) :
  advance (ext x s) = ext x (advance s).
Proof. reflexivity. Qed.

Lemma Stable_idP (s : ParseState) (c : ascii) : ahead s c -> Stable idP s.
Proof.
  intros Hc x. rewrite (idP_read _ _ (ahead_ext x s c Hc)), (idP_read _ _ Hc).
  reflexivity.
Qed.

Lemma Stable_predP (f : ascii -> bool) (s : ParseState) (c : ascii) :
  ahead s c -> Stable (predP f) s.
Proof.
  intros Hc x. destruct (f c) eqn:Hf.
  - rewrite (predP_accept f _ c (ahead_ext x s c Hc) Hf), (predP_accept f s c Hc Hf).
    reflexivity.
  - rewrite (predP_reject f _ c (ahead_ext x s c Hc) Hf), (predP_reject f s c Hc Hf).
    reflexivity.
Qed.

Lemma Stable_pureP {T : Type} (v : T) (s : ParseState) : Stable (pureP v) s.
Proof. intros x. reflexivity. Qed.

Lemma Stable_cut {T : Type} (s : ParseState) :
  Stable (fun _ => @OutOfFuel (ParseResult T)) s.
Proof. intros x. reflexivity. Qed.

Lemma Stable_mapP {A B : Type} (p : Parser A) (f : A -> B) (s : ParseState) :
  Stable p s -> Stable (mapP p f) s.
Proof.
  intros H x. unfold mapP. rewrite (H x).
  destruct (p s) as [[v st|st e]| |]; reflexivity.
Qed.

Lemma Stable_andP {A B C : Type} (pa : Parser A) (pb : Parser B) (f : A -> B -> C)
  (s : ParseState) :
  Stable pa s ->
  (forall a sa, pa s = Returns (Success a sa) -> Stable pb sa) ->
  Stable (andP pa pb f) s.
Proof.
  intros Ha Hb x. unfold andP. rewrite (Ha x).
  destruct (pa s) as [[a sa|st e]| |]; try reflexivity. simpl.
  rewrite (Hb a sa eq_refl x).
  destruct (pb sa) as [[b sb|st e]| |]; reflexivity.
Qed.

Lemma Stable_orP {T : Type} {C : RawAssignable T} (p q : Parser T) (qs : list (Parser T))
  (s : ParseState) :
  Stable p s -> (fails_at p s -> Stable (orP q qs) s) ->
  Stable (orP p (q :: qs)) s.
Proof.
  intros Hp Hq x. cbn [orP]. rewrite (Hp x).
  destruct (p s) as [[v st|st e]| |] eqn:E; try reflexivity; simpl.
  - now destruct (rawAssign T).
  - apply Hq. do 2 eexists. exact E.
Qed.

Lemma Stable_manyP {T : Type} (p : Parser T) (n : nat) (s : ParseState) :
  Stable p s ->
  (forall v s1, p s = Returns (Success v s1) -> Stable (manyP n p) s1) ->
  Stable (manyP (S n) p) s.
Proof.
  intros Hp Hm x. cbn [manyP]. rewrite (Hp x).
  destruct (p s) as [[v s1|st e]| |]; try reflexivity. simpl.
  rewrite (Hm v s1 eq_refl x).
  destruct (manyP n p s1) as [[vs s'|st e]| |]; reflexivity.
Qed.

Lemma Stable_manyP_O {T : Type} (p : Parser T) (s : ParseState) :
  Stable (manyP O p) s.
Proof. intros x. reflexivity. Qed.

Lemma Stable_lazyP {T : Type} (f : unit -> Parser T) (s : ParseState) :
  Stable (f tt) s -> Stable (lazyP f) s.
Proof. intros H. exact H. Qed.

(** A stable run that succeeds succeeds over the longer input too. *)
Lemma Stable_success {T : Type} (p : Parser T) (s s' : ParseState) (v : T)
  (x : string) :
  Stable p s -> p s = Returns (Success v s') ->
  p (ext x s) = Returns (Success v (ext x s')).
Proof. intros H E. now rewrite (H x), E. Qed.

Lemma Stable_failure {T : Type} (p : Parser T) (s : ParseState) (x : string) :
  Stable p s -> fails_at p s -> fails_at p (ext x s).
Proof. intros H (st & e & E). unfold fails_at. rewrite (H x), E. now do 2 eexists. Qed.

(** ** Runs of single characters *)

Lemma oneChar_predP (f : ascii -> bool) : oneChar (predP f).
Proof.
  split; [apply Stable_predP|].
  intros s v s' H. apply predP_success_inv in H as (Hc & _ & ->).
  split; [reflexivity|now exists v].
Qed.

Lemma oneChar_space : oneChar space.
Proof. apply oneChar_predP. Qed.

Lemma oneChar_digitP : oneChar digitP.
Proof.
  split.
  - intros s c Hc. apply Stable_mapP. now apply (Stable_predP _ s c).
  - intros s v s' H. apply mapP_success in H as (a & H & _).
    now apply (proj2 (oneChar_predP isDigit) s a s').
Qed.

Lemma manyP_oneChar_stable {T : Type} (p : Parser T) (n : nat) :
  oneChar p ->
  forall s vs s', manyP n p s = Returns (Success vs s') -> notAtEnd s' ->
  Stable (manyP n p) s.
Proof.
  intros [Hst Hsu]. induction n as [|n IH]; intros s vs s' H Hend;
    [apply Stable_manyP_O|].
  cbn [manyP] in H. step_in H.
  - step_in H. injection H as <- <-.
    destruct (Hsu _ _ _ E) as [_ [c Hc]].
    apply Stable_manyP; [now apply (Hst s c)|].
    intros v s1 Hv. rewrite E in Hv. injection Hv as <- <-.
    now apply (IH _ _ _ E0).
  - injection H as <- <-. destruct Hend as [c Hc].
    apply Stable_manyP; [now apply (Hst s c)|].
    intros v s1 Hv. rewrite E in Hv. discriminate.
Qed.

(** The first character of a run that read something. *)
Lemma manyP_first {T : Type} (p : Parser T) (n : nat) (s s' : ParseState)
  (vs : list T) :
  manyP n p s = Returns (Success vs s') ->
  (vs = [] /\ s' = s) \/ succeeds_at p s.
Proof.
  destruct n as [|n]; [discriminate|]. cbn [manyP]. intros H. step_in H.
  - right. do 2 eexists. exact E.
  - left. injection H as <- <-. now split.
Qed.

Lemma manyP_total {T : Type} (p : Parser T) (s : ParseState) :
  (forall st, wellFormed st -> exists r, p st = Returns r) ->
  (forall st v st',
      wellFormed st -> p st = Returns (Success v st') ->
      wellFormed st' /\ (remaining st' < remaining st)%nat) ->
  wellFormed s ->
  exists vs s',
    forall n, (remaining s < n)%nat -> manyP n p s = Returns (Success vs s').
Proof.
  intros Hret Hadv Hs.
  destruct (Chain_exists p Hret Hadv (S (remaining s)) s Hs ltac:(lia))
    as (vs & s' & Hc & Hlen).
  exists vs, s'. intros n Hn. apply manyP_of_chain; [exact Hc|lia].
Qed.

Lemma spaces_total (s : ParseState) :
  wellFormed s ->
  exists ws s',
    forall n, (remaining s < n)%nat -> spaces n s = Returns (Success ws s').
Proof.
  apply manyP_total.
  - intros st [Hb _]. now apply predP_returns.
  - intros st v st'. apply predP_consumes.
Qed.

Lemma digitP_returns (s : ParseState) :
  inBounds s -> exists r, digitP s = Returns r.
Proof.
  intros Hs. unfold digitP, mapP.
  destruct (predP_returns isDigit s Hs) as [[c st|st e] ->]; now eexists.
Qed.

Lemma digitP_consumes (s st : ParseState) (v : Z) :
  wellFormed s -> digitP s = Returns (Success v st) ->
  wellFormed st /\ (remaining st < remaining s)%nat.
Proof.
  intros Hs H. apply mapP_success in H as (c & H & _).
  now apply (predP_consumes isDigit s st c).
Qed.

Lemma digits_total (s : ParseState) :
  wellFormed s ->
  exists vs s',
    forall n, (remaining s < n)%nat -> manyP n digitP s = Returns (Success vs s').
Proof.
  apply manyP_total.
  - intros st [Hb _]. now apply digitP_returns.
  - intros st v st'. apply digitP_consumes.
Qed.

(** ** Numbers over a longer input *)

Lemma Engine_wellFormed (T : Type) (p : Parser T) (s : ParseState)
  (r : ParseResult T) :
  Engine T p -> wellFormed s -> p s = Returns r -> wellFormed (state_of r).
Proof.
  intros Hp [Hb Hsz] Hr.
  destruct (Engine_keepsBounds T p Hp s r Hb Hr) as [Hb' Hi].
  split; [exact Hb'|now rewrite Hi].
Qed.

Lemma not_both {T : Type} (p : Parser T) (s : ParseState) :
  fails_at p s -> succeeds_at p s -> False.
Proof. intros (st & e & Hf) (v & s' & Hs). congruence. Qed.

Lemma someP_digits_stable (n : nat) (s s' : ParseState) (vs : list Z) :
  someP n digitP s = Returns (Success vs s') -> notAtEnd s' ->
  Stable (someP n digitP) s.
Proof.
  intros H Hend. unfold someP in *.
  apply andP_success in H as (a & sa & b & Ha & Hb & _).
  destruct (proj2 oneChar_digitP _ _ _ Ha) as [_ [c Hc]].
  apply Stable_andP; [now apply (proj1 oneChar_digitP s c)|].
  intros a' sa' Ha'. rewrite Ha in Ha'. injection Ha' as <- <-.
  now apply (manyP_oneChar_stable digitP n oneChar_digitP sa b s').
Qed.

Lemma someP_digits_ext (s : ParseState) (x : string) :
  wellFormed (ext x s) ->
  accepts (fun n => someP n digitP) s -> accepts (fun n => someP n digitP) (ext x s).
Proof.
  intros Hwf (n & v & s' & H). unfold someP in H.
  apply andP_success in H as (a & sa & b & Ha & _ & _).
  destruct (proj2 oneChar_digitP _ _ _ Ha) as [_ [c Hc]].
  pose proof (Stable_success _ _ _ _ x (proj1 oneChar_digitP s c Hc) Ha) as Ha'.
  destruct (digitP_consumes _ _ _ Hwf Ha') as [Hwf' _].
  destruct (digits_total _ Hwf') as (vs & s'' & Hm).
  exists (S (remaining (ext x sa))), (a :: vs), s''.
  unfold someP, andP. rewrite Ha'. cbn [bind].
  rewrite (Hm (S (remaining (ext x sa))) ltac:(lia)). reflexivity.
Qed.

Lemma natP_stable (n : nat) (s s' : ParseState) (v : Z) :
  natP n s = Returns (Success v s') -> notAtEnd s' -> Stable (natP n) s.
Proof.
  intros H Hend. unfold natP in *. apply mapP_success in H as (vs & H & _).
  apply Stable_mapP. now apply (someP_digits_stable n s s' vs).
Qed.

Lemma natP_ext (s : ParseState) (x : string) :
  wellFormed (ext x s) -> accepts natP s -> accepts natP (ext x s).
Proof.
  intros Hwf (n & v & s' & H). unfold natP in H.
  apply mapP_success in H as (vs & H & _).
  destruct (someP_digits_ext s x Hwf) as (m & vs' & s'' & H');
    [now exists n, vs, s'|].
  exists m, (natOf vs'), s''. unfold natP, mapP. now rewrite H'.
Qed.

Lemma natP_starts (n : nat) (s s' : ParseState) (v : Z) :
  natP n s = Returns (Success v s') -> exists c, ahead s c /\ isDigit c = true.
Proof.
  unfold natP, someP. intros H.
  apply mapP_success in H as (vs & H & _).
  apply andP_success in H as (a & sa & b & Ha & _ & _).
  apply mapP_success in Ha as (c & Hc & _).
  apply predP_success_inv in Hc as (Hc & Hd & _). now exists c.
Qed.

Lemma intP_on_digit (n : nat) (s : ParseState) (c : ascii) :
  ahead s c -> isDigit c = true -> intP n s = natP n s.
Proof.
  intros Hc Hd. unfold intP. cbn [orP]. unfold mapP at 1, rightP, andP.
  now rewrite (charP_mismatch "-" c s Hc (digit_not_minus c Hd)).
Qed.

Lemma charP_read (c : ascii) (s : ParseState) :
  ahead s c -> charP c s = Returns (Success c (advance s)).
Proof. intros Hc. apply predP_accept; [exact Hc|apply Ascii.eqb_refl]. Qed.

Lemma charP_success_inv (c a : ascii) (s sa : ParseState) :
  charP c s = Returns (Success a sa) -> ahead s c /\ a = c /\ sa = advance s.
Proof.
  intros H. apply predP_success_inv in H as (Ha & He & ->).
  apply Ascii.eqb_eq in He. subst a. now repeat split.
Qed.

Lemma intP_on_minus (n : nat) (s s' : ParseState) (b : Z) :
  ahead s "-"%char -> natP n (advance s) = Returns (Success b s') ->
  intP n s = Returns (Success (negate b) s').
Proof.
  intros Hc Hn. unfold intP. cbn [orP]. unfold mapP at 1, rightP, andP.
  rewrite (charP_read "-" s Hc). cbn [bind].
  now rewrite Hn.
Qed.

Lemma intP_cases (n : nat) (s s' : ParseState) (v : Z) :
  intP n s = Returns (Success v s') ->
  (ahead s "-"%char /\ exists b, natP n (advance s) = Returns (Success b s'))
  \/ (exists c, ahead s c /\ isDigit c = true /\ natP n s = Returns (Success v s')).
Proof.
  unfold intP. intros H. apply orP_success in H as [H|[_ H]].
  - left. apply mapP_success in H as (b & H & _).
    apply andP_success in H as (a & sa & b' & Ha & Hb & ->).
    apply charP_success_inv in Ha as (Ha & _ & ->).
    split; [exact Ha|now exists b'].
  - right. cbn [orP] in H. destruct (natP_starts _ _ _ _ H) as (c & Hc & Hd).
    now exists c.
Qed.

Lemma intP_stable (n : nat) (s s' : ParseState) (v : Z) :
  intP n s = Returns (Success v s') -> notAtEnd s' -> Stable (intP n) s.
Proof.
  intros H Hend. destruct (intP_cases _ _ _ _ H) as [[Hm (b & Hb)]|(c & Hc & Hd & Hn)].
  - unfold intP. apply Stable_orP.
    + apply Stable_mapP, Stable_andP; [now apply (Stable_predP _ s "-")|].
      intros a sa Ha. apply charP_success_inv in Ha as (_ & _ & ->).
      now apply (natP_stable n _ s' b).
    + intros Hf. exfalso. apply (not_both _ _ Hf).
      exists (negate b), s'. unfold mapP, rightP, andP.
      rewrite (charP_read "-" s Hm). cbn [bind].
      now rewrite Hb.
  - unfold intP. apply Stable_orP.
    + apply Stable_mapP, Stable_andP; [now apply (Stable_predP _ s c)|].
      intros a sa Ha. exfalso.
      rewrite (charP_mismatch "-" c s Hc (digit_not_minus c Hd)) in Ha.
      discriminate.
    + intros _. cbn [orP]. now apply (natP_stable n s s' v).
Qed.

Lemma intP_ext (s : ParseState) (x : string) :
  wellFormed (ext x s) -> accepts intP s -> accepts intP (ext x s).
Proof.
  intros Hwf (n & v & s' & H).
  destruct (intP_cases _ _ _ _ H) as [[Hm (b & Hb)]|(c & Hc & Hd & Hn)].
  - assert (Hwf' : wellFormed (ext x (advance s))).
    { apply (predP_consumes _ (ext x s) _ "-" Hwf (charP_read "-" _ (ahead_ext x s _ Hm))). }
    destruct (natP_ext (advance s) x Hwf') as (m & b' & t & Hb');
      [now exists n, b, s'|].
    exists m, (negate b'), t. apply intP_on_minus; [now apply ahead_ext|].
    exact Hb'.
  - destruct (natP_ext s x Hwf) as (m & b' & t & Hb'); [now exists n, v, s'|].
    exists m, b', t. rewrite (intP_on_digit m _ c (ahead_ext x s c Hc) Hd).
    exact Hb'.
Qed.

Lemma doubleP_cases (n : nat) (s s' : ParseState) (v : float) :
  doubleP n s = Returns (Success v s') ->
  (exists a sa b, intP n s = Returns (Success a sa)
                  /\ fractionP n sa = Returns (Success b s'))
  \/ (exists a, intP n s = Returns (Success a s')
                /\ fails_at (fractionP n) s').
Proof.
  unfold doubleP. intros H. apply orP_success in H as [H|[Hf H]].
  - left. apply andP_success in H as (a & sa & b & Ha & Hb & _).
    now exists a, sa, b.
  - right. cbn [orP] in H. apply mapP_success in H as (a & Ha & _).
    exists a. split; [exact Ha|].
    destruct Hf as (st & e & Hf). unfold andP in Hf. rewrite Ha in Hf.
    cbn [bind] in Hf. fold (fractionP n) in Hf.
    destruct (fractionP n s') as [[b sb|st' e']| |] eqn:E; try discriminate.
    do 2 eexists. exact E.
Qed.

Lemma fractionP_stable (n : nat) (s s' : ParseState) (v : float) :
  fractionP n s = Returns (Success v s') -> notAtEnd s' -> Stable (fractionP n) s.
Proof.
  unfold fractionP, rightP. intros H Hend.
  apply andP_success in H as (a & sa & b & Ha & Hb & _).
  apply charP_success_inv in Ha as (Hc & _ & ->).
  apply mapP_success in Hb as (vs & Hb & _).
  apply Stable_andP; [now apply (Stable_predP _ s ".")|].
  intros a' sa' Ha'. apply charP_success_inv in Ha' as (_ & _ & ->).
  apply Stable_mapP. now apply (someP_digits_stable n _ s' vs).
Qed.

(** [doubleP] is stable when it stops in front of a character other
    than ['.']. *)
Lemma doubleP_stable (n : nat) (s s' : ParseState) (v : float) (d : ascii) :
  doubleP n s = Returns (Success v s') -> ahead s' d -> Ascii.eqb "." d = false ->
  Stable (doubleP n) s.
Proof.
  intros H Hd Hne.
  destruct (doubleP_cases _ _ _ _ H) as [(a & sa & b & Ha & Hb)|(a & Ha & Hf)];
    unfold doubleP; fold (fractionP n).
  - assert (Hsa : notAtEnd sa).
    { unfold fractionP, rightP in Hb.
      apply andP_success in Hb as (c & sc & b' & Hc & _ & _).
      apply charP_success_inv in Hc as (Hc & _ & _). now exists "."%char. }
    apply Stable_orP.
    + apply Stable_andP; [now apply (intP_stable n s sa a)|].
      intros a' sa' Ha'. rewrite Ha in Ha'. injection Ha' as <- <-.
      apply (fractionP_stable n sa s' b Hb). now exists d.
    + intros Hf. exfalso. apply (not_both _ _ Hf).
      do 2 eexists. unfold andP. rewrite Ha. cbn [bind]. rewrite Hb. reflexivity.
  - assert (Hint : Stable (intP n) s)
      by (apply (intP_stable n s s' a Ha); now exists d).
    apply Stable_orP.
    + apply Stable_andP; [exact Hint|].
      intros a' sa' Ha'. rewrite Ha in Ha'. injection Ha' as <- <-.
      unfold fractionP, rightP.
      apply Stable_andP; [now apply (Stable_predP _ s' d)|].
      intros c sc Hc. exfalso.
      rewrite (charP_mismatch "." d s' Hd Hne) in Hc. discriminate.
    + intros _. cbn [orP]. now apply Stable_mapP.
Qed.

Lemma fractionP_returns (s : ParseState) :
  wellFormed s ->
  exists m, forall n, (m <= n)%nat -> exists r, fractionP n s = Returns r.
Proof.
  intros Hwf. unfold fractionP, rightP, andP.
  destruct (predP_returns (fun x => Ascii.eqb "." x) s (proj1 Hwf)) as [[c sc|st e] Hc].
  - destruct (predP_consumes _ _ _ _ Hwf Hc) as [Hwf1 _].
    destruct (digitP_returns sc (proj1 Hwf1)) as [[v sd|st e] Hd].
    + destruct (digitP_consumes _ _ _ Hwf1 Hd) as [Hwf2 _].
      destruct (digits_total _ Hwf2) as (vs & s' & Hm).
      exists (S (remaining sd)). intros n Hn.
      unfold charP. rewrite Hc. cbn [bind].
      unfold mapP, someP, andP. rewrite Hd. cbn [bind].
      rewrite (Hm n ltac:(lia)). now eexists.
    + exists O. intros n _. unfold charP. rewrite Hc. cbn [bind].
      unfold mapP, someP, andP. rewrite Hd. now eexists.
  - exists O. intros n _. unfold charP. rewrite Hc. now eexists.
Qed.

Lemma doubleP_ext (s : ParseState) (x : string) :
  wellFormed (ext x s) -> accepts doubleP s -> accepts doubleP (ext x s).
Proof.
  intros Hwf (n & v & s' & H).
  assert (Hint : accepts intP s).
  { destruct (doubleP_cases _ _ _ _ H) as [(a & sa & b & Ha & _)|(a & Ha & _)];
      exists n, a; eexists; exact Ha. }
  destruct (intP_ext s x Hwf Hint) as (m & a & t & Ha).
  pose proof (Engine_wellFormed _ _ _ _ (Engine_intP m) Hwf Ha) as Hwt.
  simpl in Hwt.
  destruct (fractionP_returns t Hwt) as (m' & Hret).
  destruct (Hret (m + m')%nat ltac:(lia)) as [r Hr].
  pose proof (intP_refines m (m + m') ltac:(lia) _ _ Ha) as Ha'.
  exists (m + m')%nat. unfold doubleP. fold (fractionP (m + m')).
  cbn [orP]. unfold andP, mapP. rewrite Ha'. cbn [bind]. rewrite Hr.
  destruct r as [b sb|st e]; cbn [bind]; now do 2 eexists.
Qed.

(** ** trimP over a longer input *)

Lemma spaces_stable (n : nat) (s s' : ParseState) (ws : list ascii) :
  spaces n s = Returns (Success ws s') -> notAtEnd s' -> Stable (spaces n) s.
Proof. apply (manyP_oneChar_stable space n oneChar_space). Qed.

Lemma spaces_first (n : nat) (s s' : ParseState) (ws : list ascii) :
  spaces n s = Returns (Success ws s') ->
  s' = s \/ exists c, ahead s c /\ isSpace c = true.
Proof.
  intros H. destruct (manyP_first _ _ _ _ _ H) as [[_ ->]|(c & sc & Hc)];
    [now left|right].
  apply (predP_success_inv isSpace) in Hc as (Hc & Hsp & _). now exists c.
Qed.

Lemma trimP_stable {T : Type} (n : nat) (p : Parser T) (D : ascii -> Prop)
  (s s' : ParseState) (v : T) (d : ascii) :
  (forall s0 v0 s1 d1,
      p s0 = Returns (Success v0 s1) -> ahead s1 d1 -> D d1 -> Stable p s0) ->
  (forall s0 v0 s1, p s0 = Returns (Success v0 s1) -> notAtEnd s0) ->
  (forall c, isSpace c = true -> D c) ->
  trimP n p s = Returns (Success v s') -> ahead s' d -> D d ->
  Stable (trimP n p) s.
Proof.
  intros Hloc Hstrict Hsp H Hd HD.
  apply trimP_success in H as (ws & s0 & s1 & ws' & H0 & Hp & H1).
  unfold trimP, rightP, leftP.
  apply Stable_andP; [apply (spaces_stable n s s0 ws H0), (Hstrict _ _ _ Hp)|].
  intros a sa Ha. rewrite H0 in Ha. injection Ha as <- <-.
  apply Stable_andP.
  - destruct (spaces_first _ _ _ _ H1) as [->|(c & Hc & Hcs)].
    + now apply (Hloc s0 v s1 d).
    + apply (Hloc s0 v s1 c Hp Hc). now apply Hsp.
  - intros b sb Hb. rewrite Hp in Hb. injection Hb as <- <-.
    apply (spaces_stable n s1 s' ws' H1). now exists d.
Qed.

Lemma trimP_ext {T : Type} (P : nat -> Parser T) :
  (forall n m, (n <= m)%nat -> refines (P n) (P m)) ->
  (forall s x, wellFormed (ext x s) -> accepts P s -> accepts P (ext x s)) ->
  (forall n s0 v0 s1, P n s0 = Returns (Success v0 s1) -> notAtEnd s0) ->
  (forall n, Engine T (P n)) ->
  forall s x, wellFormed (ext x s) ->
  accepts (fun n => trimP n (P n)) s -> accepts (fun n => trimP n (P n)) (ext x s).
Proof.
  intros Hmono Hext Hstrict Heng s x Hwf (n & v & s' & H).
  apply trimP_success in H as (ws & s0 & s1 & ws' & H0 & Hp & _).
  pose proof (Stable_success _ _ _ _ x
                (spaces_stable n s s0 ws H0 (Hstrict _ _ _ _ Hp)) H0) as H0'.
  pose proof (Engine_wellFormed _ _ _ _ (Engine_spaces n) Hwf H0') as Hwf0.
  simpl in Hwf0.
  destruct (Hext s0 x Hwf0) as (m & v' & t & Hp'); [now exists n, v, s1|].
  pose proof (Engine_wellFormed _ _ _ _ (Heng m) Hwf0 Hp') as Hwt. simpl in Hwt.
  destruct (spaces_total t Hwt) as (ws'' & s'' & Ht).
  set (M := (n + m + S (remaining t))%nat).
  exists M, v', s''.
  unfold trimP, rightP, leftP, andP.
  rewrite (spaces_refines n M ltac:(lia) _ _ H0'). cbn [bind].
  rewrite (Hmono m M ltac:(lia) _ _ Hp'). cbn [bind].
  rewrite (Ht M ltac:(lia)). reflexivity.
Qed.

(** A core that is stable whenever it succeeds. *)
Lemma stable_ext {T : Type} (P : nat -> Parser T) :
  (forall n s v s', P n s = Returns (Success v s') -> Stable (P n) s) ->
  forall s x, wellFormed (ext x s) -> accepts P s -> accepts P (ext x s).
Proof.
  intros Hst s x _ (n & v & s' & H). exists n, v, (ext x s').
  now apply Stable_success; [apply (Hst n s v s')|].
Qed.

(** ** Literals *)

Lemma stringP_stable (str : string) :
  forall s v s', stringP str s = Returns (Success v s') -> Stable (stringP str) s.
Proof.
  induction str as [|c str IH]; intros s v s' H x; [reflexivity|].
  cbn [stringP] in *. step_in H. step_in H.
  apply charP_success_inv in E as (Hc & _ & ->).
  rewrite (charP_read c _ (ahead_ext x s c Hc)). cbn [bind].
  rewrite advance_ext, (IH _ _ _ E0 x), E0. reflexivity.
Qed.

Lemma stringP_starts (c : ascii) (str : string) (s s' : ParseState) (v : string) :
  stringP (String c str) s = Returns (Success v s') -> ahead s c.
Proof.
  cbn [stringP]. intros H. step_in H.
  now apply charP_success_inv in E as (Hc & _ & _).
Qed.

Lemma stringP_mismatch_stable (c a : ascii) (str : string) (s : ParseState) :
  ahead s a -> Ascii.eqb c a = false -> Stable (stringP (String c str)) s.
Proof.
  intros Ha Hne x.
  rewrite (stringP_mismatch c a str _ (ahead_ext x s a Ha) Hne).
  rewrite (stringP_mismatch c a str s Ha Hne). reflexivity.
Qed.

Lemma nullCore_stable (s s' : ParseState) (v : JsonValue) :
  nullCore s = Returns (Success v s') -> Stable nullCore s.
Proof.
  unfold nullCore. intros H. apply mapP_success in H as (a & H & _).
  apply Stable_mapP. now apply (stringP_stable _ s a s').
Qed.

Lemma nullCore_starts (s s' : ParseState) (v : JsonValue) :
  nullCore s = Returns (Success v s') -> ahead s "n"%char.
Proof.
  unfold nullCore. intros H. apply mapP_success in H as (a & H & _).
  now apply stringP_starts in H.
Qed.

Lemma boolCore_starts (s s' : ParseState) (v : JsonValue) :
  boolCore s = Returns (Success v s') -> ahead s "t"%char \/ ahead s "f"%char.
Proof.
  unfold boolCore. intros H. apply orP_success in H as [H|[_ H]].
  - left. apply mapP_success in H as (a & H & _). now apply stringP_starts in H.
  - right. cbn [orP] in H. apply mapP_success in H as (a & H & _).
    now apply stringP_starts in H.
Qed.

Lemma boolCore_stable (s s' : ParseState) (v : JsonValue) :
  boolCore s = Returns (Success v s') -> Stable boolCore s.
Proof.
  unfold boolCore. intros H. apply orP_success in H as [H|[_ H]].
  - apply mapP_success in H as (a & H & _). apply Stable_orP.
    + apply Stable_mapP. now apply (stringP_stable _ s a s').
    + intros Hf. exfalso. apply (not_both _ _ Hf).
      do 2 eexists. unfold mapP. now rewrite H.
  - cbn [orP] in H. apply mapP_success in H as (a & H & _).
    pose proof (stringP_starts _ _ _ _ _ H) as Hc.
    apply Stable_orP.
    + apply Stable_mapP. now apply (stringP_mismatch_stable "t" "f").
    + intros _. cbn [orP]. apply Stable_mapP.
      now apply (stringP_stable _ s a s').
Qed.

(** ** String literals over a longer input *)

Lemma ahead_not_end (s : ParseState) (c : ascii) :
  ahead s c -> pos s <> size (input s).
Proof. intros H. apply at_inside in H. lia. Qed.

Lemma idP_failure_end (s st : ParseState) (e : list string) :
  idP s = Returns (Failure st e) -> pos s = size (input s).
Proof.
  unfold idP. destruct (N.eqb_spec (pos s) (size (input s))) as [E|_]; [easy|].
  destruct (at_ (input s) (pos s)); discriminate.
Qed.

Lemma idP_success_inv (s s' : ParseState) (c : ascii) :
  idP s = Returns (Success c s') -> ahead s c /\ s' = advance s.
Proof.
  unfold idP, ahead. destruct (pos s =? size (input s)); [discriminate|].
  destruct (at_ (input s) (pos s)) as [c'|]; [|discriminate].
  intros H. injection H as <- <-. now split.
Qed.

Lemma escapeP_stable (s : ParseState) (c : ascii) : ahead s c -> Stable escapeP s.
Proof. intros Hc. apply Stable_mapP. now apply (Stable_idP s c). Qed.

Lemma strItem_cases (s s' : ParseState) (c : ascii) :
  strItem s = Returns (Success c s') ->
  (Stable strItem s /\ notAtEnd s)
  \/ (s' = advance s /\ pos s' = size (input s')).
Proof.
  unfold strItem. intros H. apply orP_success in H as [H|[Hf H]].
  - left. apply andP_success in H as (a & sa & b & Ha & Hb & _).
    apply charP_success_inv in Ha as (Ha & _ & ->).
    apply mapP_success in Hb as (c' & Hc' & _).
    apply idP_success_inv in Hc' as (Hc' & _).
    split; [|now exists "\"%char].
    apply Stable_orP.
    + apply Stable_andP; [now apply (Stable_predP _ s "\")|].
      intros a' sa' Ha'. apply charP_success_inv in Ha' as (_ & _ & ->).
      now apply (escapeP_stable _ c').
    + intros Hf. exfalso. apply (not_both _ _ Hf).
      do 2 eexists. unfold rightP, andP. rewrite (charP_read _ _ Ha). cbn [bind].
      unfold escapeP, mapP. rewrite (idP_read _ _ Hc'). reflexivity.
  - cbn [orP] in H. apply predP_success_inv in H as (Hc & _ & ->).
    destruct (Ascii.eqb "\" c) eqn:Hb.
    + right. apply Ascii.eqb_eq in Hb. subst c. split; [reflexivity|].
      destruct Hf as (st & e & Hf). unfold rightP, andP in Hf.
      rewrite (charP_read _ _ Hc) in Hf. cbn [bind] in Hf.
      unfold escapeP, mapP in Hf.
      destruct (idP (advance s)) as [[c' sc|st' e']| |] eqn:Hi; try discriminate.
      now apply idP_failure_end in Hi.
    + left. split; [|now exists c].
      apply Stable_orP.
      * apply Stable_andP; [now apply (Stable_predP _ s c)|].
        intros a sa Ha. rewrite (charP_mismatch _ _ _ Hc Hb) in Ha. discriminate.
      * intros _. cbn [orP]. now apply (Stable_predP _ s c).
Qed.

Lemma strItem_needs_char (s : ParseState) :
  succeeds_at strItem s -> notAtEnd s.
Proof.
  intros (c & s' & H). unfold strItem in H.
  apply orP_success in H as [H|[_ H]].
  - apply andP_success in H as (a & sa & b & Ha & _ & _).
    apply charP_success_inv in Ha as (Ha & _ & _). now exists "\"%char.
  - cbn [orP] in H. apply predP_success_inv in H as (Hc & _ & _). now exists c.
Qed.

Lemma strItem_failure_stable (s : ParseState) :
  fails_at strItem s -> notAtEnd s -> Stable strItem s.
Proof.
  intros Hf [a Ha]. unfold strItem in *.
  destruct (Ascii.eqb "\" a) eqn:Hb.
  - exfalso. apply Ascii.eqb_eq in Hb. subst a.
    destruct Hf as (st & e & Hf). cbn [orP] in Hf.
    unfold rightP, andP in Hf. rewrite (charP_read _ _ Ha) in Hf. cbn [bind] in Hf.
    destruct (escapeP (advance s)) as [[c sc|st' e']| |]; try discriminate.
    cbn [bind] in Hf.
    rewrite (predP_accept notQuote s "\" Ha eq_refl) in Hf. discriminate.
  - apply Stable_orP.
    + apply Stable_andP; [now apply (Stable_predP _ s a)|].
      intros c sc Hc. rewrite (charP_mismatch _ _ _ Ha Hb) in Hc. discriminate.
    + intros _. cbn [orP]. now apply (Stable_predP _ s a).
Qed.

Lemma strItems_stable (n : nat) :
  forall s cs s', manyP n strItem s = Returns (Success cs s') -> notAtEnd s' ->
  Stable (manyP n strItem) s.
Proof.
  induction n as [|n IH]; intros s cs s' H Hend; [apply Stable_manyP_O|].
  cbn [manyP] in H. step_in H.
  - step_in H. injection H as <- <-.
    destruct (strItem_cases _ _ _ E) as [[Hst _]|[-> Heof]].
    + apply Stable_manyP; [exact Hst|].
      intros v s1 Hv. rewrite E in Hv. injection Hv as <- <-.
      now apply (IH _ _ _ E0).
    + exfalso. destruct (manyP_first _ _ _ _ _ E0) as [[_ ->]|Hs].
      * destruct Hend as [c Hc]. now apply (ahead_not_end _ _ Hc).
      * destruct (strItem_needs_char _ Hs) as [c Hc].
        now apply (ahead_not_end _ _ Hc).
  - injection H as <- <-.
    apply Stable_manyP; [apply strItem_failure_stable; [do 2 eexists; exact E|exact Hend]|].
    intros v s1 Hv. rewrite E in Hv. discriminate.
Qed.

Lemma strCore_starts (n : nat) (s s' : ParseState) (v : string) :
  strCore n s = Returns (Success v s') -> ahead s quote.
Proof.
  unfold strCore. intros H.
  apply betweenP_success in H as (a & s0 & s1 & b & Ha & _ & _).
  now apply charP_success_inv in Ha as (Ha & _ & _).
Qed.

Lemma strCore_stable (n : nat) (s s' : ParseState) (v : string) :
  strCore n s = Returns (Success v s') -> Stable (strCore n) s.
Proof.
  unfold strCore. intros H.
  apply betweenP_success in H as (a & s0 & s1 & b & Ha & Hb & Hc).
  apply charP_success_inv in Ha as (Ha & _ & ->).
  apply charP_success_inv in Hc as (Hc & _ & _).
  apply mapP_success in Hb as (cs & Hcs & _).
  unfold betweenP, rightP, leftP.
  apply Stable_andP; [now apply (Stable_predP _ s quote)|].
  intros a' sa' Ha'. apply charP_success_inv in Ha' as (_ & _ & ->).
  apply Stable_andP.
  - apply Stable_mapP. apply (strItems_stable n _ cs s1 Hcs). now exists quote.
  - intros b' sb' Hb'. apply mapP_success in Hb' as (cs' & Hcs' & _).
    rewrite Hcs in Hcs'. injection Hcs' as <- <-.
    now apply (Stable_predP _ s1 quote).
Qed.

Lemma strCore_refines (n m : nat) : (n <= m)%nat -> refines (strCore n) (strCore m).
Proof. intros H. unfold strCore. auto 8 with mono. Qed.

Lemma Engine_strCore (n : nat) : Engine string (strCore n).
Proof.
  apply Engine_betweenP; try apply Engine_charP.
  apply E_mapP, E_manyP, E_orP; [|apply E_predP].
  apply Engine_rightP; [apply Engine_charP|apply E_mapP, E_idP].
Qed.

Lemma escapeStrP_stable (n : nat) (s s' : ParseState) (v : string) :
  escapeStrP n s = Returns (Success v s') -> notAtEnd s' ->
  Stable (escapeStrP n) s.
Proof.
  intros H [d Hd].
  apply (trimP_stable n (strCore n) (fun _ => True) s s' v d); try easy.
  - intros s0 v0 s1 d1 H0 _ _. now apply (strCore_stable n s0 s1 v0).
  - intros s0 v0 s1 H0. exists quote. now apply (strCore_starts n s0 s1 v0).
Qed.

Lemma escapeStrP_ext (s : ParseState) (x : string) :
  wellFormed (ext x s) -> accepts escapeStrP s -> accepts escapeStrP (ext x s).
Proof.
  apply (trimP_ext strCore).
  - exact strCore_refines.
  - apply stable_ext. intros n s0 v0 s1. apply strCore_stable.
  - intros n s0 v0 s1 H0. exists quote. now apply (strCore_starts n s0 s1 v0).
  - exact Engine_strCore.
Qed.

(** ** The six alternatives of jsonP, by their first character *)

Lemma arrayP_unfold (n : nat) : arrayP (S n) = trimP n (arrCore n).
Proof. reflexivity. Qed.

Lemma objectP_unfold (n : nat) : objectP (S n) = trimP n (objCore n).
Proof. reflexivity. Qed.

Lemma jsonP_unfold (n : nat) :
  jsonP (S n)
  = orP (nullP n) [boolP n; numP n; strP n;
                   lazyP (fun _ => arrayP n); lazyP (fun _ => objectP n)].
Proof. reflexivity. Qed.

Lemma rejectsChar_stable {T : Type} (p : Parser T) (c : ascii) (s : ParseState) :
  rejectsChar p c -> ahead s c -> Stable p s /\ fails_at p s.
Proof.
  intros Hr Hc. split.
  - intros x. now rewrite (Hr _ (ahead_ext x s c Hc)), (Hr s Hc).
  - do 2 eexists. exact (Hr s Hc).
Qed.

(** [trimP n p] in front of a character that [p] rejects. *)
Lemma trimP_rejects {T : Type} (n : nat) (p : Parser T) (s s0 : ParseState)
  (ws : list ascii) (c : ascii) :
  rejectsChar p c ->
  spaces n s = Returns (Success ws s0) -> ahead s0 c ->
  Stable (trimP n p) s /\ fails_at (trimP n p) s.
Proof.
  intros Hr Hs Hc. destruct (rejectsChar_stable p c s0 Hr Hc) as [Hst Hf].
  split.
  - unfold trimP, rightP, leftP.
    apply Stable_andP; [apply (spaces_stable n s s0 ws Hs); now exists c|].
    intros a sa Ha. rewrite Hs in Ha. injection Ha as <- <-.
    apply Stable_andP; [exact Hst|].
    intros b sb Hb. rewrite (Hr s0 Hc) in Hb. discriminate.
  - do 2 eexists. apply (trimP_failure _ _ _ _ _ _ _ Hs). exact (Hr s0 Hc).
Qed.

Lemma mapP_rejects {A B : Type} (p : Parser A) (f : A -> B) (c : ascii) :
  rejectsChar p c -> rejectsChar (mapP p f) c.
Proof. intros Hr s Hc. unfold mapP. now rewrite (Hr s Hc). Qed.

Lemma nullCore_rejects (c : ascii) :
  Ascii.eqb "n" c = false -> rejectsChar nullCore c.
Proof.
  intros Hne. apply mapP_rejects. intros s Hc. now apply stringP_mismatch.
Qed.

Lemma boolCore_rejects (c : ascii) :
  Ascii.eqb "t" c || Ascii.eqb "f" c = false -> rejectsChar boolCore c.
Proof.
  intros Hne. apply orb_false_iff in Hne as [Ht Hf]. intros s Hc.
  unfold boolCore. cbn [orP]. unfold mapP.
  rewrite (stringP_mismatch _ _ _ _ Hc Ht). cbn [bind].
  now rewrite (stringP_mismatch _ _ _ _ Hc Hf).
Qed.

Lemma numCore_rejects (n : nat) (c : ascii) :
  Ascii.eqb "-" c || isDigit c = false -> rejectsChar (numCore n) c.
Proof.
  intros Hne. apply orb_false_iff in Hne as [Hm Hd].
  apply mapP_rejects. intros s Hc. now apply doubleP_mismatch.
Qed.

Lemma betweenP_rejects {A : Type} (o cl c : ascii) (p : Parser A) :
  Ascii.eqb o c = false -> rejectsChar (betweenP (charP o) (charP cl) p) c.
Proof.
  intros Hne s Hc. unfold betweenP, rightP, andP.
  now rewrite (charP_mismatch _ _ _ Hc Hne).
Qed.

Lemma strCore_rejects (n : nat) (c : ascii) :
  Ascii.eqb quote c = false -> rejectsChar (strCore n) c.
Proof. apply betweenP_rejects. Qed.

Lemma arrCore_rejects (n : nat) (c : ascii) :
  Ascii.eqb "[" c = false -> rejectsChar (arrCore n) c.
Proof. apply betweenP_rejects. Qed.

Lemma objCore_rejects (n : nat) (c : ascii) :
  Ascii.eqb "{" c = false -> rejectsChar (objCore n) c.
Proof. apply betweenP_rejects. Qed.

Lemma kindOf_spec (c : ascii) :
  Ascii.eqb "n" c = Nat.eqb (kindOf c) 0
  /\ Ascii.eqb "t" c || Ascii.eqb "f" c = Nat.eqb (kindOf c) 1
  /\ Ascii.eqb "-" c || isDigit c = Nat.eqb (kindOf c) 2
  /\ Ascii.eqb quote c = Nat.eqb (kindOf c) 3
  /\ Ascii.eqb "[" c = Nat.eqb (kindOf c) 4
  /\ Ascii.eqb "{" c = Nat.eqb (kindOf c) 5.
Proof.
  destruct c as [[] [] [] [] [] [] [] []]; vm_compute; repeat split.
Qed.

Lemma trimP_lead {T : Type} (n : nat) (p : Parser T) (Q : ascii -> Prop)
  (s s' : ParseState) (v : T) :
  (forall s0 v0 s1, p s0 = Returns (Success v0 s1) -> exists c, ahead s0 c /\ Q c) ->
  trimP n p s = Returns (Success v s') ->
  exists ws s0 c, spaces n s = Returns (Success ws s0) /\ ahead s0 c /\ Q c.
Proof.
  intros Hq H. apply trimP_success in H as (ws & s0 & s1 & ws' & H0 & Hp & _).
  destruct (Hq _ _ _ Hp) as (c & Hc & HQ). now exists ws, s0, c.
Qed.

Lemma numCore_starts (n : nat) (s s' : ParseState) (v : JsonValue) :
  numCore n s = Returns (Success v s') ->
  exists c, ahead s c /\ Ascii.eqb "-" c || isDigit c = true.
Proof.
  unfold numCore. intros H. apply mapP_success in H as (a & H & _).
  assert (Hi : exists b sb, intP n s = Returns (Success b sb)).
  { destruct (doubleP_cases _ _ _ _ H) as [(b & sb & _ & Hb & _)|(b & Hb & _)];
      do 2 eexists; exact Hb. }
  destruct Hi as (b & sb & Hb).
  destruct (intP_cases _ _ _ _ Hb) as [[Hm _]|(c & Hc & Hd & _)].
  - now exists "-"%char.
  - exists c. split; [exact Hc|]. now rewrite Hd, orb_true_r.
Qed.

Lemma arrCore_starts (n : nat) (s s' : ParseState) (v : JsonValue) :
  arrCore n s = Returns (Success v s') -> ahead s "["%char.
Proof.
  unfold arrCore. intros H.
  apply betweenP_success in H as (a & s0 & s1 & b & Ha & _ & _).
  now apply charP_success_inv in Ha as (Ha & _ & _).
Qed.

Lemma objCore_starts (n : nat) (s s' : ParseState) (v : JsonValue) :
  objCore n s = Returns (Success v s') -> ahead s "{"%char.
Proof.
  unfold objCore. intros H.
  apply betweenP_success in H as (a & s0 & s1 & b & Ha & _ & _).
  now apply charP_success_inv in Ha as (Ha & _ & _).
Qed.

Lemma branch_lead (i n : nat) (s s' : ParseState) (v : JsonValue) :
  (i <= 5)%nat -> branchP i n s = Returns (Success v s') ->
  exists ws s0 c,
    spaces (spFuel i n) s = Returns (Success ws s0) /\ ahead s0 c /\ kindOf c = i.
Proof.
  intros Hi H.
  destruct i as [|[|[|[|[|[|i]]]]]]; [| | | | | |lia]; cbn [branchP spFuel Nat.ltb Nat.leb] in *.
  - apply (trimP_lead n nullCore (fun c => kindOf c = 0%nat) s s' v); [|exact H].
    intros s0 v0 s1 H0. exists "n"%char. split; [|reflexivity].
    now apply (nullCore_starts s0 s1 v0).
  - apply (trimP_lead n boolCore (fun c => kindOf c = 1%nat) s s' v); [|exact H].
    intros s0 v0 s1 H0.
    destruct (boolCore_starts _ _ _ H0); [exists "t"%char|exists "f"%char];
      now split.
  - apply (trimP_lead n (numCore n) (fun c => kindOf c = 2%nat) s s' v); [|exact H].
    intros s0 v0 s1 H0. destruct (numCore_starts _ _ _ _ H0) as (c & Hc & Hk).
    exists c. split; [exact Hc|].
    destruct (kindOf_spec c) as (_ & _ & E & _). rewrite Hk in E.
    symmetry in E. now apply Nat.eqb_eq in E.
  - unfold strP in H. apply mapP_success in H as (a & H & _).
    apply (trimP_lead n (strCore n) (fun c => kindOf c = 3%nat) s s' a); [|exact H].
    intros s0 v0 s1 H0. exists quote. split; [|reflexivity].
    now apply (strCore_starts n s0 s1 v0).
  - unfold lazyP in H. destruct n as [|k]; [discriminate|].
    rewrite arrayP_unfold in H. cbn [Nat.pred].
    apply (trimP_lead k (arrCore k) (fun c => kindOf c = 4%nat) s s' v); [|exact H].
    intros s0 v0 s1 H0. exists "["%char. split; [|reflexivity].
    now apply (arrCore_starts k s0 s1 v0).
  - unfold lazyP in H. destruct n as [|k]; [discriminate|].
    rewrite objectP_unfold in H. cbn [Nat.pred].
    apply (trimP_lead k (objCore k) (fun c => kindOf c = 5%nat) s s' v); [|exact H].
    intros s0 v0 s1 H0. exists "{"%char. split; [|reflexivity].
    now apply (objCore_starts k s0 s1 v0).
Qed.

Lemma mapP_fails {A B : Type} (p : Parser A) (f : A -> B) (s : ParseState) :
  fails_at p s -> fails_at (mapP p f) s.
Proof. intros (st & e & H). unfold fails_at, mapP. rewrite H. now do 2 eexists. Qed.

Lemma branch_miss (j n : nat) (s s0 : ParseState) (ws : list ascii) (c : ascii) :
  (j <= 5)%nat ->
  spaces (spFuel j n) s = Returns (Success ws s0) -> ahead s0 c -> kindOf c <> j ->
  Stable (branchP j n) s /\ fails_at (branchP j n) s.
Proof.
  intros Hj Hs Hc Hk.
  destruct (kindOf_spec c) as (E0 & E1 & E2 & E3 & E4 & E5).
  destruct j as [|[|[|[|[|[|j]]]]]]; [| | | | | |lia];
    cbn [branchP spFuel Nat.ltb Nat.leb] in *.
  - apply (trimP_rejects n nullCore s s0 ws c); try assumption.
    apply nullCore_rejects. rewrite E0. now apply Nat.eqb_neq.
  - apply (trimP_rejects n boolCore s s0 ws c); try assumption.
    apply boolCore_rejects. rewrite E1. now apply Nat.eqb_neq.
  - apply (trimP_rejects n (numCore n) s s0 ws c); try assumption.
    apply numCore_rejects. rewrite E2. now apply Nat.eqb_neq.
  - destruct (trimP_rejects n (strCore n) s s0 ws c) as [Hst Hf]; try assumption.
    { apply strCore_rejects. rewrite E3. now apply Nat.eqb_neq. }
    split; [now apply Stable_mapP|now apply mapP_fails].
  - destruct n as [|k]; [discriminate|]. cbn [Nat.pred] in Hs.
    unfold lazyP. rewrite arrayP_unfold.
    apply (trimP_rejects k (arrCore k) s s0 ws c); try assumption.
    apply arrCore_rejects. rewrite E4. now apply Nat.eqb_neq.
  - destruct n as [|k]; [discriminate|]. cbn [Nat.pred] in Hs.
    unfold lazyP. rewrite objectP_unfold.
    apply (trimP_rejects k (objCore k) s s0 ws c); try assumption.
    apply objCore_rejects. rewrite E5. now apply Nat.eqb_neq.
Qed.

Lemma orP_success_nth {T : Type} {C : RawAssignable T} (bs : list (Parser T)) :
  forall (p : Parser T) (s s' : ParseState) (v : T),
  orP p bs s = Returns (Success v s') ->
  exists i q,
    nth_error (p :: bs) i = Some q /\ q s = Returns (Success v s')
    /\ forall j b, (j < i)%nat -> nth_error (p :: bs) j = Some b -> fails_at b s.
Proof.
  induction bs as [|p' bs IH]; intros p s s' v H.
  - exists O, p. split; [reflexivity|]. split; [exact H|]. intros j b Hj. lia.
  - apply orP_success in H as [H|[Hf H]].
    + exists O, p. split; [reflexivity|]. split; [exact H|]. intros j b Hj. lia.
    + destruct (IH _ _ _ _ H) as (i & q & Hq & Hs & Hb).
      exists (S i), q. split; [exact Hq|]. split; [exact Hs|].
      intros j b Hj Hjb. destruct j as [|j].
      * injection Hjb as <-. exact Hf.
      * apply (Hb j b); [lia|exact Hjb].
Qed.

Lemma orP_select {T : Type} {C : RawAssignable T} (bs : list (Parser T)) :
  rawAssign T = true ->
  forall (p : Parser T) (i : nat) (q : Parser T) (s : ParseState),
  nth_error (p :: bs) i = Some q ->
  (forall j b, (j < i)%nat -> nth_error (p :: bs) j = Some b ->
               Stable b s /\ fails_at b s) ->
  succeeds_at q s ->
  orP p bs s = q s /\ (Stable q s -> Stable (orP p bs) s).
Proof.
  intros HC. induction bs as [|p' bs IH]; intros p i q s Hq Hb Hs.
  - destruct i as [|i]; simpl in Hq; [|destruct i; discriminate].
    injection Hq as <-. now split.
  - destruct i as [|i].
    + injection Hq as <-. split; [now apply orP_cons_success|].
      intros Hst. apply Stable_orP; [exact Hst|].
      intros Hf. exfalso. exact (not_both _ _ Hf Hs).
    + destruct (Hb O p ltac:(lia) eq_refl) as [Hpst Hpf].
      destruct (IH p' i q s Hq) as [E Hst];
        [intros j b Hj Hjb; apply (Hb (S j) b); [lia|exact Hjb] | exact Hs |].
      split; [now rewrite orP_cons_failure|].
      intros Hqs. apply Stable_orP; [exact Hpst|]. intros _. now apply Hst.
Qed.

Lemma branches_nth (n i : nat) (q : Parser JsonValue) :
  nth_error [nullP n; boolP n; numP n; strP n;
             lazyP (fun _ => arrayP n); lazyP (fun _ => objectP n)] i = Some q ->
  (i <= 5)%nat /\ q = branchP i n.
Proof.
  destruct i as [|[|[|[|[|[|i]]]]]]; simpl; intros H;
    try (injection H as <-; split; [lia|reflexivity]).
  destruct i; discriminate.
Qed.

Lemma spFuel_antitone (i j n : nat) : (j <= i)%nat -> (spFuel i n <= spFuel j n)%nat.
Proof.
  unfold spFuel. intros H.
  destruct (Nat.ltb_spec i 4), (Nat.ltb_spec j 4); lia.
Qed.

(** The alternative that [jsonP] takes, and why the ones before it fail. *)
Lemma jsonP_selects (n : nat) (s : ParseState) (i : nat) :
  (i <= 5)%nat -> succeeds_at (branchP i n) s ->
  jsonP (S n) s = branchP i n s
  /\ (Stable (branchP i n) s -> Stable (jsonP (S n)) s).
Proof.
  intros Hi Hs. pose proof Hs as (v & s' & Hv).
  destruct (branch_lead i n s s' v Hi Hv) as (ws & s0 & c & Hsp & Hc & Hk).
  rewrite jsonP_unfold. apply (orP_select _ eq_refl _ i).
  - destruct i as [|[|[|[|[|[|i]]]]]]; try reflexivity. lia.
  - intros j b Hj Hjb. apply branches_nth in Hjb as [Hj5 ->].
    apply (branch_miss j n s s0 ws c Hj5); [|exact Hc|lia].
    apply (spaces_refines (spFuel i n) (spFuel j n)); [|exact Hsp].
    apply spFuel_antitone. lia.
  - exact Hs.
Qed.

Lemma jsonP_success_branch (n : nat) (s s' : ParseState) (v : JsonValue) :
  jsonP (S n) s = Returns (Success v s') ->
  exists i, (i <= 5)%nat /\ branchP i n s = Returns (Success v s').
Proof.
  rewrite jsonP_unfold. intros H.
  apply orP_success_nth in H as (i & q & Hq & Hs & _).
  apply branches_nth in Hq as [Hi ->]. now exists i.
Qed.

(** ** Arrays and objects over a longer input *)

Lemma ahead_unique (s : ParseState) (c d : ascii) : ahead s c -> ahead s d -> c = d.
Proof. unfold ahead. congruence. Qed.

Lemma spaces_at_char_stable (n : nat) (s : ParseState) (c : ascii) :
  ahead s c -> isSpace c = false -> Stable (spaces n) s.
Proof.
  intros Hc Hf. destruct n as [|n]; [apply Stable_manyP_O|].
  apply Stable_manyP; [now apply (Stable_predP _ s c)|].
  intros v s1 Hv. change (space s) with (predP isSpace s) in Hv.
  rewrite (predP_reject _ _ _ Hc Hf) in Hv. discriminate.
Qed.

Lemma spaces_at_char (n : nat) (s s0 : ParseState) (ws : list ascii) (c : ascii) :
  ahead s c -> isSpace c = false ->
  spaces n s = Returns (Success ws s0) -> s0 = s.
Proof.
  intros Hc Hf H. destruct n as [|n]; [discriminate|].
  rewrite (spaces_none s c n Hc Hf) in H. now injection H as <- <-.
Qed.

(** In front of a character that the core rejects, [trimP] is stable at
    every recursion bound. *)
Lemma trimP_at_rejected {T : Type} (n : nat) (p : Parser T) (s : ParseState)
  (c : ascii) :
  rejectsChar p c -> ahead s c -> isSpace c = false -> Stable (trimP n p) s.
Proof.
  intros Hr Hc Hsp. unfold trimP, rightP, leftP.
  apply Stable_andP; [now apply (spaces_at_char_stable n s c)|].
  intros a sa Ha. apply (spaces_at_char n s sa a c Hc Hsp) in Ha. subst sa.
  apply Stable_andP; [now apply (rejectsChar_stable p c s Hr Hc)|].
  intros b sb Hb. rewrite (Hr s Hc) in Hb. discriminate.
Qed.

Lemma branch_at_rejected (j n : nat) (s : ParseState) (c : ascii) :
  (j <= 5)%nat -> ahead s c -> isSpace c = false -> kindOf c <> j ->
  Stable (branchP j n) s.
Proof.
  intros Hj Hc Hsp Hk.
  destruct (kindOf_spec c) as (E0 & E1 & E2 & E3 & E4 & E5).
  destruct j as [|[|[|[|[|[|j]]]]]]; [| | | | | |lia]; cbn [branchP].
  - apply (trimP_at_rejected n nullCore s c); try assumption.
    apply nullCore_rejects. rewrite E0. now apply Nat.eqb_neq.
  - apply (trimP_at_rejected n boolCore s c); try assumption.
    apply boolCore_rejects. rewrite E1. now apply Nat.eqb_neq.
  - apply (trimP_at_rejected n (numCore n) s c); try assumption.
    apply numCore_rejects. rewrite E2. now apply Nat.eqb_neq.
  - apply Stable_mapP. apply (trimP_at_rejected n (strCore n) s c); try assumption.
    apply strCore_rejects. rewrite E3. now apply Nat.eqb_neq.
  - unfold lazyP. destruct n as [|k]; [apply Stable_cut|]. rewrite arrayP_unfold.
    apply (trimP_at_rejected k (arrCore k) s c); try assumption.
    apply arrCore_rejects. rewrite E4. now apply Nat.eqb_neq.
  - unfold lazyP. destruct n as [|k]; [apply Stable_cut|]. rewrite objectP_unfold.
    apply (trimP_at_rejected k (objCore k) s c); try assumption.
    apply objCore_rejects. rewrite E5. now apply Nat.eqb_neq.
Qed.

Lemma Stable_orP_all {T : Type} {C : RawAssignable T} (bs : list (Parser T)) (s : ParseState) :
  forall p, Stable p s -> Forall (fun b => Stable b s) bs -> Stable (orP p bs) s.
Proof.
  induction bs as [|q bs IH]; intros p Hp Hall; [exact Hp|].
  inversion Hall as [|? ? Hq Hall']; subst.
  apply Stable_orP; [exact Hp|]. intros _. now apply IH.
Qed.

(** In front of a character that starts no value, [jsonP] is stable. *)
Lemma jsonP_at_rejected (n : nat) (s : ParseState) (c : ascii) :
  ahead s c -> isSpace c = false -> kindOf c = 6%nat -> Stable (jsonP n) s.
Proof.
  intros Hc Hsp Hk. destruct n as [|n]; [apply Stable_cut|].
  rewrite jsonP_unfold.
  assert (Hb : forall j, (j <= 5)%nat -> Stable (branchP j n) s).
  { intros j Hj. apply (branch_at_rejected j n s c Hj Hc Hsp). lia. }
  apply Stable_orP_all; [exact (Hb 0%nat ltac:(lia))|].
  repeat constructor.
  - exact (Hb 1%nat ltac:(lia)).
  - exact (Hb 2%nat ltac:(lia)).
  - exact (Hb 3%nat ltac:(lia)).
  - exact (Hb 4%nat ltac:(lia)).
  - exact (Hb 5%nat ltac:(lia)).
Qed.

Section SeparatedList.
Context {T R : Type} {C : RawAssignable R} (q : Parser T) (o close : ascii)
  (f : T -> list T -> R) (e : R).
Hypothesis close_not_comma : Ascii.eqb "," close = false.
Hypothesis q_stable : forall s v s' d,
  q s = Returns (Success v s') -> ahead s' d -> d = ","%char \/ d = close ->
  Stable q s.
Hypothesis q_at_close : forall s, ahead s close -> Stable q s.

Lemma separated_stable (n : nat) :
  forall s vs s',
  manyP n (rightP (charP ",") q) s = Returns (Success vs s') -> ahead s' close ->
  Stable (manyP n (rightP (charP ",") q)) s
  /\ (ahead s ","%char \/ ahead s close).
Proof.
  induction n as [|n IH]; intros s vs s' H Hcl; [discriminate|].
  cbn [manyP] in H. step_in H.
  - step_in H. injection H as <- <-.
    apply andP_success in E as (a & sa & b & Ha & Hb & ->).
    apply charP_success_inv in Ha as (Ha & _ & ->).
    destruct (IH _ _ _ E0 Hcl) as [Hst Hd].
    split; [|now left].
    apply Stable_manyP.
    + apply Stable_andP; [now apply (Stable_predP _ s ",")|].
      intros a' sa' Ha'. apply charP_success_inv in Ha' as (_ & _ & ->).
      destruct Hd as [Hd|Hd]; apply (q_stable _ _ _ _ Hb Hd); auto.
    + intros v s1 Hv. unfold rightP, andP in Hv.
      rewrite (charP_read _ _ Ha) in Hv. cbn [bind] in Hv. rewrite Hb in Hv.
      injection Hv as <- <-. exact Hst.
  - injection H as <- <-. split; [|now right].
    apply Stable_manyP.
    + apply Stable_andP; [now apply (Stable_predP _ s close)|].
      intros a sa Ha.
      rewrite (charP_mismatch _ _ _ Hcl close_not_comma) in Ha. discriminate.
    + intros v s1 Hv. rewrite E in Hv. discriminate.
Qed.

Lemma listCore_stable (n : nat) (s s' : ParseState) (v : R) :
  betweenP (charP o) (charP close)
    (orP (andP q (manyP n (rightP (charP ",") q)) f) [pureP e]) s
  = Returns (Success v s') ->
  Stable (betweenP (charP o) (charP close)
            (orP (andP q (manyP n (rightP (charP ",") q)) f) [pureP e])) s.
Proof.
  intros H. apply betweenP_success in H as (a & s0 & s1 & b & Ha & Hin & Hb).
  apply charP_success_inv in Ha as (Ha & _ & ->).
  apply charP_success_inv in Hb as (Hb & _ & _).
  unfold betweenP, leftP. unfold rightP at 1.
  apply Stable_andP; [now apply (Stable_predP _ s o)|].
  intros a' sa' Ha'. apply charP_success_inv in Ha' as (_ & _ & ->).
  apply Stable_andP.
  - apply orP_success in Hin as [Hin|[Hf Hin]].
    + apply andP_success in Hin as (x & sx & xs & Hx & Hxs & _).
      destruct (separated_stable n _ _ _ Hxs Hb) as [Hst Hd].
      apply Stable_orP.
      * apply Stable_andP.
        { destruct Hd as [Hd|Hd]; apply (q_stable _ _ _ _ Hx Hd); auto. }
        intros x' sx' Hx'. rewrite Hx in Hx'. injection Hx' as <- <-. exact Hst.
      * intros Hf. exfalso. apply (not_both _ _ Hf).
        do 2 eexists. unfold andP. rewrite Hx. cbn [bind]. rewrite Hxs. reflexivity.
    + cbn [orP] in Hin. injection Hin as <- <-.
      apply Stable_orP; [|intros _; apply Stable_pureP].
      apply Stable_andP; [now apply q_at_close|].
      intros x sx Hx. exfalso. destruct Hf as (st & e' & Hf).
      unfold andP in Hf. rewrite Hx in Hf. cbn [bind] in Hf.
      destruct (manyP n (rightP (charP ",") q) sx) as [[xs sxs|st' e'']| |] eqn:Hm;
        try discriminate.
      apply manyP_returns_chain in Hm as (? & ? & Hm & _). discriminate.
  - intros r sr Hr. rewrite Hin in Hr. injection Hr as <- <-.
    now apply (Stable_predP _ s1 close).
Qed.
End SeparatedList.

Lemma arrCore_stable (n : nat) (s s' : ParseState) (v : JsonValue) :
  JStable n -> arrCore n s = Returns (Success v s') -> Stable (arrCore n) s.
Proof.
  intros HJ. unfold arrCore. apply listCore_stable.
  - reflexivity.
  - intros s0 v0 s1 d H Hd [->| ->]; now apply (HJ s0 v0 s1 _ H Hd).
  - intros s0 H0. now apply (jsonP_at_rejected n s0 "]").
Qed.

Lemma itemP_stable (n : nat) (s s' : ParseState) (v : string * JsonValue)
  (d : ascii) :
  JStable n -> itemP n s = Returns (Success v s') -> ahead s' d ->
  Ascii.eqb "." d = false -> Stable (itemP n) s.
Proof.
  intros HJ H Hd Hne. unfold itemP in *.
  apply andP_success in H as (k & sk & x & Hk & Hx & _).
  apply andP_success in Hx as (a & sa & y & Ha & Hy & _).
  apply charP_success_inv in Ha as (Ha & _ & ->).
  apply Stable_andP; [apply (escapeStrP_stable n s sk k Hk); now exists ":"%char|].
  intros k' sk' Hk'. rewrite Hk in Hk'. injection Hk' as <- <-.
  apply Stable_andP; [now apply (Stable_predP _ sk ":")|].
  intros a' sa' Ha'. apply charP_success_inv in Ha' as (_ & _ & ->).
  now apply (HJ _ y s' d).
Qed.

Lemma itemP_at_brace (n : nat) (s : ParseState) :
  ahead s "}"%char -> Stable (itemP n) s.
Proof.
  intros Hc. unfold itemP.
  apply Stable_andP.
  - apply (trimP_at_rejected n (strCore n) s "}"); [|exact Hc|reflexivity].
    now apply strCore_rejects.
  - intros k sk Hk. exfalso.
    destruct (trimP_lead n (strCore n) (fun c => c = quote) s sk k) as
      (ws & s0 & c & Hs & Hq & ->); [|exact Hk|].
    + intros s0 v0 s1 H0. exists quote. split; [|reflexivity].
      now apply (strCore_starts n s0 s1 v0).
    + apply (spaces_at_char n s s0 ws "}" Hc eq_refl) in Hs. subst s0.
      pose proof (ahead_unique _ _ _ Hc Hq). discriminate.
Qed.

Lemma objCore_stable (n : nat) (s s' : ParseState) (v : JsonValue) :
  JStable n -> objCore n s = Returns (Success v s') -> Stable (objCore n) s.
Proof.
  intros HJ. unfold objCore. apply listCore_stable.
  - reflexivity.
  - intros s0 v0 s1 d H Hd [->| ->]; now apply (itemP_stable n s0 s1 v0 _ HJ H Hd).
  - intros s0 H0. now apply itemP_at_brace.
Qed.

Lemma space_not_dot (c : ascii) : isSpace c = true -> Ascii.eqb "." c = false.
Proof.
  intros H. destruct (Ascii.eqb_spec "." c) as [<-|]; [|reflexivity].
  vm_compute in H. discriminate.
Qed.

Lemma nullP_stable (n : nat) (s s' : ParseState) (v : JsonValue) :
  nullP n s = Returns (Success v s') -> notAtEnd s' -> Stable (nullP n) s.
Proof.
  intros H [d Hd].
  apply (trimP_stable n nullCore (fun _ => True) s s' v d); try easy.
  - intros s0 v0 s1 d1 H0 _ _. now apply (nullCore_stable s0 s1 v0).
  - intros s0 v0 s1 H0. exists "n"%char. now apply (nullCore_starts s0 s1 v0).
Qed.

Lemma boolP_stable (n : nat) (s s' : ParseState) (v : JsonValue) :
  boolP n s = Returns (Success v s') -> notAtEnd s' -> Stable (boolP n) s.
Proof.
  intros H [d Hd].
  apply (trimP_stable n boolCore (fun _ => True) s s' v d); try easy.
  - intros s0 v0 s1 d1 H0 _ _. now apply (boolCore_stable s0 s1 v0).
  - intros s0 v0 s1 H0.
    destruct (boolCore_starts _ _ _ H0); [now exists "t"%char|now exists "f"%char].
Qed.

Lemma numP_stable (n : nat) (s s' : ParseState) (v : JsonValue) (d : ascii) :
  numP n s = Returns (Success v s') -> ahead s' d -> Ascii.eqb "." d = false ->
  Stable (numP n) s.
Proof.
  intros H Hd Hne.
  apply (trimP_stable n (numCore n) (fun c => Ascii.eqb "." c = false) s s' v d);
    try assumption.
  - intros s0 v0 s1 d1 H0 Hd1 Hne1. unfold numCore in *.
    apply mapP_success in H0 as (a & H0 & _). apply Stable_mapP.
    now apply (doubleP_stable n s0 s1 a d1).
  - intros s0 v0 s1 H0. destruct (numCore_starts _ _ _ _ H0) as (c & Hc & _).
    now exists c.
  - exact space_not_dot.
Qed.

Lemma strP_stable (n : nat) (s s' : ParseState) (v : JsonValue) :
  strP n s = Returns (Success v s') -> notAtEnd s' -> Stable (strP n) s.
Proof.
  unfold strP. intros H Hend. apply mapP_success in H as (a & H & _).
  apply Stable_mapP. now apply (escapeStrP_stable n s s' a).
Qed.

Lemma arrayP_stable (n : nat) (s s' : ParseState) (v : JsonValue) :
  JStable n -> arrayP (S n) s = Returns (Success v s') -> notAtEnd s' ->
  Stable (arrayP (S n)) s.
Proof.
  intros HJ H [d Hd]. rewrite arrayP_unfold in *.
  apply (trimP_stable n (arrCore n) (fun _ => True) s s' v d); try easy.
  - intros s0 v0 s1 d1 H0 _ _. now apply (arrCore_stable n s0 s1 v0).
  - intros s0 v0 s1 H0. exists "["%char. now apply (arrCore_starts n s0 s1 v0).
Qed.

Lemma objectP_stable (n : nat) (s s' : ParseState) (v : JsonValue) :
  JStable n -> objectP (S n) s = Returns (Success v s') -> notAtEnd s' ->
  Stable (objectP (S n)) s.
Proof.
  intros HJ H [d Hd]. rewrite objectP_unfold in *.
  apply (trimP_stable n (objCore n) (fun _ => True) s s' v d); try easy.
  - intros s0 v0 s1 d1 H0 _ _. now apply (objCore_stable n s0 s1 v0).
  - intros s0 v0 s1 H0. exists "{"%char. now apply (objCore_starts n s0 s1 v0).
Qed.

Lemma branch_stable (i n : nat) (s s' : ParseState) (v : JsonValue) (d : ascii) :
  (i <= 5)%nat -> (forall k, (k < n)%nat -> JStable k) ->
  branchP i n s = Returns (Success v s') -> ahead s' d ->
  Ascii.eqb "." d = false -> Stable (branchP i n) s.
Proof.
  intros Hi HJ H Hd Hne.
  assert (Hend : notAtEnd s') by now exists d.
  destruct i as [|[|[|[|[|[|i]]]]]]; [| | | | | |lia]; cbn [branchP] in *.
  - now apply (nullP_stable n s s' v).
  - now apply (boolP_stable n s s' v).
  - now apply (numP_stable n s s' v d).
  - now apply (strP_stable n s s' v).
  - unfold lazyP in *. destruct n as [|k]; [discriminate|].
    apply (arrayP_stable k s s' v); [apply HJ; lia|exact H|exact Hend].
  - unfold lazyP in *. destruct n as [|k]; [discriminate|].
    apply (objectP_stable k s s' v); [apply HJ; lia|exact H|exact Hend].
Qed.

Lemma jsonP_stable (n : nat) : JStable n.
Proof.
  induction n as [n IH] using (well_founded_induction lt_wf).
  intros s v s' d H Hd Hne. destruct n as [|n]; [discriminate|].
  destruct (jsonP_success_branch n s s' v H) as (i & Hi & Hb).
  apply (jsonP_selects n s i Hi); [do 2 eexists; exact Hb|].
  apply (branch_stable i n s s' v d Hi); try assumption.
  intros k Hk. apply IH. lia.
Qed.

(** ** Acceptance is kept when text is appended *)

Lemma Engine_arrCore (n : nat) : Engine JsonValue (arrCore n).
Proof.
  assert (Hlazy : Engine JsonValue (lazyP (fun _ => jsonP n)))
    by (apply E_lazyP, Engine_json).
  apply Engine_betweenP; try apply Engine_charP.
  apply E_orP; [|apply E_pureP].
  apply E_andP; [exact Hlazy|].
  apply E_manyP, Engine_rightP; [apply Engine_charP|exact Hlazy].
Qed.

Lemma Engine_itemP (n : nat) : Engine (string * JsonValue) (itemP n).
Proof.
  apply E_andP; [apply Engine_escapeStrP|].
  apply Engine_rightP; [apply Engine_charP|apply E_lazyP, Engine_json].
Qed.

Lemma Engine_objCore (n : nat) : Engine JsonValue (objCore n).
Proof.
  apply Engine_betweenP; try apply Engine_charP.
  apply E_orP; [|apply E_pureP].
  apply E_andP; [apply Engine_itemP|].
  apply E_manyP, Engine_rightP; [apply Engine_charP|apply Engine_itemP].
Qed.

Lemma arrCore_refines (n m : nat) : (n <= m)%nat -> refines (arrCore n) (arrCore m).
Proof.
  intros H. pose proof (jsonP_refines n m H) as HJ.
  assert (Hlazy : refines (lazyP (fun _ => jsonP n)) (lazyP (fun _ => jsonP m)))
    by exact HJ.
  unfold arrCore. apply betweenP_refines; auto with mono.
  apply orP_refines; [repeat constructor; auto with mono|].
  auto 6 with mono.
Qed.

Lemma itemP_refines (n m : nat) : (n <= m)%nat -> refines (itemP n) (itemP m).
Proof.
  intros H. pose proof (jsonP_refines n m H) as HJ.
  assert (Hlazy : refines (lazyP (fun _ => jsonP n)) (lazyP (fun _ => jsonP m)))
    by exact HJ.
  unfold itemP. auto 6 with mono.
Qed.

Lemma objCore_refines (n m : nat) : (n <= m)%nat -> refines (objCore n) (objCore m).
Proof.
  intros H. pose proof (itemP_refines n m H) as HI.
  unfold objCore. apply betweenP_refines; auto with mono.
  apply orP_refines; [repeat constructor; auto with mono|].
  auto 6 with mono.
Qed.

Lemma Engine_nullCore : Engine JsonValue nullCore.
Proof. apply E_mapP, E_stringP. Qed.

Lemma Engine_boolCore : Engine JsonValue boolCore.
Proof. apply E_orP; apply E_mapP, E_stringP. Qed.

Lemma nullP_ext (s : ParseState) (x : string) :
  wellFormed (ext x s) -> accepts nullP s -> accepts nullP (ext x s).
Proof.
  apply (trimP_ext (fun _ => nullCore)).
  - intros n m _. apply refines_refl.
  - apply stable_ext. intros n s0 v0 s1. apply nullCore_stable.
  - intros n s0 v0 s1 H0. exists "n"%char. now apply (nullCore_starts s0 s1 v0).
  - intros n. exact Engine_nullCore.
Qed.

Lemma boolP_ext (s : ParseState) (x : string) :
  wellFormed (ext x s) -> accepts boolP s -> accepts boolP (ext x s).
Proof.
  apply (trimP_ext (fun _ => boolCore)).
  - intros n m _. apply refines_refl.
  - apply stable_ext. intros n s0 v0 s1. apply boolCore_stable.
  - intros n s0 v0 s1 H0.
    destruct (boolCore_starts _ _ _ H0); [now exists "t"%char|now exists "f"%char].
  - intros n. exact Engine_boolCore.
Qed.

Lemma numCore_ext (s : ParseState) (x : string) :
  wellFormed (ext x s) -> accepts numCore s -> accepts numCore (ext x s).
Proof.
  intros Hwf (n & v & s' & H). unfold numCore in H.
  apply mapP_success in H as (a & H & _).
  destruct (doubleP_ext s x Hwf) as (m & a' & t & H'); [now exists n, a, s'|].
  exists m, (JSON_NUM a'), t. unfold numCore, mapP. now rewrite H'.
Qed.

Lemma numP_ext (s : ParseState) (x : string) :
  wellFormed (ext x s) -> accepts numP s -> accepts numP (ext x s).
Proof.
  apply (trimP_ext numCore).
  - intros n m H. unfold numCore. auto with mono.
  - exact numCore_ext.
  - intros n s0 v0 s1 H0. destruct (numCore_starts _ _ _ _ H0) as (c & Hc & _).
    now exists c.
  - intros n. apply E_mapP, Engine_doubleP.
Qed.

Lemma strP_ext (s : ParseState) (x : string) :
  wellFormed (ext x s) -> accepts strP s -> accepts strP (ext x s).
Proof.
  intros Hwf (n & v & s' & H). unfold strP in H.
  apply mapP_success in H as (a & H & _).
  destruct (escapeStrP_ext s x Hwf) as (m & a' & t & H'); [now exists n, a, s'|].
  exists m, (JSON_STRING a'), t. unfold strP, mapP. now rewrite H'.
Qed.

Lemma arrayP_ext (s : ParseState) (x : string) :
  wellFormed (ext x s) -> accepts arrayP s -> accepts arrayP (ext x s).
Proof.
  intros Hwf (n & v & s' & H). destruct n as [|k]; [discriminate|].
  rewrite arrayP_unfold in H.
  destruct (trimP_ext arrCore arrCore_refines) with (s := s) (x := x)
    as (m & v' & t & H'); try assumption.
  - apply stable_ext. intros n s0 v0 s1. apply arrCore_stable, jsonP_stable.
  - intros n s0 v0 s1 H0. exists "["%char. now apply (arrCore_starts n s0 s1 v0).
  - exact Engine_arrCore.
  - now exists k, v, s'.
  - exists (S m), v', t. rewrite arrayP_unfold. exact H'.
Qed.

Lemma objectP_ext (s : ParseState) (x : string) :
  wellFormed (ext x s) -> accepts objectP s -> accepts objectP (ext x s).
Proof.
  intros Hwf (n & v & s' & H). destruct n as [|k]; [discriminate|].
  rewrite objectP_unfold in H.
  destruct (trimP_ext objCore objCore_refines) with (s := s) (x := x)
    as (m & v' & t & H'); try assumption.
  - apply stable_ext. intros n s0 v0 s1. apply objCore_stable, jsonP_stable.
  - intros n s0 v0 s1 H0. exists "{"%char. now apply (objCore_starts n s0 s1 v0).
  - exact Engine_objCore.
  - now exists k, v, s'.
  - exists (S m), v', t. rewrite objectP_unfold. exact H'.
Qed.

Lemma branch_ext (i : nat) (s : ParseState) (x : string) :
  (i <= 5)%nat -> wellFormed (ext x s) ->
  accepts (branchP i) s -> accepts (branchP i) (ext x s).
Proof.
  intros Hi Hwf.
  destruct i as [|[|[|[|[|[|i]]]]]]; [| | | | | |lia]; cbn [branchP].
  - now apply nullP_ext.
  - now apply boolP_ext.
  - now apply numP_ext.
  - now apply strP_ext.
  - now apply arrayP_ext.
  - now apply objectP_ext.
Qed.

Lemma jsonP_ext (s : ParseState) (x : string) :
  wellFormed (ext x s) -> accepts jsonP s -> accepts jsonP (ext x s).
Proof.
  intros Hwf (n & v & s' & H). destruct n as [|k]; [discriminate|].
  destruct (jsonP_success_branch k s s' v H) as (i & Hi & Hb).
  destruct (branch_ext i s x Hi Hwf) as (m & v' & t & Hb'); [now exists k, v, s'|].
  exists (S m), v', t.
  destruct (jsonP_selects m (ext x s) i Hi) as [E _]; [do 2 eexists; exact Hb'|].
  now rewrite E.
Qed.

(** * Further properties *)

(** ** The end of the input *)

(** X1: From a state inside its input, [eofP] succeeds exactly where [idP]
    fails, and fails exactly where [idP] succeeds; from a state past the
    end of its input [eofP] fails while [idP] ends without a result;
    whatever [eofP] returns carries the state it was given. *)
Theorem eofP_complements_idP (s : ParseState) :
  (inBounds s ->
   (succeeds_at eofP s <-> fails_at idP s)
   /\ (fails_at eofP s <-> succeeds_at idP s))
  /\ (~ inBounds s -> fails_at eofP s /\ idP s = Fault)
  /\ (forall r, eofP s = Returns r -> state_of r = s).
Proof.
  split; [|split].
  - intros Hs. unfold succeeds_at, fails_at, eofP, idP.
    destruct (pos s =? size (input s)) eqn:E.
    + split; split; intros H.
      * now do 2 eexists.
      * now do 2 eexists.
      * destruct H as (st & e & H). discriminate.
      * destruct H as (v & st & H). discriminate.
    + apply N.eqb_neq in E.
      destruct (at_some (input s) (pos s)) as [c Hc]; [unfold inBounds in Hs; lia|].
      rewrite Hc. split; split; intros H.
      * destruct H as (v & st & H). discriminate.
      * destruct H as (st & e & H). discriminate.
      * now do 2 eexists.
      * now do 2 eexists.
  - intros Hs. unfold inBounds in Hs. split.
    + unfold fails_at, eofP. destruct (pos s =? size (input s)) eqn:E.
      * apply N.eqb_eq in E. lia.
      * now do 2 eexists.
    + apply idP_fault. lia.
  - intros r. unfold eofP. destruct (pos s =? size (input s)); intros [= <-]; reflexivity.
Qed.

(** ** stringP over the text *)

Lemma splits_ahead (s : ParseState) (pre rest : string) (c : ascii) :
  splits s pre rest -> ahead s c -> exists rest', rest = String c rest'.
Proof.
  intros [Hi Hp] H. unfold ahead, at_ in H. rewrite Hi, Hp in H.
  unfold size in H. rewrite Nat2N.id in H.
  destruct rest as [|d rest'].
  - rewrite get_none in H; [discriminate|]. rewrite length_append. simpl. lia.
  - rewrite get_append_head in H. injection H as ->. now eexists.
Qed.

Lemma stringP_reads (str : string) :
  forall (s : ParseState) (pre rest : string),
  size (input s) < 2 ^ 64 -> splits s pre (str ++ rest) ->
  exists s', stringP str s = Returns (Success str s')
             /\ splits s' (pre ++ str) rest /\ input s' = input s.
Proof.
  induction str as [|c str IH]; intros s pre rest Hsz Hs.
  - exists s. rewrite append_empty_r. simpl in Hs.
    split; [reflexivity|]. split; [exact Hs|reflexivity].
  - simpl in Hs. cbn [stringP].
    rewrite (charP_accept c s pre _ Hs). cbn [bind].
    destruct (IH (advance s) (pre ++ String c "") rest Hsz
                (splits_advance s pre _ c Hsz Hs)) as (s' & -> & Hs' & Hi).
    cbn [bind]. exists s'. split; [reflexivity|]. split; [|exact Hi].
    now rewrite append_assoc in Hs'.
Qed.

Lemma stringP_prefix (str : string) :
  forall (s : ParseState) (pre rest0 : string),
  size (input s) < 2 ^ 64 -> splits s pre rest0 ->
  succeeds_at (stringP str) s -> exists rest, rest0 = str ++ rest.
Proof.
  induction str as [|c str IH]; intros s pre rest0 Hsz Hs (v & s' & H).
  - now exists rest0.
  - cbn [stringP] in H. step_in H. step_in H.
    apply charP_success_inv in E as (Ha & _ & ->).
    destruct (splits_ahead s pre rest0 c Hs Ha) as [r1 ->].
    destruct (IH (advance s) (pre ++ String c "") r1 Hsz
                (splits_advance s pre _ c Hsz Hs)) as [rest ->].
    + do 2 eexists. exact E0.
    + now exists rest.
Qed.

(** X2: [stringP str] succeeds exactly when [str] is a prefix of the
    text that remains; its value is then [str], and its state stands
    [size str] characters further in the same input. *)
Theorem stringP_matches_prefix (str : string) (s : ParseState) (pre rest0 : string)
  (Hsz : size (input s) < 2 ^ 64)
  (Hs : splits s pre rest0) :
  (succeeds_at (stringP str) s <-> exists rest, rest0 = str ++ rest)
  /\ (forall v s', stringP str s = Returns (Success v s') ->
        v = str /\ input s' = input s /\ pos s' = pos s + size str).
Proof.
  split.
  - split.
    + now apply (stringP_prefix str s pre rest0).
    + intros [rest ->].
      destruct (stringP_reads str s pre rest Hsz Hs) as (s' & H & _).
      do 2 eexists. exact H.
  - intros v s' H.
    destruct (stringP_prefix str s pre rest0 Hsz Hs) as [rest ->];
      [do 2 eexists; exact H|].
    destruct (stringP_reads str s pre rest Hsz Hs) as (s1 & H1 & [_ Hp] & Hi).
    rewrite H1 in H. injection H as <- <-. repeat split; [exact Hi|].
    rewrite Hp. destruct Hs as [_ ->]. unfold size. rewrite length_append. lia.
Qed.

Lemma stringP_matches_prefix_witness :
  (succeeds_at (stringP "nul") (mkState 1 " null")
   <-> exists rest, "null" = "nul" ++ rest)
  /\ (forall v s', stringP "nul" (mkState 1 " null") = Returns (Success v s') ->
        v = "nul" /\ input s' = " null" /\ pos s' = 1 + size "nul").
Proof.
  apply (stringP_matches_prefix "nul" (mkState 1 " null") " " "null").
  - reflexivity.
  - split; reflexivity.
Defined.

(** X3: [stringP] returns a failure only at the first character of the
    literal: when the character ahead differs from it, the failure is
    [unexpect x] at the state after [x], and at the end of the input it is
    [end of file].  Once a non-empty part [m] of the literal has matched,
    a character that differs, or the end of the input, makes the inner
    call fail, and [return rs] copies a failed result: the call ends
    without a result. *)
Theorem stringP_failure (m tail pre : string) (c : ascii) (s : ParseState)
  (Hsz : size (input s) < 2 ^ 64) :
  (forall x rest,
      splits s pre (m ++ String x rest) -> Ascii.eqb c x = false ->
      stringP (m ++ String c tail) s
      = match m with
        | "" => Returns (Failure (mkState (size pre + 1) (input s)) (unexpect x))
        | String _ _ => Fault
        end)
  /\ (splits s pre m ->
      stringP (m ++ String c tail) s
      = match m with
        | "" => Returns (Failure (mkState (size pre) (input s)) ["end of file"])
        | String _ _ => Fault
        end).
Proof.
  revert pre s Hsz. induction m as [|a m IH]; intros pre s Hsz.
  - split.
    + intros x rest Hs Hx. simpl in Hs. simpl append.
      rewrite (stringP_mismatch c x tail s (splits_at s pre rest x Hs) Hx).
      assert (Hlt : pos s < size (input s))
        by (apply (at_inside _ _ x); now apply (splits_at s pre rest)).
      destruct Hs as [_ Hp]. unfold advance. rewrite u64_small by lia.
      now rewrite Hp.
    + intros Hs. simpl append. cbn [stringP]. unfold charP.
      rewrite predP_eof by exact (splits_eof s pre Hs). cbn [bind].
      destruct s as [p i]. destruct Hs as [_ Hp]. simpl in *. now subst.
  - split.
    + intros x rest Hs Hx. simpl in Hs. simpl append. cbn [stringP].
      rewrite (charP_accept a s pre _ Hs). cbn [bind].
      destruct (IH (pre ++ String a "") (advance s) Hsz) as [H1 _].
      rewrite (H1 x rest (splits_advance s pre _ a Hsz Hs) Hx).
      now destruct m.
    + intros Hs. simpl append. cbn [stringP].
      assert (Hs' : splits s pre (String a (m ++ ""))) by now rewrite append_empty_r.
      rewrite (charP_accept a s pre _ Hs'). cbn [bind].
      destruct (IH (pre ++ String a "") (advance s) Hsz) as [_ H2].
      rewrite H2.
      * now destruct m.
      * apply splits_advance in Hs'; [|exact Hsz]. now rewrite append_empty_r in Hs'.
Qed.

Lemma stringP_failure_witness :
  stringP "null" (initial "nuxl") = Fault
  /\ stringP "null" (initial "nu") = Fault.
Proof.
  split.
  - destruct (stringP_failure "nu" "l" "" "l" (initial "nuxl") eq_refl) as [H _].
    exact (H "x"%char "l" (conj eq_refl eq_refl) eq_refl).
  - destruct (stringP_failure "nu" "l" "" "l" (initial "nu") eq_refl) as [_ H].
    exact (H (conj eq_refl eq_refl)).
Defined.

(** ** oneOfP *)

Lemma fold_or_In (c : ascii) (l : list ascii) :
  forall b : bool,
  fold_left (fun t x => t || Ascii.eqb c x) l b = true <-> b = true \/ In c l.
Proof.
  induction l as [|a l IH]; intros b; simpl.
  - tauto.
  - rewrite IH, orb_true_iff, Ascii.eqb_eq. intuition congruence.
Qed.

(** X4: [oneOfP str] accepts the character ahead exactly when it occurs
    in [str], and otherwise rejects it with [unexpect c] at the state
    after it; on a string of one character it is [charP]. *)
Theorem oneOfP_membership (str : string) (s : ParseState) (c : ascii)
  (Hc : ahead s c) :
  (In c (list_ascii_of_string str) ->
   oneOfP str s = Returns (Success c (advance s)))
  /\ (~ In c (list_ascii_of_string str) ->
      oneOfP str s = Returns (Failure (advance s) (unexpect c)))
  /\ (forall d, oneOfP (String d "") s = charP d s).
Proof.
  split; [|split].
  - intros Hin. apply predP_accept; [exact Hc|].
    apply fold_or_In. now right.
  - intros Hin. apply predP_reject; [exact Hc|].
    destruct (fold_left _ _ false) eqn:E; [|reflexivity].
    apply fold_or_In in E as [E|E]; [discriminate|contradiction].
  - intros d. unfold oneOfP, charP, predP. rewrite (idP_read s c Hc). simpl.
    now rewrite Ascii.eqb_sym.
Qed.

Lemma oneOfP_membership_witness :
  (In "b"%char (list_ascii_of_string "abc") ->
   oneOfP "abc" (initial "b") = Returns (Success "b"%char (advance (initial "b"))))
  /\ (~ In "b"%char (list_ascii_of_string "abc") ->
      oneOfP "abc" (initial "b")
      = Returns (Failure (advance (initial "b")) (unexpect "b")))
  /\ (forall d, oneOfP (String d "") (initial "b") = charP d (initial "b")).
Proof. exact (oneOfP_membership "abc" (initial "b") "b" eq_refl). Defined.

(** ** manyP and someP *)

Lemma Chain_end {T : Type} (p : Parser T) (s s' : ParseState) (vs : list T) :
  Chain p s vs s' -> fails_at p s'.
Proof.
  induction 1 as [s st e H|s s1 s' v vs _ _ IH]; [now exists st, e|exact IH].
Qed.

Lemma manyP_stops {T : Type} (n : nat) (p : Parser T) (s s' : ParseState)
  (vs : list T) :
  manyP n p s = Returns (Success vs s') ->
  fails_at p s' /\ manyP n p s' = Returns (Success [] s').
Proof.
  intros H.
  destruct (manyP_returns_chain p n s _ H) as (vs' & s1 & [= <- <-] & Hc).
  pose proof (Chain_end p s s' vs Hc) as Hf. split; [exact Hf|].
  destruct n as [|n]; [discriminate|].
  destruct Hf as (st & e & Hf). cbn [manyP]. now rewrite Hf.
Qed.

(** X5: Where [p] succeeds, [someP p] is [manyP p] unfolded once; where
    [p] fails, [someP p] fails with the failure of [p] while [manyP p]
    succeeds with the empty list; a failure of [someP p] is always that
    first failure of [p], and its value is never the empty list. *)
Theorem someP_after_first {T : Type} (n : nat) (p : Parser T) (s : ParseState) :
  (succeeds_at p s -> someP n p s = manyP (S n) p s)
  /\ (forall st e, p s = Returns (Failure st e) ->
        someP n p s = Returns (Failure st e)
        /\ manyP (S n) p s = Returns (Success [] s))
  /\ (forall st e, someP n p s = Returns (Failure st e) ->
        p s = Returns (Failure st e))
  /\ (forall vs s', someP n p s = Returns (Success vs s') -> vs <> []).
Proof.
  split; [|split; [|split]].
  - intros (v & s1 & H). unfold someP, andP. cbn [manyP]. rewrite H. cbn [bind].
    destruct (manyP n p s1) as [r| |] eqn:E; [|reflexivity|reflexivity].
    destruct (manyP_returns_chain p n s1 r E) as (vs & s' & -> & _). reflexivity.
  - intros st e H. unfold someP, andP. cbn [manyP]. rewrite H. now split.
  - intros st e H. unfold someP, andP in H. step_in H.
    + step_in H.
      destruct (manyP_returns_chain p n _ _ E0) as (vs & s' & [=] & _).
    + now injection H as <- <-.
  - intros vs s' H. apply andP_success in H as (a & sa & b & _ & _ & ->).
    discriminate.
Qed.

(** X6: [manyP p] stops only where [p] fails: at its final state [p]
    fails and [manyP p] reads nothing more, so that [manyP p] followed by
    [p] never succeeds. *)
Theorem manyP_is_greedy {T : Type} (n : nat) (p : Parser T) (s s' : ParseState)
  (vs : list T)
  (H : manyP n p s = Returns (Success vs s')) :
  fails_at p s'
  /\ manyP n p s' = Returns (Success [] s')
  /\ (forall (B : Type) (f : list T -> T -> B), fails_at (andP (manyP n p) p f) s).
Proof.
  destruct (manyP_stops n p s s' vs H) as [Hf Hm]. split; [exact Hf|].
  split; [exact Hm|]. intros B f. destruct Hf as (st & e & Hf).
  exists st, e. unfold andP. rewrite H. cbn [bind]. now rewrite Hf.
Qed.

Lemma manyP_is_greedy_witness :
  fails_at (charP "a") (mkState 2 "aab")
  /\ manyP 3 (charP "a") (mkState 2 "aab") = Returns (Success [] (mkState 2 "aab"))
  /\ (forall (B : Type) (f : list ascii -> ascii -> B),
        fails_at (andP (manyP 3 (charP "a")) (charP "a") f) (initial "aab")).
Proof.
  exact (manyP_is_greedy 3 (charP "a") (initial "aab") (mkState 2 "aab")
           ["a"%char; "a"%char] eq_refl).
Defined.

(** ** Laws of the combinators *)

(** X7: [mapP] preserves the identity and composition; [pureP] is neutral
    before [rightP] and after [leftP]; [andP] is [mapP] over the pair of
    the two values; [rightP] and [leftP] are associative. *)
Theorem sequencing_laws {A B C D : Type} (pa : Parser A) (pb : Parser B)
  (pc : Parser C) (f : A -> B) (g : B -> D) (h : A -> B -> D) (x : A)
  (s : ParseState) :
  mapP pa (fun a => a) s = pa s
  /\ mapP (mapP pa f) g s = mapP pa (fun a => g (f a)) s
  /\ mapP (pureP x) f s = pureP (f x) s
  /\ rightP (pureP x) pb s = pb s
  /\ leftP pb (pureP x) s = pb s
  /\ andP pa pb h s = mapP (andP pa pb pair) (fun ab => h (fst ab) (snd ab)) s
  /\ rightP (rightP pa pb) pc s = rightP pa (rightP pb pc) s
  /\ leftP (leftP pa pb) pc s = leftP pa (leftP pb pc) s.
Proof.
  repeat apply conj.
  - unfold mapP. now destruct (pa s) as [[v st|st e]| |].
  - unfold mapP. destruct (pa s) as [[v st|st e]| |]. all: reflexivity.
  - reflexivity.
  - unfold rightP, andP, pureP, success. cbn [bind].
    now destruct (pb s) as [[v st|st e]| |].
  - unfold leftP, andP, pureP, success.
    now destruct (pb s) as [[v st|st e]| |].
  - unfold mapP, andP. destruct (pa s) as [[a sa|st e]| |]; cbn [bind]; try reflexivity.
    now destruct (pb sa) as [[b sb|st e]| |].
  - unfold rightP, andP, success. destruct (pa s) as [[a sa|st e]| |]; cbn [bind]; try reflexivity.
    destruct (pb sa) as [[b sb|st e]| |]; cbn [bind]; try reflexivity.
    now destruct (pc sb) as [[c sc|st e]| |].
  - unfold leftP, andP, success. destruct (pa s) as [[a sa|st e]| |]; cbn [bind]; try reflexivity.
    destruct (pb sa) as [[b sb|st e]| |]; cbn [bind]; try reflexivity.
    now destruct (pc sb) as [[c sc|st e]| |].
Qed.

Lemma orP_flatten {T : Type} {C : RawAssignable T} (qs rs : list (Parser T)) :
  forall (p : Parser T) (s : ParseState),
  orP (orP p qs) rs s = orP p (qs ++ rs)%list s.
Proof.
  induction qs as [|q qs IH]; intros p s; [reflexivity|].
  destruct rs as [|r rs]; [now rewrite app_nil_r|].
  specialize (IH q s). cbn [orP app] in *.
  destruct (p s) as [[v st|st e]| |]; cbn [bind]; try reflexivity.
  - unfold copy. now destruct (rawAssign T).
  - destruct qs as [|q' qs]; exact IH.
Qed.

(** X8: Alternatives flatten: [orP (orP p qs) rs] is [orP p (qs ++ rs)].
    A [pureP] that is the only alternative returns its value; followed by
    other alternatives it is copied by [return r], so that it returns its
    value exactly when a result of type [T] can be copied, and the call
    ends without a result otherwise; in no case are the alternatives
    after it tried.  [orP p [p]] runs [p] once more only after a failure,
    and copies its success; where results can be copied it is [p].  A
    list of alternatives that ends in a [pureP] never returns a
    failure. *)
Theorem orP_laws {T : Type} {C : RawAssignable T} (p : Parser T)
  (qs rs : list (Parser T)) (x : T) (s : ParseState) :
  orP (orP p qs) rs s = orP p (qs ++ rs)%list s
  /\ orP (pureP x) [] s = Returns (Success x s)
  /\ (forall q qs', orP (pureP x) (q :: qs') s
                    = if rawAssign T then Returns (Success x s) else Fault)
  /\ orP p [p] s = (r <- p s ;;
                    match r with
                    | Success _ _ => copy r
                    | Failure _ _ => Returns r
                    end)
  /\ (rawAssign T = true -> orP p [p] s = p s)
  /\ (forall r, orP p (qs ++ [pureP x])%list s = Returns r ->
        exists v s', r = Success v s').
Proof.
  split; [apply orP_flatten|]. split; [reflexivity|]. split; [reflexivity|].
  split; [|split].
  - cbn [orP]. now destruct (p s) as [[v st|st e]| |].
  - intros HC. cbn [orP]. destruct (p s) as [[v st|st e]| |]; cbn [bind];
      try reflexivity.
    now apply copy_success.
  - revert p. induction qs as [|q qs IH]; intros p r; cbn [orP app].
    + destruct (p s) as [[v st|st e]| |]; cbn [bind]; try discriminate.
      * intros H. copied H. injection H as <-. now do 2 eexists.
      * intros [= <-]. now do 2 eexists.
    + destruct (p s) as [[v st|st e]| |]; cbn [bind]; try discriminate.
      * intros H. copied H. injection H as <-. now do 2 eexists.
      * apply IH.
Qed.

(** ** White space *)

Lemma trimP_unfold {T : Type} (n : nat) (p : Parser T) (s : ParseState) :
  trimP n p s
  = r0 <- spaces n s ;;
    match r0 with
    | Failure st e => Returns (Failure st e)
    | Success _ s0 =>
        r <- p s0 ;;
        match r with
        | Failure st e => Returns (Failure st e)
        | Success v s1 =>
            r2 <- spaces n s1 ;;
            match r2 with
            | Failure st e => Returns (Failure st e)
            | Success _ s2 => Returns (Success v s2)
            end
        end
    end.
Proof.
  unfold trimP, rightP, leftP, andP, success.
  destruct (spaces n s) as [[ws s0|st e]| |]; cbn [bind]; try reflexivity.
  destruct (p s0) as [[v s1|st e]| |]; cbn [bind]; try reflexivity.
  now destruct (spaces n s1) as [[ws' s2|st e]| |].
Qed.

(** X9: [trimP (trimP p)] is [trimP p], on every state and at every
    recursion bound: where [spaces] has stopped it reads nothing more. *)
Theorem trimP_idempotent {T : Type} (n : nat) (p : Parser T) (s : ParseState) :
  trimP n (trimP n p) s = trimP n p s.
Proof.
  rewrite (trimP_unfold n (trimP n p) s), (trimP_unfold n p s).
  destruct (spaces n s) as [[ws s0|st e]| |] eqn:E0; cbn [bind]; try reflexivity.
  destruct (manyP_stops n space s s0 ws E0) as [_ H0].
  change (manyP n space) with (spaces n) in H0.
  rewrite (trimP_unfold n p s0), H0. cbn [bind].
  destruct (p s0) as [[v s1|st e]| |]; cbn [bind]; try reflexivity.
  destruct (spaces n s1) as [[ws' s2|st e]| |] eqn:E1; cbn [bind]; try reflexivity.
  destruct (manyP_stops n space s1 s2 ws' E1) as [_ H2].
  change (manyP n space) with (spaces n) in H2. now rewrite H2.
Qed.

(** ** The engine never moves backwards *)

Lemma forward_idP : forward idP.
Proof.
  intros s r [Hb Hsz] H. unfold idP in H.
  destruct (N.eqb_spec (pos s) (size (input s))) as [E|NE].
  - injection H as <-. simpl. split; [now split|lia].
  - destruct (at_ (input s) (pos s)) as [c|] eqn:Hc; [|discriminate].
    injection H as <-. apply at_inside in Hc. unfold success, state_of, wellFormed, inBounds.
    simpl. rewrite u64_small by lia. repeat split; lia.
Qed.

Lemma forward_predP (f : ascii -> bool) : forward (predP f).
Proof.
  intros s r Hs H. unfold predP in H. step_in H.
  - pose proof (forward_idP s _ Hs E) as Hf. simpl in Hf.
    destruct (negb (f result)); injection H as <-; exact Hf.
  - pose proof (forward_idP s _ Hs E) as Hf. injection H as <-. exact Hf.
Qed.

Lemma forward_mapP {A B : Type} (p : Parser A) (f : A -> B) :
  forward p -> forward (mapP p f).
Proof.
  intros Hp s r Hs H. unfold mapP in H. step_in H;
    pose proof (Hp s _ Hs E) as Hf; injection H as <-; exact Hf.
Qed.

Lemma forward_orP {T : Type} {C : RawAssignable T} (p q : Parser T) (qs : list (Parser T)) :
  forward p -> forward (orP q qs) -> forward (orP p (q :: qs)).
Proof.
  intros Hp Hq s r Hs H. cbn [orP] in H. step_in H.
  - copied H. injection H as <-. exact (Hp s _ Hs E).
  - exact (Hq s r Hs H).
Qed.

Lemma forward_andP {A B C : Type} (pa : Parser A) (pb : Parser B) (f : A -> B -> C) :
  forward pa -> forward pb -> forward (andP pa pb f).
Proof.
  intros Ha Hb s r Hs H. unfold andP in H. step_in H.
  - destruct (Ha s _ Hs E) as [Hw1 Hp1]. simpl in Hw1, Hp1. step_in H.
    + destruct (Hb _ _ Hw1 E0) as [Hw2 Hp2]. injection H as <-.
      simpl in *. split; [exact Hw2|lia].
    + destruct (Hb _ _ Hw1 E0) as [Hw2 Hp2]. injection H as <-.
      simpl in *. split; [exact Hw2|lia].
  - pose proof (Ha s _ Hs E) as Hf. injection H as <-. exact Hf.
Qed.

Lemma forward_manyP {T : Type} (fuel : nat) (p : Parser T) :
  forward p -> forward (manyP fuel p).
Proof.
  intros Hp. induction fuel as [|fuel IH]; intros s r Hs H; simpl in H;
    [discriminate|].
  step_in H.
  - destruct (Hp s _ Hs E) as [Hw1 Hp1]. simpl in Hw1, Hp1. step_in H.
    destruct (IH _ _ Hw1 E0) as [Hw2 Hp2]. injection H as <-.
    simpl in *. split; [exact Hw2|lia].
  - injection H as <-. simpl. split; [exact Hs|lia].
Qed.

Lemma forward_stringP (str : string) : forward (stringP str).
Proof.
  induction str as [|c str IH]; intros s r Hs H; simpl in H.
  - injection H as <-. simpl. split; [exact Hs|lia].
  - step_in H.
    + destruct (forward_predP _ s _ Hs E) as [Hw1 Hp1]. simpl in Hw1, Hp1.
      step_in H.
      destruct (IH _ _ Hw1 E0) as [Hw2 Hp2]. injection H as <-.
      simpl in *. split; [exact Hw2|lia].
    + pose proof (forward_predP _ s _ Hs E) as Hf. injection H as <-. exact Hf.
Qed.

Lemma Engine_forward (T : Type) (p : Parser T) : Engine T p -> forward p.
Proof.
  induction 1.
  - exact forward_idP.
  - intros s r Hs H. unfold eofP in H.
    destruct (pos s =? size (input s)); injection H as <-; simpl;
      (split; [exact Hs|lia]).
  - apply forward_predP.
  - apply forward_stringP.
  - intros s r Hs H. injection H as <-. simpl. split; [exact Hs|lia].
  - now apply forward_mapP.
  - now apply forward_orP.
  - now apply forward_andP.
  - now apply forward_manyP.
  - assumption.
  - intros s r _ H. discriminate.
Qed.

(** X10: A parser built from the engine never hands back a state
    before the one it started from, in a success or in a failure. *)
Theorem engine_never_moves_back (T : Type) (p : Parser T) (s : ParseState)
  (r : ParseResult T)
  (Hp : Engine T p) (Hs : wellFormed s) (Hr : p s = Returns r) :
  pos s <= pos (state_of r).
Proof. exact (proj2 (Engine_forward T p Hp s r Hs Hr)). Qed.

Lemma engine_never_moves_back_witness :
  pos (mkState 1 " [1,]") <= pos (state_of (@Failure JsonValue (mkState 4 " [1,]") (unexpect ","))).
Proof.
  apply (engine_never_moves_back JsonValue (arrayP 4) (mkState 1 " [1,]")).
  - exact (proj1 (proj2 (Engine_json 4))).
  - split; [unfold inBounds; vm_compute; discriminate|reflexivity].
  - reflexivity.
Defined.

(** ** What a failure reports *)

Lemma explains_predP (f : ascii -> bool) : explains (predP f).
Proof.
  intros s st e H. unfold predP in H. step_in H.
  - apply idP_success_inv in E as [Ha ->].
    destruct (negb (f result)); [|discriminate]. injection H as <- <-.
    right. right. now exists s, result.
  - injection H as <- <-. left.
    unfold idP in E. destruct (N.eqb_spec (pos s) (size (input s))) as [Q|Q].
    + injection E as <- <-. now split.
    + destruct (at_ (input s) (pos s)); discriminate.
Qed.

Lemma explains_stringP (str : string) : explains (stringP str).
Proof.
  induction str as [|c str IH]; intros s st e H; simpl in H; [discriminate|].
  step_in H.
  - step_in H.
  - injection H as <- <-. exact (explains_predP _ _ _ _ E).
Qed.

(** X11: Every failure of a parser built from the engine carries
    exactly one label: [end of file], at a state at the end of its
    input; [expect end of file], at a state that is not at the end; or
    [unexpect c], at the state just after a character [c] of the input.
    No combinator adds a label or joins two failures. *)
Theorem engine_failure_shape (T : Type) (p : Parser T) (s st : ParseState)
  (e : list string)
  (Hp : Engine T p) (Hr : p s = Returns (Failure st e)) :
  (e = ["end of file"] /\ pos st = size (input st))
  \/ (e = ["expect end of file"] /\ pos st <> size (input st))
  \/ (exists s0 c, e = unexpect c /\ ahead s0 c /\ st = advance s0).
Proof.
  change (failureShape st e). revert s st e Hr. change (explains p).
  induction Hp as [| |f|str|T x|A B p f Hp IH|T C p q qs Hp IHp Hq IHq
                   |A B C pa pb f Ha IHa Hb IHb|T fuel p Hp IH|T f Hf IH|T].
  - intros s st e H. apply (explains_predP (fun _ => true) s).
    unfold predP. now rewrite H.
  - intros s st e H. unfold eofP in H.
    destruct (N.eqb_spec (pos s) (size (input s))) as [Q|Q]; [discriminate|].
    injection H as <- <-. right. left. now split.
  - apply explains_predP.
  - apply explains_stringP.
  - intros s st e H. discriminate.
  - intros s st e H. unfold mapP in H. step_in H. injection H as <- <-.
    exact (IH _ _ _ E).
  - intros s st e H. cbn [orP] in H. step_in H; [now copied H|].
    exact (IHq _ _ _ H).
  - intros s st e H. unfold andP in H. step_in H.
    + step_in H. injection H as <- <-. exact (IHb _ _ _ E0).
    + injection H as <- <-. exact (IHa _ _ _ E).
  - intros s st e H.
    destruct (manyP_returns_chain p fuel s _ H) as (vs & s' & [=] & _).
  - exact IH.
  - intros s st e H. discriminate.
Qed.

Lemma engine_failure_shape_witness :
  (unexpect "," = ["end of file"] /\ pos (mkState 3 "[1,]") = size (input (mkState 3 "[1,]")))
  \/ (unexpect "," = ["expect end of file"]
      /\ pos (mkState 3 "[1,]") <> size (input (mkState 3 "[1,]")))
  \/ (exists s0 c, unexpect "," = unexpect c /\ ahead s0 c /\ mkState 3 "[1,]" = advance s0).
Proof.
  apply (engine_failure_shape JsonValue (arrayP 4) (initial "[1,]")).
  - exact (proj1 (proj2 (Engine_json 4))).
  - reflexivity.
Defined.

(** ** Numbers *)

Lemma isDigit_value (c : ascii) :
  isDigit c = true -> (0 <= Z.of_N (N_of_ascii c) - 48 <= 9)%Z.
Proof.
  unfold isDigit. rewrite andb_true_iff, !N.leb_le.
  change (N_of_ascii "0") with 48. change (N_of_ascii "9") with 57. lia.
Qed.

Lemma int32_small (z : Z) : (- 2 ^ 31 <= z < 2 ^ 31)%Z -> int32 z = z.
Proof.
  intros H. unfold int32. rewrite Z.mod_small by lia. lia.
Qed.

Lemma digitValue_exact (c : ascii) :
  isDigit c = true -> digitValue c = (Z.of_N (N_of_ascii c) - 48)%Z.
Proof.
  intros H. apply isDigit_value in H. unfold digitValue.
  change (Z.of_N (N_of_ascii "0")) with 48%Z. apply int32_small. lia.
Qed.

Lemma natOf_exact (l : list ascii) :
  forall (acc : Z) (k : nat),
  Forall (fun c => isDigit c = true) l ->
  (0 <= acc < 10 ^ Z.of_nat k)%Z -> (k + List.length l <= 9)%nat ->
  fold_left (fun n i => int32 (n * 10 + i)) (map digitValue l) acc
  = fold_left (fun n c => (n * 10 + (Z.of_N (N_of_ascii c) - 48))%Z) l acc
  /\ (0 <= fold_left (fun n c => (n * 10 + (Z.of_N (N_of_ascii c) - 48))%Z) l acc
      < 10 ^ Z.of_nat (k + List.length l))%Z.
Proof.
  induction l as [|c l IH]; intros acc k Hall Hacc Hk.
  - simpl. rewrite Nat.add_0_r. now split.
  - inversion Hall as [|? ? Hc Hl]; subst. simpl in Hk. cbn [map fold_left].
    rewrite (digitValue_exact c Hc). pose proof (isDigit_value c Hc) as Hv.
    assert (Hstep : (0 <= acc * 10 + (Z.of_N (N_of_ascii c) - 48)
                     < 10 ^ Z.of_nat (S k))%Z).
    { rewrite Nat2Z.inj_succ, Z.pow_succ_r by lia. lia. }
    assert (Hmax : (10 ^ Z.of_nat (S k) <= 10 ^ 9)%Z)
      by (apply Z.pow_le_mono_r; lia).
    rewrite int32_small by lia.
    destruct (IH _ (S k) Hl Hstep ltac:(lia)) as [-> Hr]. split; [reflexivity|].
    replace (k + List.length (c :: l))%nat with (S k + List.length l)%nat
      by (simpl; lia).
    exact Hr.
Qed.

Lemma length_list_ascii (str : string) :
  List.length (list_ascii_of_string str) = String.length str.
Proof. induction str as [|c str IH]; simpl; congruence. Qed.

Lemma natOf_decimal (ds : string) :
  allDigits ds -> (String.length ds <= 9)%nat ->
  natOf (digitsOf ds) = decimal ds
  /\ (0 <= decimal ds < 10 ^ Z.of_nat (String.length ds))%Z.
Proof.
  intros Hall Hlen. unfold natOf, digitsOf, decimal.
  destruct (natOf_exact (list_ascii_of_string ds) 0%Z 0%nat Hall) as [H1 H2].
  - simpl. lia.
  - rewrite length_list_ascii. lia.
  - rewrite length_list_ascii in H2. now split.
Qed.

(** X12: On a run of at most nine digits [natP] returns the decimal
    value of the run, a number below [10^9]: no operation on [int]
    overflows.  Leading zeros are read and do not change the value. *)
Theorem natP_decimal_value (d : ascii) (ds : string) (s : ParseState)
  (pre rest : string) (fuel : nat)
  (Hsz : size (input s) < 2 ^ 64)
  (Hs : splits s pre (String d ds ++ rest))
  (Hall : allDigits (String d ds))
  (Hstop : noDigitAhead rest)
  (Hfuel : (String.length ds < fuel)%nat)
  (Hlen : (String.length ds < 9)%nat) :
  (exists s', natP fuel s = Returns (Success (decimal (String d ds)) s')
              /\ splits s' (pre ++ String d ds) rest)
  /\ (0 <= decimal (String d ds) < 10 ^ 9)%Z
  /\ natOf (digitsOf (String "0" (String d ds))) = decimal (String d ds).
Proof.
  destruct (natOf_decimal (String d ds) Hall) as [Hv Hr]; [simpl; lia|].
  split; [|split].
  - destruct (natP_digits d ds s pre rest fuel Hsz Hs Hall Hstop Hfuel)
      as (s' & H & Hs' & _).
    exists s'. rewrite <- Hv. now split.
  - assert (10 ^ Z.of_nat (String.length (String d ds)) <= 10 ^ 9)%Z
      by (apply Z.pow_le_mono_r; simpl String.length; lia).
    lia.
  - rewrite <- Hv. reflexivity.
Qed.

Lemma natP_decimal_value_witness :
  (exists s', natP 3 (initial "007x") = Returns (Success (decimal "007") s')
              /\ splits s' ("" ++ "007") "x")
  /\ (0 <= decimal "007" < 10 ^ 9)%Z
  /\ natOf (digitsOf (String "0" "007")) = decimal "007".
Proof.
  apply (natP_decimal_value "0" "07" (initial "007x") "" "x" 3).
  - reflexivity.
  - split; reflexivity.
  - repeat constructor.
  - reflexivity.
  - simpl; lia.
  - simpl; lia.
Defined.

(** X13: On a minus sign that no digit follows, [intP] and [doubleP]
    fail with [unexpect -] at the state after the sign: the failure that
    is reported is the one of the last alternative, [natP] tried at the
    sign itself. *)
Theorem intP_lone_minus (n : nat) (s : ParseState) (pre rest : string)
  (Hsz : size (input s) < 2 ^ 64)
  (Hs : splits s pre (String "-" rest))
  (Hrest : noDigitAhead rest) :
  intP n s = Returns (Failure (advance s) (unexpect "-"))
  /\ doubleP n s = Returns (Failure (advance s) (unexpect "-")).
Proof.
  assert (Hint : intP n s = Returns (Failure (advance s) (unexpect "-"))).
  { unfold intP. rewrite orP_cons_failure.
    - cbn [orP]. unfold natP, mapP, someP, andP, digitP, mapP.
      now rewrite (predP_reject _ _ _ (splits_at _ _ _ _ Hs) eq_refl).
    - apply mapP_fails. unfold fails_at, rightP, andP.
      rewrite (charP_accept "-" s pre rest Hs). cbn [bind].
      destruct (digitP_stop (advance s) (pre ++ "-") rest
                  (splits_advance s pre rest "-" Hsz Hs) Hrest) as (st & e & Hd).
      unfold natP, mapP, someP, andP. rewrite Hd. now do 2 eexists. }
  split; [exact Hint|].
  unfold doubleP. cbn [orP]. unfold andP at 1, mapP. now rewrite Hint.
Qed.

Lemma intP_lone_minus_witness :
  intP 1 (initial "-x") = Returns (Failure (advance (initial "-x")) (unexpect "-"))
  /\ doubleP 1 (initial "-x") = Returns (Failure (advance (initial "-x")) (unexpect "-")).
Proof.
  apply (intP_lone_minus 1 (initial "-x") "" "x").
  - reflexivity.
  - split; reflexivity.
  - reflexivity.
Defined.

(** X14: On digits and a point that no digit follows, [doubleP]
    returns the integer and stops in front of the point. *)
Theorem doubleP_trailing_dot (d : ascii) (ds : string) (s : ParseState)
  (pre rest : string) (fuel : nat)
  (Hsz : size (input s) < 2 ^ 64)
  (Hs : splits s pre (String d ds ++ String "." rest))
  (Hall : allDigits (String d ds))
  (Hstop : noDigitAhead rest)
  (Hfuel : (String.length ds < fuel)%nat) :
  exists s',
    doubleP fuel s
    = Returns (Success (double_of_int (natOf (digitsOf (String d ds)))) s')
    /\ splits s' (pre ++ String d ds) (String "." rest).
Proof.
  destruct (intP_plain d ds s pre (String "." rest) fuel Hsz Hs Hall eq_refl Hfuel)
    as (s1 & Hint & Hs1 & Hi1).
  exists s1. split; [|exact Hs1].
  assert (Hsz1 : size (input s1) < 2 ^ 64) by now rewrite Hi1.
  unfold doubleP. rewrite orP_cons_failure.
  - cbn [orP]. unfold mapP. now rewrite Hint.
  - unfold fails_at, andP at 1. rewrite Hint. cbn [bind].
    unfold rightP, andP. rewrite (charP_accept "." s1 _ rest Hs1). cbn [bind].
    destruct (digitP_stop (advance s1) _ rest
                (splits_advance s1 _ rest "." Hsz1 Hs1) Hstop) as (st & e & Hd).
    unfold mapP, someP, andP. rewrite Hd. now do 2 eexists.
Qed.

Lemma doubleP_trailing_dot_witness :
  exists s',
    doubleP 2 (initial "12.x") = Returns (Success 12%float s')
    /\ splits s' ("" ++ "12") (String "." "x").
Proof.
  apply (doubleP_trailing_dot "1" "2" (initial "12.x") "" "x" 2).
  - reflexivity.
  - split; reflexivity.
  - repeat constructor.
  - reflexivity.
  - simpl; lia.
Defined.

(** ** Reading a text *)

Lemma reads_intro {T : Type} (p : Parser T) (pre body rest : string) (v : T) :
  (forall s, splits s pre (body ++ rest) ->
     exists s', p s = Returns (Success v s')
                /\ splits s' (pre ++ body) rest /\ input s' = input s) ->
  reads p pre body rest v.
Proof.
  intros H. unfold reads.
  destruct (H (mkState (size pre) (pre ++ body ++ rest))) as (s' & -> & [_ Hp] & Hi);
    [now split|].
  destruct s' as [p' i']. simpl in Hp, Hi. now subst.
Qed.

Lemma reads_elim {T : Type} (p : Parser T) (pre body rest : string) (v : T)
  (s : ParseState) :
  reads p pre body rest v -> splits s pre (body ++ rest) ->
  exists s', p s = Returns (Success v s')
             /\ splits s' (pre ++ body) rest /\ input s' = input s.
Proof.
  intros H Hs. rewrite (splits_state s pre _ Hs). unfold reads in H. rewrite H.
  eexists. split; [reflexivity|]. split; [|reflexivity].
  split; simpl; [now rewrite append_assoc|reflexivity].
Qed.

Lemma trimP_reads {T : Type} (n : nat) (p : Parser T) (pre ws1 mid ws2 rest : string)
  (v : T) :
  size (pre ++ (ws1 ++ mid ++ ws2) ++ rest) < 2 ^ 64 ->
  allOf isSpace ws1 -> allOf isSpace ws2 ->
  noneAhead isSpace (mid ++ ws2 ++ rest) -> noneAhead isSpace rest ->
  (String.length ws1 < n)%nat -> (String.length ws2 < n)%nat ->
  reads p (pre ++ ws1) mid (ws2 ++ rest) v ->
  reads (trimP n p) pre (ws1 ++ mid ++ ws2) rest v.
Proof.
  intros Hsz H1 H2 Hmid Hrest Hn1 Hn2 Hp. apply reads_intro. intros s Hs.
  assert (Hsz' : size (input s) < 2 ^ 64) by (destruct Hs as [-> _]; exact Hsz).
  rewrite !append_assoc in Hs.
  destruct (spaces_run ws1 s pre _ n Hsz' Hs H1 Hmid Hn1) as (s0 & Hsp0 & Hs0 & Hi0).
  destruct (reads_elim p _ _ _ v s0 Hp Hs0) as (s1 & Hp1 & Hs1 & Hi1).
  destruct (spaces_run ws2 s1 ((pre ++ ws1) ++ mid) rest n) as (s2 & Hsp2 & Hs2 & Hi2);
    [congruence|exact Hs1|exact H2|exact Hrest|exact Hn2|].
  exists s2. rewrite trimP_unfold, Hsp0. cbn [bind]. rewrite Hp1. cbn [bind].
  rewrite Hsp2. cbn [bind]. split; [reflexivity|]. split; [|congruence].
  now rewrite !append_assoc in *.
Qed.

(** X15: If [p] reads [mid] from behind the white space [ws1],
    then [trimP p] reads [ws1 ++ mid ++ ws2] with the same value, whatever
    the two runs of white space are. *)
Theorem trimP_discards_whitespace {T : Type} (n : nat) (p : Parser T)
  (pre ws1 mid ws2 rest : string) (v : T)
  (Hsz : size (pre ++ (ws1 ++ mid ++ ws2) ++ rest) < 2 ^ 64)
  (H1 : allOf isSpace ws1)
  (H2 : allOf isSpace ws2)
  (Hmid : noneAhead isSpace (mid ++ ws2 ++ rest))
  (Hrest : noneAhead isSpace rest)
  (Hn : (String.length ws1 < n)%nat /\ (String.length ws2 < n)%nat)
  (Hp : reads p (pre ++ ws1) mid (ws2 ++ rest) v) :
  reads (trimP n p) pre (ws1 ++ mid ++ ws2) rest v.
Proof. destruct Hn. now apply trimP_reads. Qed.

Lemma trimP_discards_whitespace_witness :
  reads (trimP 3 (stringP "x")) "" ("  " ++ "x" ++ "  ") "y" "x".
Proof.
  apply (trimP_discards_whitespace 3 (stringP "x") "" "  " "x" "  " "y" "x").
  - reflexivity.
  - repeat constructor.
  - repeat constructor.
  - reflexivity.
  - reflexivity.
  - simpl; lia.
  - reflexivity.
Defined.

Lemma stringP_reads_text (str pre rest : string) :
  size (pre ++ str ++ rest) < 2 ^ 64 -> reads (stringP str) pre str rest str.
Proof.
  intros Hsz. apply reads_intro. intros s Hs. apply stringP_reads; [|exact Hs].
  now destruct Hs as [-> _].
Qed.

Lemma nullCore_reads (pre rest : string) :
  size (pre ++ "null" ++ rest) < 2 ^ 64 -> reads nullCore pre "null" rest JSON_NULL.
Proof.
  intros Hsz. pose proof (stringP_reads_text "null" pre rest Hsz) as H.
  unfold reads, nullCore, mapP in *. now rewrite H.
Qed.

Lemma boolCore_reads_true (pre rest : string) :
  size (pre ++ "true" ++ rest) < 2 ^ 64 ->
  reads boolCore pre "true" rest (JSON_BOOL true).
Proof.
  intros Hsz. pose proof (stringP_reads_text "true" pre rest Hsz) as H.
  unfold reads, boolCore in *. cbn [orP]. unfold mapP at 1. now rewrite H.
Qed.

Lemma boolCore_reads_false (pre rest : string) :
  size (pre ++ "false" ++ rest) < 2 ^ 64 ->
  reads boolCore pre "false" rest (JSON_BOOL false).
Proof.
  intros Hsz. pose proof (stringP_reads_text "false" pre rest Hsz) as H.
  unfold reads, boolCore in *. cbn [orP]. unfold mapP at 1.
  rewrite (stringP_mismatch "t" "f" "rue").
  - cbn [bind]. unfold mapP. now rewrite H.
  - apply (splits_at _ pre ("alse" ++ rest)). split; reflexivity.
  - reflexivity.
Qed.

Lemma size_append (a b : string) : size (a ++ b) = size a + size b.
Proof. unfold size. rewrite length_append. lia. Qed.

(** X16: [jsonP] reads [null], [true] and [false], each between any
    white space, as JSON_NULL, JSON_BOOL true and JSON_BOOL false. *)
Theorem jsonP_keywords (pre ws1 ws2 rest : string) (n : nat)
  (H1 : allOf isSpace ws1)
  (H2 : allOf isSpace ws2)
  (Hrest : noneAhead isSpace rest)
  (Hsz : size pre + size ws1 + 5 + size ws2 + size rest < 2 ^ 64)
  (Hn : (String.length ws1 < n)%nat /\ (String.length ws2 < n)%nat) :
  reads (jsonP (S n)) pre (ws1 ++ "null" ++ ws2) rest JSON_NULL
  /\ reads (jsonP (S n)) pre (ws1 ++ "true" ++ ws2) rest (JSON_BOOL true)
  /\ reads (jsonP (S n)) pre (ws1 ++ "false" ++ ws2) rest (JSON_BOOL false).
Proof.
  destruct Hn as [Hn1 Hn2].
  assert (Hbranch : forall i kw v core,
    (i <= 5)%nat -> branchP i n = trimP n core ->
    (size kw <= 5) -> noneAhead isSpace (kw ++ ws2 ++ rest) ->
    (size ((pre ++ ws1) ++ kw ++ ws2 ++ rest) < 2 ^ 64 ->
     reads core (pre ++ ws1) kw (ws2 ++ rest) v) ->
    reads (jsonP (S n)) pre (ws1 ++ kw ++ ws2) rest v).
  { intros i kw v core Hi Hb Hkw Hmid Hcore.
    assert (Hsz' : size (pre ++ (ws1 ++ kw ++ ws2) ++ rest) < 2 ^ 64)
      by (rewrite !size_append; lia).
    assert (Ht : reads (trimP n core) pre (ws1 ++ kw ++ ws2) rest v).
    { apply trimP_reads; try assumption. apply Hcore.
      rewrite !size_append in *. lia. }
    unfold reads in Ht |- *. rewrite <- Hb in Ht.
    destruct (jsonP_selects n (mkState (size pre) (pre ++ (ws1 ++ kw ++ ws2) ++ rest))
                i Hi) as [-> _]; [|exact Ht].
    do 2 eexists. exact Ht. }
  split; [|split].
  - apply (Hbranch 0%nat "null" JSON_NULL nullCore); try reflexivity; [lia|discriminate|].
    apply nullCore_reads.
  - apply (Hbranch 1%nat "true" (JSON_BOOL true) boolCore); try reflexivity;
      [lia|discriminate|].
    apply boolCore_reads_true.
  - apply (Hbranch 1%nat "false" (JSON_BOOL false) boolCore); try reflexivity; [lia|].
    apply boolCore_reads_false.
Qed.

Lemma jsonP_keywords_witness :
  reads (jsonP 3) "" (" " ++ "null" ++ " ") "x" JSON_NULL
  /\ reads (jsonP 3) "" (" " ++ "true" ++ " ") "x" (JSON_BOOL true)
  /\ reads (jsonP 3) "" (" " ++ "false" ++ " ") "x" (JSON_BOOL false).
Proof.
  apply (jsonP_keywords "" " " " " "x" 2).
  - repeat constructor.
  - repeat constructor.
  - reflexivity.
  - reflexivity.
  - simpl; lia.
Defined.

(** ** String literals *)

Lemma strItem_at_quote (s : ParseState) :
  ahead s quote -> fails_at strItem s.
Proof.
  intros Hq. unfold fails_at, strItem. cbn [orP]. unfold rightP, andP.
  rewrite (charP_mismatch "\" quote s Hq eq_refl). cbn [bind].
  rewrite (predP_reject notQuote s quote Hq eq_refl). now do 2 eexists.
Qed.

Lemma strItem_plain (s : ParseState) (c : ascii) :
  ahead s c -> Ascii.eqb c "\" = false -> Ascii.eqb c quote = false ->
  strItem s = Returns (Success c (advance s)).
Proof.
  intros Hc Hb Hq. unfold strItem. cbn [orP]. unfold rightP, andP.
  rewrite (charP_mismatch "\" c s Hc) by now rewrite Ascii.eqb_sym.
  cbn [bind]. apply predP_accept; [exact Hc|]. unfold notQuote. now rewrite Hq.
Qed.

Lemma strItem_escape (s : ParseState) (d : ascii) :
  ahead s "\"%char -> ahead (advance s) d ->
  strItem s = Returns (Success (escapeChar d) (advance (advance s))).
Proof.
  intros Hb Hd. unfold strItem. cbn [orP]. unfold rightP, andP.
  rewrite (charP_read "\" s Hb). cbn [bind]. unfold escapeP, mapP.
  now rewrite (idP_read (advance s) d Hd).
Qed.

Lemma strItem_stop (s : ParseState) (pre rest : string) :
  splits s pre rest -> noneAhead notQuote rest -> fails_at strItem s.
Proof.
  intros Hs Hn. destruct rest as [|c rest].
  - pose proof (splits_eof s pre Hs) as He.
    unfold fails_at, strItem. cbn [orP]. unfold rightP, andP, charP.
    rewrite (predP_eof _ s He). cbn [bind]. rewrite (predP_eof _ s He).
    now do 2 eexists.
  - simpl in Hn. apply negb_false_iff, Ascii.eqb_eq in Hn. subst c.
    exact (strItem_at_quote s (splits_at s pre rest quote Hs)).
Qed.

Lemma strItems_read (k : nat) :
  forall (body : string) (s : ParseState) (pre rest : string) (n : nat),
  (String.length body <= k)%nat ->
  size (input s) < 2 ^ 64 ->
  splits s pre (body ++ rest) -> closedBody body = true ->
  noneAhead notQuote rest -> (String.length body < n)%nat ->
  exists s', manyP n strItem s
             = Returns (Success (list_ascii_of_string (unescape body)) s')
             /\ splits s' (pre ++ body) rest /\ input s' = input s.
Proof.
  induction k as [|k IH]; intros body s pre rest n Hk Hsz Hs Hc Hr Hn.
  - destruct body; [|simpl in Hk; lia]. destruct n as [|n]; [simpl in Hn; lia|].
    simpl in Hs. exists s. cbn [manyP].
    destruct (strItem_stop s pre rest Hs Hr) as (st & e & ->).
    rewrite append_empty_r. split; [reflexivity|]. split; [exact Hs|reflexivity].
  - destruct body as [|c body].
    { apply (IH "" s pre rest n); try assumption. simpl. lia. }
    destruct n as [|n]; [simpl in Hn; lia|]. simpl in Hk, Hn, Hs.
    pose proof (splits_at s pre _ c Hs) as Hac.
    pose proof (splits_advance s pre _ c Hsz Hs) as Hs1.
    cbn [closedBody unescape] in Hc |- *.
    destruct (Ascii.eqb c "\") eqn:Eb.
    + apply Ascii.eqb_eq in Eb. subst c.
      destruct body as [|d body]; [discriminate|]. simpl in Hk, Hn, Hs1.
      pose proof (splits_at (advance s) _ _ d Hs1) as Had.
      pose proof (splits_advance (advance s) _ _ d Hsz Hs1) as Hs2.
      cbn [manyP]. rewrite (strItem_escape s d Hac Had). cbn [bind].
      destruct (IH body (advance (advance s)) ((pre ++ "\") ++ String d "") rest n)
        as (s' & -> & Hs' & Hi'); [lia|exact Hsz|exact Hs2|exact Hc|exact Hr|lia|].
      cbn [bind]. exists s'. split; [reflexivity|]. split; [|exact Hi'].
      now rewrite !append_assoc in Hs'.
    + apply andb_true_iff in Hc as [Hq Hc]. apply negb_true_iff in Hq.
      cbn [manyP]. rewrite (strItem_plain s c Hac Eb Hq). cbn [bind].
      destruct (IH body (advance s) (pre ++ String c "") rest n)
        as (s' & -> & Hs' & Hi'); [lia|exact Hsz|exact Hs1|exact Hc|exact Hr|lia|].
      cbn [bind]. exists s'. split; [reflexivity|]. split; [|exact Hi'].
      now rewrite !append_assoc in Hs'.
Qed.

Lemma strCore_reads (n : nat) (body pre rest : string) :
  size (pre ++ quoted body ++ rest) < 2 ^ 64 -> closedBody body = true ->
  (String.length body < n)%nat ->
  reads (strCore n) pre (quoted body) rest (unescape body).
Proof.
  intros Hsz Hc Hn. apply reads_intro. intros s Hs.
  assert (Hsz' : size (input s) < 2 ^ 64) by (destruct Hs as [-> _]; exact Hsz).
  unfold quoted in Hs. simpl in Hs. rewrite append_assoc in Hs. simpl in Hs.
  destruct (strItems_read (String.length body) body (advance s) (pre ++ String quote "")
              (String quote rest) n) as (s1 & Hm & Hs1 & Hi1);
    [lia|exact Hsz'|now apply splits_advance|exact Hc|reflexivity|exact Hn|].
  exists (advance s1). unfold strCore, betweenP, rightP, leftP, andP, mapP, success.
  rewrite (charP_accept quote s pre _ Hs). cbn [bind]. rewrite Hm.
  cbn [bind]. rewrite (charP_accept quote s1 _ rest Hs1). cbn [bind].
  rewrite string_of_list_ascii_of_string.
  split; [reflexivity|]. split; [|simpl; exact Hi1].
  apply splits_advance in Hs1; [|now rewrite Hi1].
  unfold quoted. simpl. now rewrite !append_assoc in *.
Qed.

(** X17: A string literal: between two double quotes, a text in which
    every backslash is followed by a character and every double quote
    follows such a backslash.  [escapeStrP], [strP] and [jsonP] read it,
    between any white space, as the text [unescape] gives: a backslash and
    the character after it stand for [escapeChar] of that character, every
    other character for itself. *)
Theorem strP_decodes (pre ws1 body ws2 rest : string) (n : nat)
  (Hc : closedBody body = true)
  (H1 : allOf isSpace ws1)
  (H2 : allOf isSpace ws2)
  (Hrest : noneAhead isSpace rest)
  (Hsz : size (pre ++ (ws1 ++ quoted body ++ ws2) ++ rest) < 2 ^ 64)
  (Hn : (String.length ws1 < n)%nat /\ (String.length ws2 < n)%nat
        /\ (String.length body < n)%nat) :
  reads (escapeStrP n) pre (ws1 ++ quoted body ++ ws2) rest (unescape body)
  /\ reads (strP n) pre (ws1 ++ quoted body ++ ws2) rest (JSON_STRING (unescape body))
  /\ reads (jsonP (S n)) pre (ws1 ++ quoted body ++ ws2) rest
           (JSON_STRING (unescape body)).
Proof.
  destruct Hn as (Hn1 & Hn2 & Hn3).
  assert (He : reads (escapeStrP n) pre (ws1 ++ quoted body ++ ws2) rest
                     (unescape body)).
  { change (escapeStrP n) with (trimP n (strCore n)).
    apply trimP_reads; try assumption; [reflexivity|].
    apply strCore_reads; [|exact Hc|exact Hn3].
    now rewrite !append_assoc in *. }
  assert (Hp : reads (strP n) pre (ws1 ++ quoted body ++ ws2) rest
                     (JSON_STRING (unescape body))).
  { unfold reads, strP, mapP in *. now rewrite He. }
  split; [exact He|]. split; [exact Hp|].
  unfold reads in *.
  destruct (jsonP_selects n (mkState (size pre)
                               (pre ++ (ws1 ++ quoted body ++ ws2) ++ rest))
              3%nat ltac:(lia)) as [-> _]; [|exact Hp].
  do 2 eexists. exact Hp.
Qed.

Lemma strP_decodes_witness :
  reads (escapeStrP 7) "" (" " ++ quoted "a\nb\\" ++ "") ""
        (String "a" (String "010" "b\"))
  /\ reads (strP 7) "" (" " ++ quoted "a\nb\\" ++ "") ""
           (JSON_STRING (String "a" (String "010" "b\")))
  /\ reads (jsonP 8) "" (" " ++ quoted "a\nb\\" ++ "") ""
           (JSON_STRING (String "a" (String "010" "b\"))).
Proof.
  apply (strP_decodes "" " " "a\nb\\" "" "" 7).
  - reflexivity.
  - repeat constructor.
  - constructor.
  - exact I.
  - reflexivity.
  - simpl; lia.
Defined.

Lemma strCore_unterminated (n : nat) (body : string) (s : ParseState) (pre : string) :
  size (input s) < 2 ^ 64 -> splits s pre (String quote body) ->
  closedBody body = true -> (String.length body < n)%nat ->
  strCore n s
  = Returns (Failure (mkState (size (input s)) (input s)) ["end of file"]).
Proof.
  intros Hsz Hs Hc Hn.
  destruct (strItems_read (String.length body) body (advance s) (pre ++ String quote "")
              "" n) as (s1 & Hm & Hs1 & Hi1);
    [lia|exact Hsz| |exact Hc|exact I|exact Hn|].
  { rewrite append_empty_r. now apply splits_advance. }
  unfold strCore, betweenP, rightP, leftP, andP, mapP, success.
  rewrite (charP_accept quote s pre _ Hs). cbn [bind]. rewrite Hm. cbn [bind].
  unfold charP. rewrite (predP_eof _ s1 (splits_eof s1 _ Hs1)). cbn [bind].
  do 2 f_equal. pose proof (splits_eof s1 _ Hs1) as He.
  destruct s1 as [p i]. simpl in *. now subst.
Qed.

(** X18: A string literal that is not closed: after the opening
    double quote the text runs to the end of the input.  [escapeStrP] and
    [strP] fail with [end of file] at the end of the input. *)
Theorem strP_unterminated (pre ws1 body : string) (n : nat)
  (Hc : closedBody body = true)
  (H1 : allOf isSpace ws1)
  (Hsz : size (pre ++ ws1 ++ String quote body) < 2 ^ 64)
  (Hn : (String.length ws1 < n)%nat /\ (String.length body < n)%nat) :
  escapeStrP n (mkState (size pre) (pre ++ ws1 ++ String quote body))
  = Returns (Failure (mkState (size (pre ++ ws1 ++ String quote body))
                              (pre ++ ws1 ++ String quote body))
                     ["end of file"])
  /\ strP n (mkState (size pre) (pre ++ ws1 ++ String quote body))
     = Returns (Failure (mkState (size (pre ++ ws1 ++ String quote body))
                                 (pre ++ ws1 ++ String quote body))
                        ["end of file"]).
Proof.
  destruct Hn as [Hn1 Hn2].
  set (txt := pre ++ ws1 ++ String quote body) in *.
  assert (He : escapeStrP n (mkState (size pre) txt)
               = Returns (Failure (mkState (size txt) txt) ["end of file"])).
  { destruct (spaces_run ws1 (mkState (size pre) txt) pre (String quote body) n)
      as (s0 & Hsp & Hs0 & Hi0); try assumption; [now split|reflexivity|].
    change (escapeStrP n) with (trimP n (strCore n)).
    rewrite (trimP_failure _ _ _ _ _ _ _ Hsp
               (strCore_unterminated n body s0 (pre ++ ws1)
                  ltac:(now rewrite Hi0) Hs0 Hc Hn2)).
    now rewrite Hi0. }
  split; [exact He|]. unfold strP, mapP. now rewrite He.
Qed.

Lemma strP_unterminated_witness :
  escapeStrP 4 (mkState (size "") ("" ++ " " ++ String quote "abc"))
  = Returns (Failure (mkState (size ("" ++ " " ++ String quote "abc"))
                              ("" ++ " " ++ String quote "abc"))
                     ["end of file"])
  /\ strP 4 (mkState (size "") ("" ++ " " ++ String quote "abc"))
     = Returns (Failure (mkState (size ("" ++ " " ++ String quote "abc"))
                                 ("" ++ " " ++ String quote "abc"))
                        ["end of file"]).
Proof.
  apply (strP_unterminated "" " " "abc" 4).
  - reflexivity.
  - repeat constructor.
  - reflexivity.
  - simpl; lia.
Defined.

(** ** Brackets with nothing between them *)

Lemma bracketed_empty {T R : Type} {C : RawAssignable R} (q : Parser T) (o cl : ascii)
  (f : T -> list T -> R) (e : R) (m : nat) (s : ParseState) (pre rest : string) :
  size (input s) < 2 ^ 64 ->
  splits s pre (String o (String cl rest)) -> fails_at q (advance s) ->
  bracketed q o cl f e m s = Returns (Success e (advance (advance s))).
Proof.
  intros Hsz Hs (st & er & Hq). unfold bracketed, betweenP, rightP, leftP.
  unfold andP at 1. rewrite (charP_accept o s pre _ Hs). cbn [bind].
  unfold andP at 1. cbn [orP]. unfold andP at 1. rewrite Hq. cbn [bind].
  unfold pureP, success. cbn [bind].
  now rewrite (charP_accept cl (advance s) _ rest (splits_advance s pre _ o Hsz Hs)).
Qed.

Lemma bracketed_not_closed {T R : Type} {C : RawAssignable R} (q : Parser T) (o cl w : ascii)
  (f : T -> list T -> R) (e : R) (m : nat) (s : ParseState) (pre rest : string) :
  size (input s) < 2 ^ 64 ->
  splits s pre (String o (String w rest)) -> fails_at q (advance s) ->
  Ascii.eqb cl w = false ->
  bracketed q o cl f e m s = Returns (Failure (advance (advance s)) (unexpect w)).
Proof.
  intros Hsz Hs (st & er & Hq) Hw. unfold bracketed, betweenP, rightP, leftP.
  unfold andP at 1. rewrite (charP_accept o s pre _ Hs). cbn [bind].
  unfold andP at 1. cbn [orP]. unfold andP at 1. rewrite Hq. cbn [bind].
  unfold pureP, success. cbn [bind].
  now rewrite (charP_reject cl w (advance s) _ rest
                 (splits_advance s pre _ o Hsz Hs) Hw).
Qed.

(** Behind white space and a closing bracket no value and no pair starts. *)
Lemma jsonP_at_close (k : nat) (s : ParseState) (pre gap rest : string) (c : ascii) :
  size (input s) < 2 ^ 64 ->
  splits s pre (gap ++ String c rest) -> allOf isSpace gap ->
  isSpace c = false -> startsValue c = false -> (String.length gap < k)%nat ->
  fails_at (lazyP (fun _ => jsonP (S (S k)))) s.
Proof.
  intros Hsz Hs Hgap Hc Hv Hk.
  destruct (spaces_run gap s pre (String c rest) k Hsz Hs Hgap Hc Hk)
    as (s3 & Hsp & Hs3 & _).
  unfold fails_at, lazyP.
  rewrite (jsonP_mismatch k s s3 _ c Hsp (splits_at s3 _ rest c Hs3) Hv).
  now do 2 eexists.
Qed.

Lemma itemP_at_close (m : nat) (s : ParseState) (pre gap rest : string) (c : ascii) :
  size (input s) < 2 ^ 64 ->
  splits s pre (gap ++ String c rest) -> allOf isSpace gap ->
  isSpace c = false -> Ascii.eqb quote c = false -> (String.length gap < m)%nat ->
  fails_at (itemP m) s.
Proof.
  intros Hsz Hs Hgap Hc Hq Hm.
  destruct (spaces_run gap s pre (String c rest) m Hsz Hs Hgap Hc Hm)
    as (s3 & Hsp & Hs3 & _).
  unfold fails_at, itemP, andP.
  rewrite (escapeStrP_mismatch m s s3 _ c Hsp (splits_at s3 _ rest c Hs3) Hq).
  now do 2 eexists.
Qed.

Lemma arrCore_bracketed (n : nat) :
  arrCore n = bracketed (lazyP (fun _ => jsonP n)) "[" "]" consArray (JSON_ARRAY []) n.
Proof. reflexivity. Qed.

Lemma objCore_bracketed (n : nat) :
  objCore n = bracketed (itemP n) "{" "}" consObject (JSON_OBJECT []) n.
Proof. reflexivity. Qed.

Lemma advance_twice (s : ParseState) (pre rest : string) (a b : ascii) :
  size (input s) < 2 ^ 64 -> splits s pre (String a (String b rest)) ->
  advance (advance s) = mkState (size (pre ++ String a (String b ""))) (input s).
Proof.
  intros Hsz Hs. pose proof (splits_advance s pre _ a Hsz Hs) as H1.
  apply splits_advance in H1; [|exact Hsz]. destruct H1 as [_ Hp].
  rewrite append_assoc in Hp. unfold advance in *. simpl in *. now rewrite Hp.
Qed.

Lemma arrCore_reads_empty (k : nat) (pre rest : string) :
  size (pre ++ "[]" ++ rest) < 2 ^ 64 ->
  reads (arrCore (S (S (S k)))) pre "[]" rest (JSON_ARRAY []).
Proof.
  intros Hsz. unfold reads. rewrite arrCore_bracketed.
  set (s := mkState (size pre) (pre ++ "[]" ++ rest)).
  assert (Hs : splits s pre (String "[" (String "]" rest))) by now split.
  rewrite (bracketed_empty _ _ _ _ _ _ s pre rest Hsz Hs).
  - now rewrite (advance_twice s pre rest "[" "]" Hsz Hs).
  - apply (jsonP_at_close (S k) (advance s) (pre ++ "[") "" rest "]");
      try reflexivity; [exact Hsz|now apply splits_advance|constructor|simpl; lia].
Qed.

Lemma objCore_reads_empty (k : nat) (pre rest : string) :
  size (pre ++ "{}" ++ rest) < 2 ^ 64 ->
  reads (objCore (S (S (S k)))) pre "{}" rest (JSON_OBJECT []).
Proof.
  intros Hsz. unfold reads. rewrite objCore_bracketed.
  set (s := mkState (size pre) (pre ++ "{}" ++ rest)).
  assert (Hs : splits s pre (String "{" (String "}" rest))) by now split.
  rewrite (bracketed_empty _ _ _ _ _ _ s pre rest Hsz Hs).
  - now rewrite (advance_twice s pre rest "{" "}" Hsz Hs).
  - apply (itemP_at_close _ (advance s) (pre ++ "{") "" rest "}");
      try reflexivity; [exact Hsz|now apply splits_advance|constructor|simpl; lia].
Qed.

(** X19: [arrayP], [objectP] and [jsonP] read the two brackets
    with nothing between them, and any white space around them, as the
    empty array and the empty object. *)
Theorem empty_brackets_accepted (pre ws1 ws2 rest : string) (k : nat)
  (H1 : allOf isSpace ws1)
  (H2 : allOf isSpace ws2)
  (Hrest : noneAhead isSpace rest)
  (Hsz : size pre + size ws1 + 2 + size ws2 + size rest < 2 ^ 64)
  (Hn : (String.length ws1 < 3 + k)%nat /\ (String.length ws2 < 3 + k)%nat) :
  reads (arrayP (4 + k)) pre (ws1 ++ "[]" ++ ws2) rest (JSON_ARRAY [])
  /\ reads (objectP (4 + k)) pre (ws1 ++ "{}" ++ ws2) rest (JSON_OBJECT [])
  /\ reads (jsonP (5 + k)) pre (ws1 ++ "[]" ++ ws2) rest (JSON_ARRAY [])
  /\ reads (jsonP (5 + k)) pre (ws1 ++ "{}" ++ ws2) rest (JSON_OBJECT []).
Proof.
  destruct Hn as [Hn1 Hn2].
  assert (Ha : reads (arrayP (4 + k)) pre (ws1 ++ "[]" ++ ws2) rest (JSON_ARRAY [])).
  { change (arrayP (4 + k)) with (arrayP (S (S (S (S k))))). rewrite arrayP_unfold.
    apply trimP_reads; try assumption; try reflexivity.
    - rewrite !size_append. change (size "[]") with 2. lia.
    - apply arrCore_reads_empty. rewrite !size_append in *.
      change (size "[]") with 2. lia. }
  assert (Ho : reads (objectP (4 + k)) pre (ws1 ++ "{}" ++ ws2) rest (JSON_OBJECT [])).
  { change (objectP (4 + k)) with (objectP (S (S (S (S k))))). rewrite objectP_unfold.
    apply trimP_reads; try assumption; try reflexivity.
    - rewrite !size_append. change (size "{}") with 2. lia.
    - apply objCore_reads_empty. rewrite !size_append in *.
      change (size "{}") with 2. lia. }
  split; [exact Ha|]. split; [exact Ho|]. unfold reads in *. split.
  - destruct (jsonP_selects (4 + k) (mkState (size pre) (pre ++ (ws1 ++ "[]" ++ ws2) ++ rest))
                4%nat ltac:(lia)) as [E _]; [do 2 eexists; exact Ha|].
    change (jsonP (5 + k)) with (jsonP (S (4 + k))). rewrite E. exact Ha.
  - destruct (jsonP_selects (4 + k) (mkState (size pre) (pre ++ (ws1 ++ "{}" ++ ws2) ++ rest))
                5%nat ltac:(lia)) as [E _]; [do 2 eexists; exact Ho|].
    change (jsonP (5 + k)) with (jsonP (S (4 + k))). rewrite E. exact Ho.
Qed.

Lemma empty_brackets_accepted_witness :
  reads (arrayP (4 + 0)) "" (" " ++ "[]" ++ " ") "x" (JSON_ARRAY [])
  /\ reads (objectP (4 + 0)) "" (" " ++ "{}" ++ " ") "x" (JSON_OBJECT [])
  /\ reads (jsonP (5 + 0)) "" (" " ++ "[]" ++ " ") "x" (JSON_ARRAY [])
  /\ reads (jsonP (5 + 0)) "" (" " ++ "{}" ++ " ") "x" (JSON_OBJECT []).
Proof.
  apply (empty_brackets_accepted "" " " " " "x" 0).
  - repeat constructor.
  - repeat constructor.
  - reflexivity.
  - reflexivity.
  - simpl; lia.
Defined.

(** X20: White space between the two brackets of an empty
    array or object is not skipped: [arrayP] and [objectP] fail with
    [unexpect w] at the state after the first character [w] of that white
    space, where the closing bracket was looked for. *)
Theorem brackets_inner_space_rejected (pre ws1 gap rest : string) (w : ascii) (k : nat)
  (H1 : allOf isSpace ws1)
  (Hw : isSpace w = true)
  (Hgap : allOf isSpace gap)
  (Hsz : size pre + size ws1 + size gap + size rest + 3 < 2 ^ 64)
  (Hn : (String.length ws1 < 3 + k)%nat /\ (String.length gap < k)%nat) :
  arrayP (4 + k)
    (mkState (size pre) (pre ++ ws1 ++ String "[" (String w gap ++ String "]" rest)))
  = Returns (Failure
      (mkState (size (pre ++ ws1) + 2)
         (pre ++ ws1 ++ String "[" (String w gap ++ String "]" rest)))
      (unexpect w))
  /\ objectP (4 + k)
       (mkState (size pre) (pre ++ ws1 ++ String "{" (String w gap ++ String "}" rest)))
     = Returns (Failure
         (mkState (size (pre ++ ws1) + 2)
            (pre ++ ws1 ++ String "{" (String w gap ++ String "}" rest)))
         (unexpect w)).
Proof.
  destruct Hn as [Hn1 Hn2].
  assert (Hcore : forall (o cl : ascii) (core : Parser JsonValue),
    isSpace o = false ->
    (forall s0 pre0,
        size (input s0) < 2 ^ 64 ->
        splits s0 pre0 (String o (String w gap ++ String cl rest)) ->
        core s0 = Returns (Failure (advance (advance s0)) (unexpect w))) ->
    trimP (3 + k) core
      (mkState (size pre) (pre ++ ws1 ++ String o (String w gap ++ String cl rest)))
    = Returns (Failure
        (mkState (size (pre ++ ws1) + 2)
           (pre ++ ws1 ++ String o (String w gap ++ String cl rest)))
        (unexpect w))).
  { intros o cl core Ho Hc.
    set (txt := pre ++ ws1 ++ String o (String w gap ++ String cl rest)).
    assert (Htxt : size txt < 2 ^ 64).
    { unfold txt. rewrite !size_append. unfold size at 3. simpl String.length.
      rewrite length_append. simpl String.length. unfold size in *. lia. }
    destruct (spaces_run ws1 (mkState (size pre) txt) pre
                (String o (String w gap ++ String cl rest)) (3 + k))
      as (s0 & Hsp & Hs0 & Hi0); try assumption; [now split|].
    rewrite (trimP_failure _ _ _ _ _ _ _ Hsp (Hc s0 (pre ++ ws1) ltac:(now rewrite Hi0) Hs0)).
    rewrite (advance_twice s0 (pre ++ ws1) _ o w ltac:(now rewrite Hi0) Hs0), Hi0.
    simpl input. do 3 f_equal.
    rewrite !size_append. unfold size at 3. simpl. lia. }
  split.
  - change (arrayP (4 + k)) with (arrayP (S (3 + k))). rewrite arrayP_unfold.
    apply (Hcore "[" "]")%char; [reflexivity|]. intros s0 pre0 Hsz0 Hs0.
    rewrite arrCore_bracketed.
    apply (bracketed_not_closed _ _ _ _ _ _ _ s0 pre0 _ Hsz0 Hs0).
    + apply (jsonP_at_close (S k) (advance s0) (pre0 ++ "[") (String w gap) rest "]");
        try reflexivity; [exact Hsz0|now apply splits_advance| |simpl; lia].
      constructor; assumption.
    + destruct (Ascii.eqb "]" w) eqn:E; [|reflexivity].
      apply Ascii.eqb_eq in E. subst w. discriminate.
  - change (objectP (4 + k)) with (objectP (S (3 + k))). rewrite objectP_unfold.
    apply (Hcore "{" "}")%char; [reflexivity|]. intros s0 pre0 Hsz0 Hs0.
    rewrite objCore_bracketed.
    apply (bracketed_not_closed _ _ _ _ _ _ _ s0 pre0 _ Hsz0 Hs0).
    + apply (itemP_at_close _ (advance s0) (pre0 ++ "{") (String w gap) rest "}");
        try reflexivity; [exact Hsz0|now apply splits_advance| |simpl; lia].
      constructor; assumption.
    + destruct (Ascii.eqb "}" w) eqn:E; [|reflexivity].
      apply Ascii.eqb_eq in E. subst w. discriminate.
Qed.

Lemma brackets_inner_space_rejected_witness :
  arrayP 5 (initial "[ ]") = Returns (Failure (mkState 2 "[ ]") (unexpect " "))
  /\ objectP 5 (initial "{ }") = Returns (Failure (mkState 2 "{ }") (unexpect " ")).
Proof.
  apply (brackets_inner_space_rejected "" "" "" "" " " 1).
  - constructor.
  - reflexivity.
  - constructor.
  - reflexivity.
  - simpl; lia.
Defined.

(** ** The end of the input in front of a value *)

Lemma charP_rejectsEnd (c : ascii) : rejectsEnd (charP c).
Proof. intros s Hs. now apply predP_eof. Qed.

Lemma mapP_rejectsEnd {A B : Type} (p : Parser A) (f : A -> B) :
  rejectsEnd p -> rejectsEnd (mapP p f).
Proof. intros Hp s Hs. unfold mapP. now rewrite (Hp s Hs). Qed.

Lemma andP_rejectsEnd {A B C : Type} (pa : Parser A) (pb : Parser B)
  (f : A -> B -> C) :
  rejectsEnd pa -> rejectsEnd (andP pa pb f).
Proof. intros Hp s Hs. unfold andP. now rewrite (Hp s Hs). Qed.

Lemma orP_rejectsEnd {T : Type} {C : RawAssignable T} (p q : Parser T) :
  rejectsEnd p -> rejectsEnd q -> rejectsEnd (orP p [q]).
Proof. intros Hp Hq s Hs. cbn [orP]. rewrite (Hp s Hs). cbn [bind]. now apply Hq. Qed.

Lemma stringP_rejectsEnd (c : ascii) (str : string) : rejectsEnd (stringP (String c str)).
Proof. intros s Hs. cbn [stringP]. now rewrite (charP_rejectsEnd c s Hs). Qed.

Lemma natP_rejectsEnd (n : nat) : rejectsEnd (natP n).
Proof.
  apply mapP_rejectsEnd, andP_rejectsEnd, mapP_rejectsEnd.
  intros s Hs. now apply predP_eof.
Qed.

Lemma intP_rejectsEnd (n : nat) : rejectsEnd (intP n).
Proof.
  apply orP_rejectsEnd; [|apply natP_rejectsEnd].
  apply mapP_rejectsEnd, andP_rejectsEnd, charP_rejectsEnd.
Qed.

Lemma doubleP_rejectsEnd (n : nat) : rejectsEnd (doubleP n).
Proof.
  apply orP_rejectsEnd.
  - apply andP_rejectsEnd, intP_rejectsEnd.
  - apply mapP_rejectsEnd, intP_rejectsEnd.
Qed.

Lemma trimP_at_end {T : Type} (n : nat) (p : Parser T) (s s0 : ParseState)
  (ws : list ascii) :
  rejectsEnd p -> spaces n s = Returns (Success ws s0) ->
  pos s0 = size (input s0) ->
  trimP n p s = Returns (Failure s0 ["end of file"]).
Proof.
  intros Hp Hsp Hs0. apply (trimP_failure n p s s0 s0 ws _ Hsp). now apply Hp.
Qed.

Lemma branch_at_end (i n : nat) (s s0 : ParseState) (ws : list ascii) :
  (i <= 5)%nat ->
  spaces (spFuel i (S n)) s = Returns (Success ws s0) ->
  pos s0 = size (input s0) ->
  branchP i (S n) s = Returns (Failure s0 ["end of file"]).
Proof.
  intros Hi Hsp Hs0.
  destruct i as [|[|[|[|[|[|i]]]]]]; try lia; cbn [branchP spFuel Nat.ltb Nat.leb] in *.
  - apply (trimP_at_end _ _ s s0 ws); try assumption.
    apply mapP_rejectsEnd, stringP_rejectsEnd.
  - apply (trimP_at_end _ _ s s0 ws); try assumption.
    apply orP_rejectsEnd; apply mapP_rejectsEnd, stringP_rejectsEnd.
  - apply (trimP_at_end _ _ s s0 ws); try assumption.
    apply mapP_rejectsEnd, doubleP_rejectsEnd.
  - unfold strP, mapP. change (escapeStrP (S n)) with (trimP (S n) (strCore (S n))).
    rewrite (trimP_at_end _ _ s s0 ws); try assumption; [reflexivity|].
    apply andP_rejectsEnd, charP_rejectsEnd.
  - unfold lazyP. rewrite arrayP_unfold.
    apply (trimP_at_end _ _ s s0 ws); try assumption.
    apply andP_rejectsEnd, charP_rejectsEnd.
  - unfold lazyP. rewrite objectP_unfold.
    apply (trimP_at_end _ _ s s0 ws); try assumption.
    apply andP_rejectsEnd, charP_rejectsEnd.
Qed.

(** X21: On a text that is empty or white space only, [jsonP] fails
    with [end of file] at the end of the input. *)
Theorem jsonP_blank_input (pre ws : string) (n : nat)
  (Hws : allOf isSpace ws)
  (Hsz : size (pre ++ ws) < 2 ^ 64)
  (Hn : (String.length ws < n)%nat) :
  jsonP (S (S n)) (mkState (size pre) (pre ++ ws))
  = Returns (Failure (mkState (size (pre ++ ws)) (pre ++ ws)) ["end of file"]).
Proof.
  set (s := mkState (size pre) (pre ++ ws)).
  destruct (spaces_run ws s pre "" n) as (s0 & Hsp & Hs0 & Hi0);
    [exact Hsz|split; [simpl; now rewrite append_empty_r|reflexivity]
    |exact Hws|exact I|exact Hn|].
  assert (Hend : pos s0 = size (input s0)) by exact (splits_eof s0 _ Hs0).
  assert (E : s0 = mkState (size (pre ++ ws)) (pre ++ ws)).
  { destruct s0 as [p i]. destruct Hs0 as [_ Hp]. simpl in *. now subst. }
  rewrite <- E.
  assert (Hb : forall i, (i <= 5)%nat ->
                 branchP i (S n) s = Returns (Failure s0 ["end of file"])).
  { intros i Hi. apply (branch_at_end i n s s0 (list_ascii_of_string ws) Hi); [|exact Hend].
    apply (spaces_refines n (spFuel i (S n))); [|exact Hsp].
    unfold spFuel. destruct (i <? 4)%nat; simpl; lia. }
  rewrite jsonP_unfold.
  rewrite orP_cons_failure by (do 2 eexists; exact (Hb 0%nat ltac:(lia))).
  rewrite orP_cons_failure by (do 2 eexists; exact (Hb 1%nat ltac:(lia))).
  rewrite orP_cons_failure by (do 2 eexists; exact (Hb 2%nat ltac:(lia))).
  rewrite orP_cons_failure by (do 2 eexists; exact (Hb 3%nat ltac:(lia))).
  rewrite orP_cons_failure by (do 2 eexists; exact (Hb 4%nat ltac:(lia))).
  exact (Hb 5%nat ltac:(lia)).
Qed.

Lemma jsonP_blank_input_witness :
  jsonP 4 (mkState (size "") ("" ++ " "))
  = Returns (Failure (mkState (size ("" ++ " ")) ("" ++ " ")) ["end of file"]).
Proof.
  apply (jsonP_blank_input "" " " 2).
  - repeat constructor.
  - reflexivity.
  - simpl; lia.
Defined.

(** ** The value and the first character *)

Lemma arrayP_success (n : nat) (s s' : ParseState) (v : JsonValue) :
  arrayP (S n) s = Returns (Success v s') ->
  exists s1 s2 items, readsElements n s1 s2 items /\ v = JSON_ARRAY items.
Proof.
  intros H. cbn [arrayP] in H.
  apply trimP_success in H as (ws & s0 & s3 & ws' & _ & H & _).
  apply betweenP_success in H as (a & s1 & s2 & b & _ & H & _).
  exists s1, s2.
  apply orP_success in H as [H|[_ H]].
  - apply andP_success in H as (x & sx & xs & Hx & Hxs & ->).
    apply manyP_returns_chain in Hxs as (xs' & s2' & E & Hc).
    injection E as <- <-.
    exists (x :: xs). split; [|reflexivity].
    right. now exists x, xs, sx.
  - injection H as <- <-. exists []. split; [now left|reflexivity].
Qed.

Lemma branch_type (i n : nat) (s s' : ParseState) (v : JsonValue) :
  (i <= 5)%nat -> branchP i n s = Returns (Success v s') -> typeOf v = i.
Proof.
  intros Hi H.
  destruct i as [|[|[|[|[|[|i]]]]]]; try lia; cbn [branchP] in H.
  - apply trimP_success in H as (ws & s0 & s1 & ws' & _ & H & _).
    now apply mapP_success in H as (a & _ & ->).
  - apply trimP_success in H as (ws & s0 & s1 & ws' & _ & H & _).
    apply orP_success in H as [H|[_ H]]; now apply mapP_success in H as (a & _ & ->).
  - apply trimP_success in H as (ws & s0 & s1 & ws' & _ & H & _).
    now apply mapP_success in H as (a & _ & ->).
  - now apply mapP_success in H as (a & _ & ->).
  - unfold lazyP in H. destruct n as [|n]; [discriminate|].
    now apply arrayP_success in H as (s1 & s2 & items & _ & ->).
  - unfold lazyP in H. destruct n as [|n]; [discriminate|].
    now apply objectP_value in H as (items & ->).
Qed.

(** X22: The type of the value [jsonP] returns is decided by
    the first character after the leading white space: [n] a null, [t]
    or [f] a boolean, [-] or a digit a number, a double quote a string,
    an opening square bracket an array, an opening brace an object. *)
Theorem jsonP_type_by_first_char (n : nat) (s s' : ParseState) (v : JsonValue)
  (H : jsonP (S n) s = Returns (Success v s')) :
  exists ws s0 c,
    spaces (spFuel (typeOf v) n) s = Returns (Success ws s0)
    /\ ahead s0 c /\ kindOf c = typeOf v.
Proof.
  destruct (jsonP_success_branch n s s' v H) as (i & Hi & Hb).
  rewrite (branch_type i n s s' v Hi Hb).
  exact (branch_lead i n s s' v Hi Hb).
Qed.

Lemma jsonP_type_by_first_char_witness :
  exists ws s0 c,
    spaces (spFuel (typeOf (JSON_BOOL true)) 2) (initial " true")
    = Returns (Success ws s0)
    /\ ahead s0 c /\ kindOf c = typeOf (JSON_BOOL true).
Proof.
  exact (jsonP_type_by_first_char 2 (initial " true") (mkState 5 " true")
           (JSON_BOOL true) eq_refl).
Defined.

(** X23: Whenever [arrayP] succeeds, it has skipped white
    space up to an opening bracket, read values one after the other,
    each but the first after a comma, up to a closing bracket, and its
    value is the array of these values in the order of the input. *)
Theorem arrayP_elements_in_order (n : nat) (s s' : ParseState) (v : JsonValue)
  (H : arrayP (S n) s = Returns (Success v s')) :
  exists ws s0 s2 items,
    spaces n s = Returns (Success ws s0)
    /\ ahead s0 "["%char
    /\ readsElements n (advance s0) s2 items
    /\ ahead s2 "]"%char
    /\ v = JSON_ARRAY items.
Proof.
  cbn [arrayP] in H.
  apply trimP_success in H as (ws & s0 & s3 & ws' & Hsp & H & _).
  apply betweenP_success in H as (a & s1 & s2 & b & Ho & H & Hc).
  apply charP_success_inv in Ho as (Ho & _ & ->).
  apply charP_success_inv in Hc as (Hc & _ & _).
  exists ws, s0, s2.
  apply orP_success in H as [H|[_ H]].
  - apply andP_success in H as (x & sx & xs & Hx & Hxs & ->).
    apply manyP_returns_chain in Hxs as (xs' & s2' & E & Hch).
    injection E as <- <-.
    exists (x :: xs). repeat split; try assumption.
    right. now exists x, xs, sx.
  - injection H as <- <-. exists []. repeat split; try assumption. now left.
Qed.

Lemma arrayP_elements_in_order_witness :
  exists ws s0 s2 items,
    spaces 4 (initial "[1, 2]") = Returns (Success ws s0)
    /\ ahead s0 "["%char
    /\ readsElements 4 (advance s0) s2 items
    /\ ahead s2 "]"%char
    /\ JSON_ARRAY [JSON_NUM 1; JSON_NUM 2] = JSON_ARRAY items.
Proof.
  exact (arrayP_elements_in_order 4 (initial "[1, 2]") (mkState 6 "[1, 2]")
           (JSON_ARRAY [JSON_NUM 1; JSON_NUM 2]) eq_refl).
Defined.

(** X24: A failure of [jsonP] is the failure of its last
    alternative [objectP], whatever the other alternatives have read:
    when the first character [c] after the leading white space is not an
    opening brace, [jsonP] reports [unexpect c] at the state after [c]. *)
Theorem jsonP_reports_last_alternative (n : nat) (s st : ParseState)
  (e : list string)
  (H : jsonP (S n) s = Returns (Failure st e)) :
  objectP n s = Returns (Failure st e)
  /\ (forall m ws s0 c,
        n = S m -> spaces m s = Returns (Success ws s0) -> ahead s0 c ->
        Ascii.eqb "{" c = false ->
        st = advance s0 /\ e = unexpect c).
Proof.
  assert (Ho : objectP n s = Returns (Failure st e)).
  { rewrite jsonP_unfold in H. cbn [orP] in H. unfold lazyP in H.
    repeat step_in H. exact H. }
  split; [exact Ho|]. intros m ws s0 c -> Hsp Hc Hne.
  rewrite (objectP_mismatch m s s0 ws c Hsp Hc Hne) in Ho.
  now injection Ho as <- <-.
Qed.

Lemma jsonP_reports_last_alternative_witness :
  objectP 4 (initial "[1,]") = Returns (Failure (mkState 1 "[1,]") (unexpect "["))
  /\ (forall m ws s0 c,
        4%nat = S m -> spaces m (initial "[1,]") = Returns (Success ws s0) ->
        ahead s0 c -> Ascii.eqb "{" c = false ->
        mkState 1 "[1,]" = advance s0 /\ unexpect "[" = unexpect c).
Proof.
  exact (jsonP_reports_last_alternative 4 (initial "[1,]") (mkState 1 "[1,]")
           (unexpect "[") eq_refl).
Defined.

(** ** operator== on JSON values *)

Section JsonInduction.
Variable P : JsonValue -> Prop.
Hypothesis Pnull : P JSON_NULL.
Hypothesis Pbool : forall b, P (JSON_BOOL b).
Hypothesis Pnum : forall x, P (JSON_NUM x).
Hypothesis Pstr : forall x, P (JSON_STRING x).
Hypothesis Parr : forall xs, Forall P xs -> P (JSON_ARRAY xs).
Hypothesis Pobj : forall m, Forall (fun kv => P (snd kv)) m -> P (JSON_OBJECT m).

Fixpoint JsonValue_nested_ind (v : JsonValue) : P v :=
  match v with
  | JSON_NULL => Pnull
  | JSON_BOOL b => Pbool b
  | JSON_NUM x => Pnum x
  | JSON_STRING x => Pstr x
  | JSON_ARRAY xs =>
      Parr xs ((fix go (l : list JsonValue) : Forall P l :=
                  match l with
                  | [] => Forall_nil P
                  | x :: l' => Forall_cons x (JsonValue_nested_ind x) (go l')
                  end) xs)
  | JSON_OBJECT m =>
      Pobj m ((fix go (l : smap JsonValue) : Forall (fun kv => P (snd kv)) l :=
                 match l with
                 | [] => Forall_nil _
                 | kv :: l' =>
                     Forall_cons kv (JsonValue_nested_ind (snd kv)) (go l')
                 end) m)
  end.

End JsonInduction.

Lemma json_eqb_sound (a : JsonValue) :
  forall b, numberFree a = true -> json_eqb a b = true -> a = b.
Proof.
  induction a as [|x|x|x|xs IH|m IH] using JsonValue_nested_ind;
    intros b Hn H; destruct b as [|y|y|y|ys|m']; try discriminate.
  - reflexivity.
  - f_equal. now apply Bool.eqb_prop.
  - f_equal. now apply String.eqb_eq.
  - f_equal. cbn [numberFree] in Hn. cbn [json_eqb] in H.
    revert ys Hn H. induction IH as [|x xs Hx _ IHxs]; intros [|y ys] Hn H;
      try discriminate; [reflexivity|].
    cbn [forallb] in Hn. apply andb_true_iff in Hn as [Hn1 Hn2].
    apply andb_true_iff in H as [H1 H2].
    f_equal; [now apply Hx|now apply IHxs].
  - f_equal. cbn [numberFree] in Hn. cbn [json_eqb] in H.
    revert m' Hn H. induction IH as [|[k x] m Hx _ IHm]; intros [|[k' y] m'] Hn H;
      try discriminate; [reflexivity|].
    cbn [forallb snd] in Hn. apply andb_true_iff in Hn as [Hn1 Hn2].
    apply andb_true_iff in H as [H12 H3]. apply andb_true_iff in H12 as [H1 H2].
    apply String.eqb_eq in H1. subst k'.
    f_equal; [f_equal; now apply Hx|now apply IHm].
Qed.

Lemma json_eqb_refl (a : JsonValue) : numberFree a = true -> json_eqb a a = true.
Proof.
  induction a as [|x|x|x|xs IH|m IH] using JsonValue_nested_ind; intros Hn;
    try discriminate.
  - reflexivity.
  - now destruct x.
  - apply String.eqb_refl.
  - cbn [numberFree] in Hn. cbn [json_eqb].
    induction IH as [|x xs Hx _ IHxs]; [reflexivity|].
    cbn [forallb] in Hn. apply andb_true_iff in Hn as [Hn1 Hn2].
    apply andb_true_iff. split; [now apply Hx|now apply IHxs].
  - cbn [numberFree] in Hn. cbn [json_eqb].
    induction IH as [|[k x] m Hx _ IHm]; [reflexivity|].
    cbn [forallb snd] in Hn. apply andb_true_iff in Hn as [Hn1 Hn2].
    rewrite String.eqb_refl. cbn [andb].
    apply andb_true_iff. split; [now apply Hx|now apply IHm].
Qed.

(** X25: On values that hold no number, [JsonValue::operator==]
    is equality of the values.  With numbers it is not: a NaN differs
    from itself, and the two zeros are equal. *)
Theorem json_eqb_structural :
  (forall a b, numberFree a = true -> (json_eqb a b = true <-> a = b))
  /\ json_eqb (JSON_NUM nan) (JSON_NUM nan) = false
  /\ json_eqb (JSON_NUM 0) (JSON_NUM (-0)) = true
  /\ JSON_NUM 0 <> JSON_NUM (-0).
Proof.
  split; [|split; [reflexivity|split; [reflexivity|]]].
  - intros a b Hn. split.
    + now apply json_eqb_sound.
    + intros <-. now apply json_eqb_refl.
  - intros H.
    apply (f_equal (fun v => match v with
                             | JSON_NUM x => PrimFloat.ltb (PrimFloat.div 1 x) 0
                             | _ => false
                             end)) in H.
    vm_compute in H. discriminate.
Qed.

(** ** main *)

Lemma assertParse_mono {T : Type} (eqb : T -> T -> bool) (p q : Parser T)
  (str : string) (x : T) :
  refines p q -> assertParse eqb p str x = Returns tt ->
  assertParse eqb q str x = Returns tt.
Proof.
  intros Hpq H. unfold assertParse, parse in *.
  destruct (p (initial str)) as [r| |] eqn:E; try discriminate.
  now rewrite (Hpq _ _ E).
Qed.

(** X26: [main] returns 0: each of its eight assertions holds. *)
Theorem main_returns (fuel : nat) : main (6 + fuel) = Returns 0%Z.
Proof.
  unfold main.
  rewrite (assertParse_mono _ (someP 6 (oneOfP "a")) (someP (6 + fuel) (oneOfP "a")));
    [|apply someP_refines; [apply refines_refl|lia]|reflexivity].
  rewrite (assertParse_mono _ (intP 6) (intP (6 + fuel)));
    [|apply intP_refines; lia|reflexivity].
  rewrite (assertParse_mono _ (doubleP 6) (doubleP (6 + fuel)));
    [|apply doubleP_refines; lia|reflexivity].
  rewrite !(assertParse_mono _ (jsonP 6) (jsonP (6 + fuel)));
    try (apply jsonP_refines; lia); reflexivity.
Qed.

(** ** Integer literals *)

Lemma endsNumber_noDigit (rest : string) : endsNumber rest -> noDigitAhead rest.
Proof. destruct rest as [|c rest]; [easy|]. now intros [H _]. Qed.

Lemma doubleP_whole (fuel : nat) (s s1 : ParseState) (pre rest : string) (x : Z) :
  intP fuel s = Returns (Success x s1) -> splits s1 pre rest -> endsNumber rest ->
  doubleP fuel s = Returns (Success (double_of_int x) s1).
Proof.
  intros Hint Hs1 Hend. unfold doubleP. rewrite orP_cons_failure.
  - cbn [orP]. unfold mapP. now rewrite Hint.
  - unfold fails_at, andP at 1. rewrite Hint. cbn [bind]. unfold rightP, andP.
    destruct rest as [|c rest].
    + unfold charP. rewrite (predP_eof _ s1 (splits_eof s1 pre Hs1)).
      now do 2 eexists.
    + destruct Hend as [_ Hdot].
      rewrite (charP_reject "." c s1 pre rest Hs1 Hdot). now do 2 eexists.
Qed.

Lemma numCore_reads_integer (n : nat) (d : ascii) (ds pre rest : string) :
  size (pre ++ String d ds ++ rest) < 2 ^ 64 ->
  allDigits (String d ds) -> endsNumber rest -> (String.length ds < n)%nat ->
  reads (numCore n) pre (String d ds) rest
        (JSON_NUM (double_of_int (natOf (digitsOf (String d ds))))).
Proof.
  intros Hsz Hall Hend Hn. apply reads_intro. intros s Hs.
  assert (Hsz' : size (input s) < 2 ^ 64) by (destruct Hs as [-> _]; exact Hsz).
  destruct (intP_plain d ds s pre rest n Hsz' Hs Hall (endsNumber_noDigit _ Hend) Hn)
    as (s1 & Hint & Hs1 & Hi1).
  exists s1. unfold numCore, mapP.
  rewrite (doubleP_whole n s s1 _ rest _ Hint Hs1 Hend). now split.
Qed.

Lemma numCore_reads_negative (n : nat) (d : ascii) (ds pre rest : string) :
  size (pre ++ String "-" (String d ds) ++ rest) < 2 ^ 64 ->
  allDigits (String d ds) -> endsNumber rest -> (String.length ds < n)%nat ->
  reads (numCore n) pre (String "-" (String d ds)) rest
        (JSON_NUM (double_of_int (negate (natOf (digitsOf (String d ds)))))).
Proof.
  intros Hsz Hall Hend Hn. apply reads_intro. intros s Hs.
  assert (Hsz' : size (input s) < 2 ^ 64) by (destruct Hs as [-> _]; exact Hsz).
  destruct (intP_negative d ds s pre rest n Hsz' Hs Hall (endsNumber_noDigit _ Hend) Hn)
    as (s1 & Hint & Hs1 & Hi1).
  exists s1. unfold numCore, mapP.
  rewrite (doubleP_whole n s s1 _ rest _ Hint Hs1 Hend). now split.
Qed.

(** X27: An integer literal of at most nine digits, with or without
    a minus sign and between any white space: [jsonP] reads it as the
    number with exactly that value. *)
Theorem jsonP_integer_literal (pre ws1 ws2 rest : string) (d : ascii) (ds : string)
  (n : nat)
  (Hall : allDigits (String d ds))
  (Hlen : (String.length ds < 9)%nat)
  (H1 : allOf isSpace ws1)
  (H2 : allOf isSpace ws2)
  (Hrest : noneAhead isSpace rest)
  (Hend : endsNumber (ws2 ++ rest))
  (Hsz : size pre + size ws1 + size ds + size ws2 + size rest + 2 < 2 ^ 64)
  (Hn : (String.length ws1 < n)%nat /\ (String.length ws2 < n)%nat
        /\ (String.length ds < n)%nat) :
  reads (jsonP (S n)) pre (ws1 ++ String d ds ++ ws2) rest
        (JSON_NUM (double_of_int (decimal (String d ds))))
  /\ reads (jsonP (S n)) pre (ws1 ++ String "-" (String d ds) ++ ws2) rest
           (JSON_NUM (double_of_int (- decimal (String d ds)))).
Proof.
  destruct Hn as (Hn1 & Hn2 & Hn3).
  destruct (natOf_decimal (String d ds) Hall) as [Hv Hr]; [simpl; lia|].
  assert (Hmax : (10 ^ Z.of_nat (String.length (String d ds)) <= 10 ^ 9)%Z)
    by (apply Z.pow_le_mono_r; simpl String.length; lia).
  assert (Hneg : negate (natOf (digitsOf (String d ds))) = (- decimal (String d ds))%Z).
  { rewrite Hv. unfold negate. apply int32_small. lia. }
  assert (Hd : isSpace d = false).
  { inversion Hall as [|? ? Hd _]; subst. clear - Hd.
    destruct (isSpace d) eqn:E; [|reflexivity].
    apply fold_or_In in E as [E|E]; [discriminate|].
    simpl in E. destruct E as [<-|[<-|[<-|[]]]]; discriminate. }
  assert (Hsel : forall body v,
    size body <= size ds + 2 -> noneAhead isSpace (body ++ ws2 ++ rest) ->
    (size ((pre ++ ws1) ++ body ++ ws2 ++ rest) < 2 ^ 64 ->
     reads (numCore n) (pre ++ ws1) body (ws2 ++ rest) v) ->
    reads (jsonP (S n)) pre (ws1 ++ body ++ ws2) rest v).
  { intros body v Hb Hmid Hcore.
    assert (Ht : reads (numP n) pre (ws1 ++ body ++ ws2) rest v).
    { change (numP n) with (trimP n (numCore n)).
      apply trimP_reads; try assumption.
      - rewrite !size_append. lia.
      - apply Hcore. rewrite !size_append. lia. }
    unfold reads in Ht |- *.
    destruct (jsonP_selects n (mkState (size pre) (pre ++ (ws1 ++ body ++ ws2) ++ rest))
                2%nat ltac:(lia)) as [-> _]; [|exact Ht].
    do 2 eexists. exact Ht. }
  split.
  - rewrite <- Hv. apply Hsel.
    + unfold size. simpl String.length. lia.
    + exact Hd.
    + intros Hsz'. now apply numCore_reads_integer.
  - rewrite <- Hneg. apply (Hsel (String "-" (String d ds))).
    + unfold size. simpl String.length. lia.
    + reflexivity.
    + intros Hsz'. now apply numCore_reads_negative.
Qed.

Lemma jsonP_integer_literal_witness :
  reads (jsonP 4) "" (" " ++ "042" ++ "") ", 1]"
        (JSON_NUM (double_of_int (decimal "042")))
  /\ reads (jsonP 4) "" (" " ++ "-042" ++ "") ", 1]"
           (JSON_NUM (double_of_int (- decimal "042"))).
Proof.
  apply (jsonP_integer_literal "" " " "" ", 1]" "0" "42" 3).
  - repeat constructor.
  - simpl; lia.
  - repeat constructor.
  - constructor.
  - reflexivity.
  - split; reflexivity.
  - reflexivity.
  - simpl; lia.
Defined.

(** ** operator== on results *)

(** X28: The result of [trimP p] on a text between white space
    and its result on the text alone are equal for
    [ParseResult::operator==], which compares the values and not the
    states; the two states stand at the ends of the two texts. *)
Theorem results_equal_up_to_whitespace {T : Type} (eqb : T -> T -> bool) (n : nat)
  (p : Parser T) (ws1 mid ws2 : string) (v : T)
  (Heq : eqb v v = true)
  (H1 : allOf isSpace ws1)
  (H2 : allOf isSpace ws2)
  (Hmid : noneAhead isSpace (mid ++ ws2))
  (Hsz : size (ws1 ++ mid ++ ws2) < 2 ^ 64)
  (Hn : (String.length ws1 < n)%nat /\ (String.length ws2 < n)%nat)
  (Hp1 : reads p ws1 mid ws2 v)
  (Hp2 : reads p "" mid "" v) :
  exists r1 r2,
    parse (trimP n p) (ws1 ++ mid ++ ws2) = Returns r1
    /\ parse (trimP n p) mid = Returns r2
    /\ result_eqb eqb r1 r2 = true
    /\ state_of r1 = mkState (size (ws1 ++ mid ++ ws2)) (ws1 ++ mid ++ ws2)
    /\ state_of r2 = mkState (size mid) mid.
Proof.
  destruct Hn as [Hn1 Hn2].
  assert (Hmid' : noneAhead isSpace mid).
  { destruct mid as [|c mid]; [exact I|exact Hmid]. }
  assert (Hsz' : size mid < 2 ^ 64).
  { rewrite !size_append in Hsz. lia. }
  assert (Ha : reads (trimP n p) "" (ws1 ++ mid ++ ws2) "" v).
  { apply trimP_reads; try assumption; try exact I.
    - simpl. now rewrite append_empty_r.
    - now rewrite !append_empty_r.
    - simpl. now rewrite append_empty_r. }
  assert (Hb : reads (trimP n p) "" ("" ++ mid ++ "") "" v).
  { apply trimP_reads; try assumption; try exact I; try constructor.
    - simpl. now rewrite !append_empty_r.
    - simpl. now rewrite append_empty_r.
    - simpl. lia.
    - simpl. lia. }
  unfold reads in Ha, Hb. simpl in Ha, Hb.
  rewrite ?append_empty_r in Ha. rewrite ?append_empty_r in Hb.
  do 2 eexists. unfold parse, initial. split; [exact Ha|]. split; [exact Hb|].
  split; [exact Heq|]. split; reflexivity.
Qed.

Lemma results_equal_up_to_whitespace_witness :
  exists r1 r2,
    parse (trimP 3 (stringP "x")) ("  " ++ "x" ++ " ") = Returns r1
    /\ parse (trimP 3 (stringP "x")) "x" = Returns r2
    /\ result_eqb String.eqb r1 r2 = true
    /\ state_of r1 = mkState (size ("  " ++ "x" ++ " ")) ("  " ++ "x" ++ " ")
    /\ state_of r2 = mkState (size "x") "x".
Proof.
  apply (results_equal_up_to_whitespace String.eqb 3 (stringP "x") "  " "x" " " "x").
  - reflexivity.
  - repeat constructor.
  - repeat constructor.
  - reflexivity.
  - reflexivity.
  - simpl; lia.
  - reflexivity.
  - reflexivity.
Defined.

(** ** No exception *)

Lemma faultFree_idP : faultFree idP.
Proof.
  intros s [Hb _]. unfold idP.
  destruct (N.eqb_spec (pos s) (size (input s))) as [E|NE]; [discriminate|].
  destruct (at_some (input s) (pos s)) as [c ->]; [|discriminate].
  unfold inBounds in Hb. lia.
Qed.

Lemma faultFree_predP (f : ascii -> bool) : faultFree (predP f).
Proof.
  intros s Hs. unfold predP. pose proof (faultFree_idP s Hs) as Hi.
  destruct (idP s) as [[c st|st e]| |]; cbn [bind]; try discriminate; [|contradiction].
  now destruct (negb (f c)).
Qed.

Lemma CopyFree_Engine (T : Type) (p : Parser T) : CopyFree T p -> Engine T p.
Proof.
  induction 1; try (constructor; assumption); apply E_stringP.
Qed.

Lemma CopyFree_trimP (T : Type) (fuel : nat) (p : Parser T) :
  CopyFree T p -> CopyFree T (trimP fuel p).
Proof.
  intros H. assert (Hsp : CopyFree (list ascii) (spaces fuel))
    by apply F_manyP, F_predP.
  apply F_andP; [exact Hsp|]. now apply F_andP.
Qed.

Lemma CopyFree_intP (fuel : nat) : CopyFree Z (intP fuel).
Proof.
  assert (Hn : CopyFree Z (natP fuel)).
  { apply F_mapP, F_andP; [|apply F_manyP]; apply F_mapP, F_predP. }
  apply F_orP; [reflexivity| |exact Hn].
  apply F_mapP, F_andP; [apply F_predP|exact Hn].
Qed.

Lemma CopyFree_doubleP (fuel : nat) : CopyFree float (doubleP fuel).
Proof.
  apply F_orP; [reflexivity| |apply F_mapP, CopyFree_intP].
  apply F_andP; [apply CopyFree_intP|].
  apply F_andP; [apply F_predP|].
  apply F_mapP, F_andP; [|apply F_manyP]; apply F_mapP, F_predP.
Qed.

Lemma CopyFree_escapeStrP (fuel : nat) : CopyFree string (escapeStrP fuel).
Proof.
  apply CopyFree_trimP. apply F_andP; [apply F_predP|].
  apply F_andP; [|apply F_predP].
  apply F_mapP, F_manyP, F_orP; [reflexivity| |apply F_predP].
  apply F_andP; [apply F_predP|apply F_mapP, F_idP].
Qed.

(** X29: From a well-formed state, a parser of the engine that copies no
    result where a copy breaks does not end in a [Fault]: [idP] does not
    read past the end of the input, and [manyP] does not read the
    [result] of a failed recursive call.  These are the parsers built
    with [stringP] on literals of at most one character and with [orP]
    at result types that a copy leaves intact, [intP], [doubleP] and
    [escapeStrP] among them. *)
Theorem engine_never_faults (T : Type) (p : Parser T) (s : ParseState)
  (Hp : CopyFree T p) (Hs : wellFormed s) :
  p s <> Fault.
Proof.
  revert s Hs. change (faultFree p).
  induction Hp as [| |f| |c|T x|A B p f Hp IH|T C p q qs HC Hp IHp Hq IHq
                   |A B C pa pb f Ha IHa Hb IHb|T fuel p Hp IH|T f Hf IH|T].
  - exact faultFree_idP.
  - intros s Hs. unfold eofP. now destruct (pos s =? size (input s)).
  - apply faultFree_predP.
  - intros s Hs. discriminate.
  - intros s Hs. cbn [stringP].
    pose proof (faultFree_predP (fun x => Ascii.eqb c x) s Hs) as Hc.
    change (predP (fun x => Ascii.eqb c x)) with (charP c) in Hc.
    now destruct (charP c s) as [[a st|st e]| |].
  - intros s Hs. discriminate.
  - intros s Hs. unfold mapP. pose proof (IH s Hs) as Hr.
    now destruct (p s) as [[v st|st e]| |].
  - intros s Hs. cbn [orP]. pose proof (IHp s Hs) as Hr.
    destruct (p s) as [[v st|st e]| |]; cbn [bind]; try discriminate;
      [|now apply IHq|contradiction].
    now rewrite copy_success.
  - intros s Hs. unfold andP. pose proof (IHa s Hs) as Hr.
    destruct (pa s) as [[a sa|st e]| |] eqn:E; cbn [bind]; try discriminate;
      [|contradiction].
    pose proof (IHb sa (Engine_wellFormed A pa s _ (CopyFree_Engine A pa Ha) Hs E))
      as Hr'.
    now destruct (pb sa) as [[b sb|st e]| |].
  - induction fuel as [|fuel IHf]; intros s Hs; cbn [manyP]; [discriminate|].
    pose proof (IH s Hs) as Hr.
    destruct (p s) as [[v st|st e]| |] eqn:E; cbn [bind]; try discriminate;
      [|contradiction].
    pose proof (IHf st (Engine_wellFormed T p s _ (CopyFree_Engine T p Hp) Hs E))
      as Hr'.
    destruct (manyP fuel p st) as [rs| |] eqn:Em; cbn [bind]; try discriminate;
      [|contradiction].
    now destruct (manyP_returns_chain p fuel st rs Em) as (vs & s' & -> & _).
  - exact IH.
  - intros s Hs. discriminate.
Qed.

Lemma engine_never_faults_witness :
  escapeStrP 4 (initial (String quote "a\")) <> Fault.
Proof.
  apply (engine_never_faults string (escapeStrP 4) (initial (String quote "a\"))).
  - apply CopyFree_escapeStrP.
  - split; [unfold inBounds; vm_compute; discriminate|reflexivity].
Defined.

(** ** Termination *)




























(** * The texts of the grammar *)

(** ** Lists between brackets *)

Ltac text := repeat (progress (rewrite ?append_assoc; cbn [append])).

Ltac text_in H :=
  repeat (progress (rewrite ?append_assoc in H; cbn [append] in H)).

Lemma andP_intro {A B C : Type} (pa : Parser A) (pb : Parser B) (f : A -> B -> C)
  (s sa sb : ParseState) (a : A) (b : B) :
  pa s = Returns (Success a sa) -> pb sa = Returns (Success b sb) ->
  andP pa pb f s = Returns (Success (f a b) sb).
Proof. intros Ha Hb. unfold andP. rewrite Ha. cbn [bind]. now rewrite Hb. Qed.

Lemma bracketed_reads {T R : Type} {C : RawAssignable R} (q : Parser T) (o cl : ascii)
  (f : T -> list T -> R) (e : R) (m : nat) (s sx s2 : ParseState) (x : T)
  (xs : list T) :
  rawAssign R = true ->
  ahead s o -> q (advance s) = Returns (Success x sx) ->
  Chain (rightP (charP ",") q) sx xs s2 -> (List.length xs < m)%nat ->
  ahead s2 cl ->
  bracketed q o cl f e m s = Returns (Success (f x xs) (advance s2)).
Proof.
  intros HC Ho Hx Hch Hm Hc. unfold bracketed, betweenP, rightP at 1, leftP.
  assert (Hlist : andP q (manyP m (rightP (charP ",") q)) f (advance s)
                  = Returns (Success (f x xs) s2)).
  { apply (andP_intro _ _ _ _ sx); [exact Hx|]. now apply manyP_of_chain. }
  assert (Hopen : charP o s = Returns (Success o (advance s)))
    by (apply predP_accept; [exact Ho|apply Ascii.eqb_refl]).
  assert (Hclose : charP cl s2 = Returns (Success cl (advance s2)))
    by (apply predP_accept; [exact Hc|apply Ascii.eqb_refl]).
  unfold andP at 1. rewrite Hopen. cbn [bind]. unfold andP at 1.
  rewrite orP_cons_success; [|exact HC|do 2 eexists; exact Hlist].
  rewrite Hlist. cbn [bind]. now rewrite Hclose.
Qed.

Lemma separated_stop {T : Type} (q : Parser T) (s : ParseState) (c : ascii) :
  ahead s c -> Ascii.eqb "," c = false -> Chain (rightP (charP ",") q) s [] s.
Proof.
  intros Hc Hne. apply (Chain_stop _ s (advance s) (unexpect c)).
  unfold rightP, andP. now rewrite (charP_mismatch "," c s Hc Hne).
Qed.

Lemma separated_more {T : Type} (q : Parser T) (s s1 s2 : ParseState) (x : T)
  (xs : list T) :
  ahead s "," -> q (advance s) = Returns (Success x s1) ->
  Chain (rightP (charP ",") q) s1 xs s2 ->
  Chain (rightP (charP ",") q) s (x :: xs) s2.
Proof.
  intros Hc Hq Hch. apply (Chain_step _ s s1); [|exact Hch].
  unfold rightP, andP.
  rewrite (predP_accept _ s "," Hc eq_refl : charP "," s = _). cbn [bind].
  now rewrite Hq.
Qed.

(** ** Numbers with a fraction *)

Lemma numCore_reads_fraction (n : nat) (sign : bool) (d1 : ascii) (ds1 : string)
  (d2 : ascii) (ds2 pre rest : string) :
  let int := if sign then String "-" (String d1 ds1) else String d1 ds1 in
  let x := natOf (digitsOf (String d1 ds1)) in
  size (pre ++ (int ++ String "." (String d2 ds2)) ++ rest) < 2 ^ 64 ->
  allDigits (String d1 ds1) -> allDigits (String d2 ds2) -> noDigitAhead rest ->
  (String.length ds1 < n)%nat -> (String.length ds2 < n)%nat ->
  reads (numCore n) pre (int ++ String "." (String d2 ds2)) rest
        (JSON_NUM (PrimFloat.add (double_of_int (if sign then negate x else x))
                                 (fractionOf (digitsOf (String d2 ds2))))).
Proof.
  intros int x Hsz H1 H2 Hstop Hn1 Hn2. apply reads_intro. intros s Hs.
  assert (Hsz' : size (input s) < 2 ^ 64) by (destruct Hs as [-> _]; exact Hsz).
  rewrite append_assoc in Hs.
  assert (Hint : exists s1,
            intP n s = Returns (Success (if sign then negate x else x) s1)
            /\ splits s1 (pre ++ int) (String "." (String d2 ds2 ++ rest))
            /\ input s1 = input s).
  { subst int x. destruct sign.
    - now apply intP_negative.
    - now apply intP_plain. }
  destruct Hint as (s1 & Hx & Hs1 & Hi1).
  destruct (doubleP_fraction _ d2 ds2 s s1 _ rest n
              ltac:(rewrite Hi1; exact Hsz') Hx Hs1 H2 Hstop Hn2)
    as (s' & Hd & Hs' & Hi').
  exists s'. unfold numCore, mapP. rewrite Hd. split; [reflexivity|].
  split; [|congruence]. now rewrite append_assoc in Hs'.
Qed.

Lemma numCore_reads_text (n : nat) (w pre rest : string) (x : float) :
  NumberText w x -> size (pre ++ w ++ rest) < 2 ^ 64 -> endsNumber rest ->
  (String.length w <= n)%nat -> reads (numCore n) pre w rest (JSON_NUM x).
Proof.
  intros Hw Hsz Hend Hn.
  destruct Hw as [d ds Hd|d ds Hd|d1 ds1 d2 ds2 H1 H2|d1 ds1 d2 ds2 H1 H2].
  - apply numCore_reads_integer; try assumption; simpl in Hn; lia.
  - apply numCore_reads_negative; try assumption; simpl in Hn; lia.
  - cbn [String.length append] in Hn. rewrite length_append in Hn. simpl in Hn.
    apply (numCore_reads_fraction n false d1 ds1 d2 ds2 pre rest);
      try assumption; [now apply endsNumber_noDigit|lia|lia].
  - cbn [String.length append] in Hn. rewrite length_append in Hn. simpl in Hn.
    apply (numCore_reads_fraction n true d1 ds1 d2 ds2 pre rest);
      try assumption; [now apply endsNumber_noDigit|lia|lia].
Qed.

Lemma digit_not_space (d : ascii) : isDigit d = true -> isSpace d = false.
Proof.
  intros Hd. destruct (isSpace d) eqn:E; [|reflexivity].
  apply fold_or_In in E as [E|E]; [discriminate|].
  simpl in E. destruct E as [<-|[<-|[<-|[]]]]; discriminate.
Qed.

Lemma space_not_digit (c : ascii) : isSpace c = true -> isDigit c = false.
Proof.
  intros H. destruct (isDigit c) eqn:E; [|reflexivity].
  apply digit_not_space in E. congruence.
Qed.

Lemma NumberText_lead (w : string) (x : float) (tail : string) :
  NumberText w x -> noneAhead isSpace (w ++ tail).
Proof.
  intros [d ds Hd|d ds Hd|d1 ds1 d2 ds2 H1 H2|d1 ds1 d2 ds2 H1 H2];
    try reflexivity.
  - inversion Hd; subst. now apply digit_not_space.
  - inversion H1; subst. now apply digit_not_space.
Qed.

Lemma endsNumber_padded (ws rest : string) :
  allOf isSpace ws -> endsNumber rest -> endsNumber (ws ++ rest).
Proof.
  intros Hws Hend. destruct ws as [|c ws]; [exact Hend|].
  inversion Hws; subst. split; [now apply space_not_digit|now apply space_not_dot].
Qed.

(** ** One alternative between white space *)

Lemma jsonP_reads_branch (i n : nat) (pre w rest : string) (v : JsonValue) :
  (i <= 5)%nat -> reads (branchP i n) pre w rest v ->
  reads (jsonP (S n)) pre w rest v.
Proof.
  unfold reads. intros Hi H.
  destruct (jsonP_selects n (mkState (size pre) (pre ++ w ++ rest)) i Hi) as [-> _];
    [do 2 eexists; exact H|exact H].
Qed.

Lemma trimP_mapP {A B : Type} (n : nat) (p : Parser A) (f : A -> B) (s : ParseState) :
  mapP (trimP n p) f s = trimP n (mapP p f) s.
Proof.
  unfold mapP at 1. rewrite !trimP_unfold. unfold mapP, success.
  destruct (spaces n s) as [[ws s0|st e]| |]; cbn [bind]; try reflexivity.
  destruct (p s0) as [[v s1|st e]| |]; cbn [bind]; try reflexivity.
  now destruct (spaces n s1) as [[ws' s2|st e]| |].
Qed.

Lemma jsonP_reads_trimmed (i n m : nat) (core : Parser JsonValue)
  (pre ws1 mid ws2 rest : string) (v : JsonValue) :
  (i <= 5)%nat -> (forall s, branchP i n s = trimP m core s) ->
  size (pre ++ (ws1 ++ mid ++ ws2) ++ rest) < 2 ^ 64 ->
  allOf isSpace ws1 -> allOf isSpace ws2 ->
  noneAhead isSpace (mid ++ ws2 ++ rest) -> noneAhead isSpace rest ->
  (String.length ws1 < m)%nat -> (String.length ws2 < m)%nat ->
  reads core (pre ++ ws1) mid (ws2 ++ rest) v ->
  reads (jsonP (S n)) pre (ws1 ++ mid ++ ws2) rest v.
Proof.
  intros Hi Hb Hsz H1 H2 Hmid Hrest Hn1 Hn2 Hcore.
  apply (jsonP_reads_branch i); [exact Hi|]. unfold reads. rewrite Hb.
  now apply trimP_reads.
Qed.

(** ** Values and pairs that commas separate *)

Section SeparatedTexts.

Context {T R : Type} {C : RawAssignable R} (q : nat -> Parser T) (o cl : ascii)
  (f : T -> list T -> R) (e : R).

Hypothesis HC : rawAssign R = true.
Hypothesis Hcomma : Ascii.eqb "," cl = false.
Hypothesis Hspace : isSpace cl = false.
Hypothesis Hdigit : isDigit cl = false.
Hypothesis Hdot : Ascii.eqb "." cl = false.

Lemma readsList_last (w : string) (v : T) :
  ReadsItem q w v -> ReadsList q cl w [v].
Proof.
  intros Hw pre rest Hsz.
  destruct (Hw pre (String cl rest) Hspace (conj Hdigit Hdot) Hsz) as [N HN].
  exists (S N). intros n Hn s Hs.
  destruct (reads_elim (q n) pre w _ v s (HN n ltac:(lia)) Hs) as (s' & Hq & Hs' & Hi).
  exists v, [], s', s'.
  split; [reflexivity|]. split; [simpl; lia|]. split; [exact Hq|].
  split; [|split; [exact Hs'|exact Hi]].
  apply (separated_stop _ s' cl); [|exact Hcomma].
  exact (splits_at s' _ rest cl Hs').
Qed.

Lemma readsList_more (w ws : string) (v : T) (vs : list T) :
  ReadsItem q w v -> ReadsList q cl ws vs ->
  ReadsList q cl (w ++ String "," ws) (v :: vs).
Proof.
  intros Hw Hws pre rest Hsz.
  destruct (Hw pre (String "," (ws ++ String cl rest))) as [N1 H1];
    [reflexivity|split; reflexivity|text; text_in Hsz; exact Hsz|].
  destruct (Hws ((pre ++ w) ++ String "," "") rest) as [N2 H2];
    [text; text_in Hsz; exact Hsz|].
  exists (S (Nat.max N1 N2)). intros n Hn s Hs. text_in Hs.
  assert (Hsz' : size (input s) < 2 ^ 64).
  { destruct Hs as [-> _]. text_in Hsz. exact Hsz. }
  destruct (reads_elim (q n) pre w _ v s (H1 n ltac:(lia)) Hs) as (sx & Hq & Hsx & Hi).
  assert (Hszx : size (input sx) < 2 ^ 64) by now rewrite Hi.
  destruct (H2 n ltac:(lia) (advance sx) (splits_advance sx _ _ "," Hszx Hsx))
    as (x & xs & sx' & s2 & -> & Hlen & Hq' & Hch & Hs2 & Hi2).
  exists v, (x :: xs), sx, s2.
  split; [reflexivity|]. split; [simpl; lia|]. split; [exact Hq|].
  split; [|split].
  - apply (separated_more _ sx sx'); [|exact Hq'|exact Hch].
    exact (splits_at sx _ _ "," Hsx).
  - text_in Hs2. text. exact Hs2.
  - rewrite Hi2. simpl. exact Hi.
Qed.

Lemma bracketed_reads_list (w : string) (vs : list T) :
  ReadsList q cl w vs ->
  forall pre rest,
    size (pre ++ String o (w ++ String cl "") ++ rest) < 2 ^ 64 ->
    exists N x xs,
      vs = x :: xs
      /\ forall m, (N <= m)%nat ->
         reads (bracketed (q m) o cl f e m) pre (String o (w ++ String cl "")) rest
               (f x xs).
Proof.
  intros Hw pre rest Hsz.
  destruct (Hw (pre ++ String o "") rest) as [N HN]; [text; text_in Hsz; exact Hsz|].
  set (s := mkState (size pre) (pre ++ String o (w ++ String cl "") ++ rest)).
  assert (Hs : splits s pre (String o (w ++ String cl rest))).
  { split; [|reflexivity]. subst s. simpl input. now text. }
  assert (Hs1 : splits (advance s) (pre ++ String o "") (w ++ String cl rest))
    by (apply splits_advance; [exact Hsz|exact Hs]).
  destruct (HN N (Nat.le_refl _) (advance s) Hs1)
    as (x & xs & _ & _ & -> & Hlen & _).
  exists N, x, xs. split; [reflexivity|]. intros m Hm.
  destruct (HN m Hm (advance s) Hs1)
    as (x' & xs' & sx & s2 & E & _ & Hq & Hch & Hs2 & Hi2).
  injection E as <- <-.
  assert (Hsz2 : size (input s2) < 2 ^ 64) by (rewrite Hi2; exact Hsz).
  unfold reads. fold s.
  rewrite (bracketed_reads (q m) o cl f e m s sx s2 x xs HC
             (splits_at s pre _ o Hs) Hq Hch ltac:(lia) (splits_at s2 _ rest cl Hs2)).
  f_equal. f_equal.
  apply splits_advance in Hs2; [|exact Hsz2]. apply splits_state in Hs2.
  rewrite Hs2. f_equal; [f_equal; now text|now text].
Qed.

End SeparatedTexts.

Lemma itemP_reads_text (ws1 body ws2 w : string) (v : JsonValue) :
  allOf isSpace ws1 -> allOf isSpace ws2 -> closedBody body = true ->
  ReadsItem jsonP w v ->
  ReadsItem itemP ((ws1 ++ quoted body ++ ws2) ++ String ":" w) (unescape body, v).
Proof.
  intros H1 H2 Hc Hw pre rest Hr He Hsz.
  destruct (Hw ((pre ++ ws1 ++ quoted body ++ ws2) ++ String ":" "") rest Hr He)
    as [N HN]; [text; text_in Hsz; exact Hsz|].
  exists (S (Nat.max N (Nat.max (String.length ws1)
                          (Nat.max (String.length ws2) (String.length body))))).
  intros n Hn. apply reads_intro. intros s Hs.
  assert (Hsz' : size (input s) < 2 ^ 64) by (destruct Hs as [-> _]; exact Hsz).
  assert (Hkey : reads (escapeStrP n) pre (ws1 ++ quoted body ++ ws2)
                       (String ":" (w ++ rest)) (unescape body)).
  { change (escapeStrP n) with (trimP n (strCore n)).
    apply trimP_reads; try assumption; try reflexivity; try lia.
    - text. text_in Hsz. exact Hsz.
    - apply strCore_reads; [|exact Hc|lia]. text. text_in Hsz. exact Hsz. }
  rewrite append_assoc in Hs. cbn [append] in Hs.
  destruct (reads_elim _ _ _ _ _ s Hkey Hs) as (s1 & Hk & Hs1 & Hi1).
  assert (Hsz1 : size (input s1) < 2 ^ 64) by now rewrite Hi1.
  pose proof (splits_advance s1 _ _ ":" Hsz1 Hs1) as Hs2.
  destruct (reads_elim _ _ _ _ _ (advance s1) (HN n ltac:(lia)) Hs2)
    as (s' & Hv & Hs' & Hi').
  exists s'. split; [|split].
  - unfold itemP, andP at 1. rewrite Hk. cbn [bind]. unfold rightP, andP.
    rewrite (charP_accept ":" s1 _ _ Hs1). cbn [bind]. unfold lazyP.
    now rewrite Hv.
  - text_in Hs'. text. exact Hs'.
  - rewrite Hi'. simpl. exact Hi1.
Qed.

(** ** Every text of the grammar is read *)

Lemma grammar_read :
  (forall w v, JsonText w v -> ReadsItem jsonP w v)
  /\ (forall core v, CoreText core v -> ReadsCore core v)
  /\ (forall w vs, ElemsText w vs ->
        ReadsList (fun n => lazyP (fun _ => jsonP n)) "]" w vs)
  /\ (forall w kvs, PairsText w kvs -> ReadsList itemP "}" w kvs).
Proof.
  apply JsonText_mutual.
  - intros ws1 core ws2 v H1 H2 _ IH pre rest Hr He Hsz.
    exact (IH pre ws1 ws2 rest H1 H2 Hr He Hsz).
  - intros pre ws1 ws2 rest H1 H2 Hr He Hsz.
    exists (S (S (Nat.max (String.length ws1) (String.length ws2)))).
    intros [|n] Hn; [lia|].
    apply (jsonP_reads_trimmed 0 n n nullCore); try assumption; try reflexivity;
      try lia.
    apply nullCore_reads. text. text_in Hsz. exact Hsz.
  - intros pre ws1 ws2 rest H1 H2 Hr He Hsz.
    exists (S (S (Nat.max (String.length ws1) (String.length ws2)))).
    intros [|n] Hn; [lia|].
    apply (jsonP_reads_trimmed 1 n n boolCore); try assumption; try reflexivity;
      try lia.
    apply boolCore_reads_true. text. text_in Hsz. exact Hsz.
  - intros pre ws1 ws2 rest H1 H2 Hr He Hsz.
    exists (S (S (Nat.max (String.length ws1) (String.length ws2)))).
    intros [|n] Hn; [lia|].
    apply (jsonP_reads_trimmed 1 n n boolCore); try assumption; try reflexivity;
      try lia.
    apply boolCore_reads_false. text. text_in Hsz. exact Hsz.
  - intros w x Hw pre ws1 ws2 rest H1 H2 Hr He Hsz.
    exists (S (S (Nat.max (String.length w)
                    (Nat.max (String.length ws1) (String.length ws2))))).
    intros [|n] Hn; [lia|].
    apply (jsonP_reads_trimmed 2 n n (numCore n)); try assumption; try reflexivity;
      try lia.
    + now apply (NumberText_lead w x).
    + apply numCore_reads_text; [exact Hw| |now apply endsNumber_padded|lia].
      text. text_in Hsz. exact Hsz.
  - intros body Hc pre ws1 ws2 rest H1 H2 Hr He Hsz.
    exists (S (S (Nat.max (String.length body)
                    (Nat.max (String.length ws1) (String.length ws2))))).
    intros [|n] Hn; [lia|].
    apply (jsonP_reads_trimmed 3 n n (mapP (strCore n) JSON_STRING));
      try assumption; try reflexivity; try lia.
    + intros s. apply trimP_mapP.
    + assert (Hb : reads (strCore n) (pre ++ ws1) (quoted body) (ws2 ++ rest)
                         (unescape body)).
      { apply strCore_reads; [|exact Hc|lia]. text. text_in Hsz. exact Hsz. }
      unfold reads, mapP in *. now rewrite Hb.
  - intros pre ws1 ws2 rest H1 H2 Hr He Hsz.
    exists (5 + Nat.max (String.length ws1) (String.length ws2))%nat.
    intros [|[|[|[|[|k]]]]] Hn; try lia.
    apply (jsonP_reads_trimmed 4 (S (S (S (S k)))) (S (S (S k)))
             (arrCore (S (S (S k))))); try assumption; try reflexivity; try lia.
    apply arrCore_reads_empty. text. text_in Hsz. exact Hsz.
  - intros w vs _ IH pre ws1 ws2 rest H1 H2 Hr He Hsz.
    destruct (bracketed_reads_list (C := assign_json)
                (fun n => lazyP (fun _ => jsonP n)) "[" "]"
                consArray (JSON_ARRAY []) eq_refl w vs IH
                (pre ++ ws1) (ws2 ++ rest)) as (N & x & xs & -> & HN);
      [text; text_in Hsz; exact Hsz|].
    exists (3 + Nat.max N (Nat.max (String.length ws1) (String.length ws2)))%nat.
    intros [|[|m]] Hn; try lia.
    apply (jsonP_reads_trimmed 4 (S m) m (arrCore m)); try assumption;
      try reflexivity; try lia.
    rewrite arrCore_bracketed. apply HN. lia.
  - intros pre ws1 ws2 rest H1 H2 Hr He Hsz.
    exists (5 + Nat.max (String.length ws1) (String.length ws2))%nat.
    intros [|[|[|[|[|k]]]]] Hn; try lia.
    apply (jsonP_reads_trimmed 5 (S (S (S (S k)))) (S (S (S k)))
             (objCore (S (S (S k))))); try assumption; try reflexivity; try lia.
    apply objCore_reads_empty. text. text_in Hsz. exact Hsz.
  - intros w kvs _ IH pre ws1 ws2 rest H1 H2 Hr He Hsz.
    destruct (bracketed_reads_list (C := assign_json) itemP "{" "}"
                consObject (JSON_OBJECT []) eq_refl w kvs IH
                (pre ++ ws1) (ws2 ++ rest)) as (N & x & xs & -> & HN);
      [text; text_in Hsz; exact Hsz|].
    exists (3 + Nat.max N (Nat.max (String.length ws1) (String.length ws2)))%nat.
    intros [|[|m]] Hn; try lia.
    apply (jsonP_reads_trimmed 5 (S m) m (objCore m)); try assumption;
      try reflexivity; try lia.
    rewrite objCore_bracketed. apply HN. lia.
  - intros w v _ IH.
    apply (readsList_last (fun n => lazyP (fun _ => jsonP n)) "]");
      try reflexivity. exact IH.
  - intros w ws v vs _ IHw _ IHws.
    apply (readsList_more (fun n => lazyP (fun _ => jsonP n)) "]");
      try reflexivity; [exact IHw|exact IHws].
  - intros ws1 body ws2 w v H1 H2 Hc _ IH.
    apply (readsList_last itemP "}"); try reflexivity.
    now apply itemP_reads_text.
  - intros ws1 body ws2 w ps v kvs H1 H2 Hc _ IHw _ IHps.
    pose proof (readsList_more itemP "}"
                  ((ws1 ++ quoted body ++ ws2) ++ String ":" w) ps
                  (unescape body, v) kvs
                  (itemP_reads_text ws1 body ws2 w v H1 H2 Hc IHw) IHps) as H.
    now rewrite append_assoc in H.
Qed.

(** ** Objects *)

Lemma objectP_success (n : nat) (s s' : ParseState) (v : JsonValue) :
  objectP (S n) s = Returns (Success v s') ->
  exists ws s0 s2 items ws',
    spaces n s = Returns (Success ws s0)
    /\ ahead s0 "{"%char
    /\ readsItems n (advance s0) s2 items
    /\ ahead s2 "}"%char
    /\ spaces n (advance s2) = Returns (Success ws' s')
    /\ v = JSON_OBJECT (mapOf items).
Proof.
  intros H. cbn [objectP] in H.
  apply trimP_success in H as (ws & s0 & s3 & ws' & Hsp & H & Hsp').
  apply betweenP_success in H as (a & s1 & s2 & b & Ho & H & Hc).
  apply charP_success_inv in Ho as (Ho & _ & ->).
  apply charP_success_inv in Hc as (Hc & _ & ->).
  exists ws, s0, s2.
  apply orP_success in H as [H|[_ H]].
  - apply andP_success in H as (x & sx & xs & Hx & Hxs & ->).
    apply manyP_returns_chain in Hxs as (xs' & s2' & E & Hch).
    injection E as <- <-.
    exists (x :: xs), ws'. repeat split; try assumption.
    right. now exists x, xs, sx.
  - injection H as <- <-. exists [], ws'. repeat split; try assumption. now left.
Qed.

Lemma objectP_of_items (n : nat) (s s0 sx s2 s' : ParseState) (ws ws' : list ascii)
  (x : string * JsonValue) (xs : list (string * JsonValue)) :
  spaces n s = Returns (Success ws s0) -> ahead s0 "{"%char ->
  itemP n (advance s0) = Returns (Success x sx) ->
  Chain (rightP (charP ",") (itemP n)) sx xs s2 -> (List.length xs < n)%nat ->
  ahead s2 "}"%char -> spaces n (advance s2) = Returns (Success ws' s') ->
  objectP (S n) s = Returns (Success (JSON_OBJECT (mapOf (x :: xs))) s').
Proof.
  intros Hsp Ho Hx Hch Hlen Hc Hsp'.
  rewrite objectP_unfold, trimP_unfold, Hsp. cbn [bind].
  rewrite objCore_bracketed.
  rewrite (bracketed_reads (C := assign_json) (itemP n) "{" "}" consObject
             (JSON_OBJECT []) n s0 sx s2 x xs eq_refl Ho Hx Hch Hlen Hc).
  cbn [bind]. now rewrite Hsp'.
Qed.

Lemma object_text_read (w : string) (kvs : list (string * JsonValue))
  (pre ws1 ws2 rest : string) :
  PairsText w kvs -> allOf isSpace ws1 -> allOf isSpace ws2 ->
  noneAhead isSpace rest ->
  size (pre ++ (ws1 ++ String "{" (w ++ "}") ++ ws2) ++ rest) < 2 ^ 64 ->
  exists N, forall n, (N <= n)%nat ->
    reads (objectP n) pre (ws1 ++ String "{" (w ++ "}") ++ ws2) rest
          (JSON_OBJECT (mapOf kvs))
    /\ reads (jsonP n) pre (ws1 ++ String "{" (w ++ "}") ++ ws2) rest
             (JSON_OBJECT (mapOf kvs)).
Proof.
  intros Hw H1 H2 Hr Hsz.
  pose proof (proj2 (proj2 (proj2 grammar_read)) w kvs Hw) as IH.
  destruct (bracketed_reads_list (C := assign_json) itemP "{" "}"
              consObject (JSON_OBJECT []) eq_refl w kvs IH
              (pre ++ ws1) (ws2 ++ rest)) as (N & x & xs & -> & HN);
    [text; text_in Hsz; exact Hsz|].
  exists (3 + Nat.max N (Nat.max (String.length ws1) (String.length ws2)))%nat.
  intros [|[|m]] Hn; try lia.
  assert (Ho : reads (objectP (S m)) pre (ws1 ++ String "{" (w ++ "}") ++ ws2) rest
                     (JSON_OBJECT (mapOf (x :: xs)))).
  { rewrite objectP_unfold. apply trimP_reads; try assumption; try reflexivity;
      try lia.
    rewrite objCore_bracketed. apply HN. lia. }
  split.
  - apply (objectP_refines (S m) (S (S m))); [lia|exact Ho].
  - apply (jsonP_reads_branch 5); [lia|exact Ho].
Qed.

(** C4: whenever [objectP] succeeds it has skipped white space up to an
    opening brace, read pairs one after the other, each but the first
    after a comma, up to a closing brace, and its value is the object
    built by [mapOf] from these pairs in the order of the input; and
    whenever the pairs are read so, [objectP] succeeds with that object.
    Every object text of the grammar, followed by the end of the input or
    by anything that is no white space, is read by [objectP] and by
    [jsonP] as [mapOf] of its pairs in the order of the text.  [mapOf]
    yields a mapping in strictly increasing key order, gives each key the
    value of its last occurrence, and depends on the pairs only through
    these last occurrences, so that the order in which distinct keys are
    written does not matter.  In particular the text
    [{"xyz": 2, "abc": 1}] parses to the object with ["abc"] mapped to
    [1.0] and ["xyz"] to [2.0], as does the text with the two pairs
    written in the other order, and a repeated key keeps its last value. *)
Theorem objectP_key_sorted_mapping :
  (forall n s v s',
      objectP (S n) s = Returns (Success v s') ->
      exists ws s0 s2 items ws',
        spaces n s = Returns (Success ws s0)
        /\ ahead s0 "{"%char
        /\ readsItems n (advance s0) s2 items
        /\ ahead s2 "}"%char
        /\ spaces n (advance s2) = Returns (Success ws' s')
        /\ v = JSON_OBJECT (mapOf items))
  /\ (forall n s ws s0 x sx xs s2 ws' s',
      spaces n s = Returns (Success ws s0) -> ahead s0 "{"%char ->
      itemP n (advance s0) = Returns (Success x sx) ->
      Chain (rightP (charP ",") (itemP n)) sx xs s2 -> (List.length xs < n)%nat ->
      ahead s2 "}"%char -> spaces n (advance s2) = Returns (Success ws' s') ->
      objectP (S n) s = Returns (Success (JSON_OBJECT (mapOf (x :: xs))) s'))
  /\ (forall w kvs ws1 ws2 x,
      PairsText w kvs -> allOf isSpace ws1 -> allOf isSpace ws2 ->
      noneAhead isSpace x ->
      size ((ws1 ++ String "{" (w ++ "}") ++ ws2) ++ x) < 2 ^ 64 ->
      exists N, forall n, (N <= n)%nat ->
        parse (objectP n) ((ws1 ++ String "{" (w ++ "}") ++ ws2) ++ x)
        = Returns (Success (JSON_OBJECT (mapOf kvs))
            (mkState (size (ws1 ++ String "{" (w ++ "}") ++ ws2))
                     ((ws1 ++ String "{" (w ++ "}") ++ ws2) ++ x)))
        /\ parse (jsonP n) ((ws1 ++ String "{" (w ++ "}") ++ ws2) ++ x)
           = Returns (Success (JSON_OBJECT (mapOf kvs))
               (mkState (size (ws1 ++ String "{" (w ++ "}") ++ ws2))
                        ((ws1 ++ String "{" (w ++ "}") ++ ws2) ++ x))))
  /\ (forall items, sortedMap (mapOf items))
  /\ (forall items k, find k (mapOf items) = find k (rev items))
  /\ (forall xs ys,
      (forall k, find k (rev xs) = find k (rev ys)) ->
      JSON_OBJECT (mapOf xs) = JSON_OBJECT (mapOf ys))
  /\ (forall xs ys,
      Permutation xs ys -> NoDup (map fst xs) ->
      JSON_OBJECT (mapOf xs) = JSON_OBJECT (mapOf ys))
  /\ (forall fuel,
      parse (jsonP (6 + fuel))
            ("{" ++ quoted "xyz" ++ ": 2, " ++ quoted "abc" ++ ": 1}")
      = Returns (Success
          (JSON_OBJECT [("abc", JSON_NUM 1%float); ("xyz", JSON_NUM 2%float)])
          (mkState 20 ("{" ++ quoted "xyz" ++ ": 2, " ++ quoted "abc" ++ ": 1}"))))
  /\ (forall fuel,
      parse (jsonP (6 + fuel))
            ("{" ++ quoted "abc" ++ ": 1, " ++ quoted "xyz" ++ ": 2}")
      = Returns (Success
          (JSON_OBJECT [("abc", JSON_NUM 1%float); ("xyz", JSON_NUM 2%float)])
          (mkState 20 ("{" ++ quoted "abc" ++ ": 1, " ++ quoted "xyz" ++ ": 2}"))))
  /\ (forall fuel,
      parse (jsonP (6 + fuel))
            ("{" ++ quoted "a" ++ ": 1, " ++ quoted "a" ++ ": 2}")
      = Returns (Success
          (JSON_OBJECT [("a", JSON_NUM 2%float)])
          (mkState 16 ("{" ++ quoted "a" ++ ": 1, " ++ quoted "a" ++ ": 2}"))))
  /\ json_eqb
       (JSON_OBJECT (mapOf [("xyz", JSON_NUM 2%float); ("abc", JSON_NUM 1%float)]))
       (JSON_OBJECT [("abc", JSON_NUM 1%float); ("xyz", JSON_NUM 2%float)])
     = true.
Proof.
  split; [intros n s v s'; apply objectP_success|].
  split; [intros n s ws s0 x sx xs s2 ws' s'; apply objectP_of_items|].
  split.
  { intros w kvs ws1 ws2 x Hw H1 H2 Hx Hsz.
    destruct (object_text_read w kvs "" ws1 ws2 x Hw H1 H2 Hx Hsz) as [N HN].
    exists N. intros n Hn. destruct (HN n Hn) as [Ho Hj]. split; assumption. }
  split; [exact mapOf_sorted|].
  split; [intros items k; apply mapOf_find|].
  split; [intros xs ys H; f_equal; now apply mapOf_ext|].
  split; [intros xs ys Hp Hn; f_equal; now apply mapOf_permutation|].
  split; [intros fuel; unfold parse;
          apply (jsonP_refines 6 (6 + fuel)); [lia|]; vm_compute; reflexivity|].
  split; [intros fuel; unfold parse;
          apply (jsonP_refines 6 (6 + fuel)); [lia|]; vm_compute; reflexivity|].
  split; [intros fuel; unfold parse;
          apply (jsonP_refines 6 (6 + fuel)); [lia|]; vm_compute; reflexivity|].
  vm_compute. reflexivity.
Qed.

(** ** Text after a value *)

Lemma text_accepted (w : string) (v : JsonValue) (x : string) :
  JsonText w v -> noneAhead isSpace x -> endsNumber x ->
  size (w ++ x) < 2 ^ 64 ->
  exists N, forall n, (N <= n)%nat ->
    parse (jsonP n) (w ++ x) = Returns (Success v (mkState (size w) (w ++ x))).
Proof.
  intros Hw Hx He Hsz.
  exact (proj1 grammar_read w v Hw "" x Hx He Hsz).
Qed.

(** C9: [parse] and the JSON grammar ask nowhere for the end of the input.
    Let [w] be a text of the grammar, a value between any white space,
    and [x] any further text.  [jsonP] accepts [w ++ x]; on [w] alone it
    returns the value of [w] at the end of [w]; and it returns the same
    value at the same position on [w ++ x] when [x] does not go on with
    white space, a digit or a point, and whenever its run on [w] stopped
    in front of a character of [w] (other than ['.']).  In particular
    [parse(jsonP(), "null x")] succeeds with Null at position 5, where
    [eofP] would fail. *)
Theorem jsonP_accepts_trailing_text (w x : string) (v : JsonValue)
  (Hw : JsonText w v)
  (Hsz : size (w ++ x) < 2 ^ 64) :
  (exists m v' s'', parse (jsonP m) (w ++ x) = Returns (Success v' s''))
  /\ (exists N, forall n, (N <= n)%nat ->
        parse (jsonP n) w = Returns (Success v (mkState (size w) w)))
  /\ (noneAhead isSpace x -> endsNumber x ->
      exists N, forall n, (N <= n)%nat ->
        parse (jsonP n) (w ++ x)
        = Returns (Success v (mkState (size w) (w ++ x))))
  /\ (forall n v0 s' d,
        parse (jsonP n) w = Returns (Success v0 s') ->
        ahead s' d -> Ascii.eqb "." d = false ->
        parse (jsonP n) (w ++ x) = Returns (Success v0 (ext x s')))
  /\ (forall fuel,
        parse (jsonP (3 + fuel)) "null x"
        = Returns (Success JSON_NULL (mkState 5 "null x")))
  /\ eofP (mkState 5 "null x")
     = Returns (Failure (mkState 5 "null x") ["expect end of file"]).
Proof.
  assert (Hsz0 : size (w ++ "") < 2 ^ 64).
  { rewrite size_append in Hsz. rewrite append_empty_r. lia. }
  assert (Halone : exists N, forall n, (N <= n)%nat ->
            parse (jsonP n) w = Returns (Success v (mkState (size w) w))).
  { destruct (text_accepted w v "" Hw I I Hsz0) as [N HN].
    exists N. intros n Hn. specialize (HN n Hn).
    now rewrite append_empty_r in HN. }
  split; [|split; [exact Halone|split; [|split; [|split]]]].
  - destruct Halone as [N HN].
    apply (jsonP_ext (initial w) x).
    + split; [unfold inBounds; simpl; lia|exact Hsz].
    + exists N. do 2 eexists. exact (HN N (Nat.le_refl _)).
  - intros Hx He. now apply text_accepted.
  - intros n v0 s' d H Hd Hne. unfold parse in *.
    exact (Stable_success _ _ _ _ x (jsonP_stable n _ _ _ _ H Hd Hne) H).
  - intros fuel. unfold parse.
    apply (jsonP_refines 3 (3 + fuel)); [lia|]. vm_compute. reflexivity.
  - reflexivity.
Qed.

Lemma jsonP_accepts_trailing_text_witness :
  (exists m v' s'',
     parse (jsonP m) (" [1, true]" ++ "]x") = Returns (Success v' s''))
  /\ (exists N, forall n, (N <= n)%nat ->
        parse (jsonP n) " [1, true]"
        = Returns (Success (JSON_ARRAY [JSON_NUM 1; JSON_BOOL true])
                           (mkState (size " [1, true]") " [1, true]")))
  /\ (noneAhead isSpace "]x" -> endsNumber "]x" ->
      exists N, forall n, (N <= n)%nat ->
        parse (jsonP n) (" [1, true]" ++ "]x")
        = Returns (Success (JSON_ARRAY [JSON_NUM 1; JSON_BOOL true])
                           (mkState (size " [1, true]") (" [1, true]" ++ "]x"))))
  /\ (forall n v0 s' d,
        parse (jsonP n) " [1, true]" = Returns (Success v0 s') ->
        ahead s' d -> Ascii.eqb "." d = false ->
        parse (jsonP n) (" [1, true]" ++ "]x") = Returns (Success v0 (ext "]x" s')))
  /\ (forall fuel,
        parse (jsonP (3 + fuel)) "null x"
        = Returns (Success JSON_NULL (mkState 5 "null x")))
  /\ eofP (mkState 5 "null x")
     = Returns (Failure (mkState 5 "null x") ["expect end of file"]).
Proof.
  apply (jsonP_accepts_trailing_text " [1, true]" "]x"
           (JSON_ARRAY [JSON_NUM 1; JSON_BOOL true])).
  - apply (J_trim " " "[1, true]" ""); [repeat constructor|constructor|].
    apply (C_array "1, true"). apply (L_more "1" " true").
    + apply (J_trim "" "1" ""); [constructor|constructor|].
      apply C_number. apply (N_natural "1" ""). repeat constructor.
    + apply L_last. apply (J_trim " " "true" ""); [repeat constructor|constructor|].
      apply C_true.
  - reflexivity.
Defined.
